(** * Schema-context retrieval: parser, pruner and key-column injector

    A shallow embedding of [src/utils/context_generation.py].

    Conventions of the embedding.
    - A Python [str] is a list of characters ([pystr]); the character with
      code [n] stands for the code point [n] (Latin-1 range), and the
      character classes of [re] and [str.strip] are those of CPython on
      these code points.
    - A Python [dict] is an association list in insertion order; assigning
      to a key that is present keeps the key's position.
    - A raised exception is the [Raise] case of [result].
    - The text encoder and the cosine similarity are external: they are the
      fields of the [Encoder] class.
    - A similarity score is a Python float, a binary64 number, and the
      pruner computes on the scores with [sum], [/], [*], [-] and [>],
      every operation rounded.  The pruner is written over an
      [Arithmetic]: [binary64] is the arithmetic of the code, on Rocq's
      primitive floats, with the [sum] of CPython before or from version
      3.12; [exact] is the arithmetic of the rationals, which does not
      round, and serves to say what holds up to rounding only. *)

From Stdlib Require Import List Ascii String Bool Arith ZArith QArith Lia Lqa.
From Stdlib Require Import Floats.
Import ListNotations.

Set Implicit Arguments.

Close Scope Q_scope.
Close Scope Z_scope.
Open Scope nat_scope.
Open Scope list_scope.

(** ** Python strings *)

Definition pystr := list ascii.

Definition lit (s : string) : pystr := list_ascii_of_string s.

Definition LF : ascii := ascii_of_nat 10.

Fixpoint str_eqb (a b : pystr) : bool :=
  match a, b with
  | [], [] => true
  | x :: a', y :: b' => Ascii.eqb x y && str_eqb a' b'
  | _, _ => false
  end.

(** [Py_UNICODE_ISSPACE] below code point 256: what [str.strip()] removes
    and what [\s] matches. *)
Definition is_space (c : ascii) : bool :=
  let n := nat_of_ascii c in
  ((9 <=? n) && (n <=? 13)) || ((28 <=? n) && (n <=? 32))
  || (n =? 133) || (n =? 160).

(** [\w] below code point 256: alphanumeric (alphabetic, decimal, digit or
    numeric) or the underscore. *)
Definition is_word (c : ascii) : bool :=
  let n := nat_of_ascii c in
  ((48 <=? n) && (n <=? 57)) || ((65 <=? n) && (n <=? 90)) || (n =? 95)
  || ((97 <=? n) && (n <=? 122))
  || (n =? 170) || (n =? 178) || (n =? 179) || (n =? 181) || (n =? 185)
  || (n =? 186) || ((188 <=? n) && (n <=? 190))
  || ((192 <=? n) && (n <=? 214)) || ((216 <=? n) && (n <=? 246))
  || ((248 <=? n) && (n <=? 255)).

(** [.] without [re.DOTALL], [.] with it, and the class [[^)]]. *)
Definition not_newline (c : ascii) : bool := negb (Ascii.eqb c LF).
Definition any_char (_ : ascii) : bool := true.
Definition not_rparen (c : ascii) : bool := negb (Ascii.eqb c ")"%char).

Definition is_char (x : ascii) (c : ascii) : bool := Ascii.eqb c x.

Fixpoint drop_while (p : ascii -> bool) (s : pystr) : pystr :=
  match s with
  | [] => []
  | c :: s' => if p c then drop_while p s' else s
  end.

(** [s.strip(chars)] with [chars] given as a class; [strip] is [s.strip()]. *)
Definition strip_chars (p : ascii -> bool) (s : pystr) : pystr :=
  rev (drop_while p (rev (drop_while p s))).

Definition strip (s : pystr) : pystr := strip_chars is_space s.

(** [drop_prefix p s] is the rest of [s] after its prefix [p], if any. *)
Fixpoint drop_prefix (p s : pystr) : option pystr :=
  match p, s with
  | [], _ => Some s
  | a :: p', b :: s' => if Ascii.eqb a b then drop_prefix p' s' else None
  | _ :: _, [] => None
  end.

Definition startswith (p s : pystr) : bool :=
  match drop_prefix p s with Some _ => true | None => false end.

(** [sub in s] *)
Fixpoint contains (sub s : pystr) : bool :=
  startswith sub s ||
  match s with
  | [] => false
  | _ :: s' => contains sub s'
  end.

(** [s.split(c)] for a one-character separator. *)
Fixpoint split_on (c : ascii) (s : pystr) : list pystr :=
  match s with
  | [] => [[]]
  | a :: s' =>
      if Ascii.eqb a c then [] :: split_on c s'
      else match split_on c s' with
           | l :: ls => (a :: l) :: ls
           | [] => [[a]]
           end
  end.

(** [sep.join(parts)] *)
Fixpoint join (sep : pystr) (parts : list pystr) : pystr :=
  match parts with
  | [] => []
  | [p] => p
  | p :: ps => p ++ sep ++ join sep ps
  end.

(** ** Regular expressions

    The fragment of [re] the source uses: literals, greedy and lazy
    repetition of a character class, concatenation, capturing groups (never
    nested, numbered left to right) and positive lookahead, matched by
    backtracking with CPython's priorities. *)

Module Re.

Inductive regex : Type :=
| Lit (l : pystr)
| Star (greedy : bool) (cls : ascii -> bool)
| Plus (cls : ascii -> bool)
| Seq (r1 r2 : regex)
| Group (r : regex)
| Ahead (r : regex).

Section Repeat.
Variable R : Type.
Variable cls : ascii -> bool.
Variable k : pystr -> option R.

(** [cls*]: the longest run first, then shorter ones. *)
Fixpoint star_greedy (s : pystr) : option R :=
  match s with
  | c :: s' =>
      if cls c then
        match star_greedy s' with
        | Some r => Some r
        | None => k s
        end
      else k s
  | [] => k s
  end.

(** [cls*?]: the empty run first, then longer ones. *)
Fixpoint star_lazy (s : pystr) : option R :=
  match k s with
  | Some r => Some r
  | None =>
      match s with
      | c :: s' => if cls c then star_lazy s' else None
      | [] => None
      end
  end.
End Repeat.

(** [exec r s caps k]: match [r] at the start of [s]; the continuation [k]
    receives the groups captured so far and the unread rest, and a [None]
    from it makes the matcher backtrack. *)
Fixpoint exec (r : regex) (R : Type) (s : pystr) (caps : list pystr)
    (k : list pystr -> pystr -> option R) {struct r} : option R :=
  match r with
  | Lit l =>
      match drop_prefix l s with
      | Some s' => k caps s'
      | None => None
      end
  | Star true cls => star_greedy cls (k caps) s
  | Star false cls => star_lazy cls (k caps) s
  | Plus cls =>
      match s with
      | c :: s' => if cls c then star_greedy cls (k caps) s' else None
      | [] => None
      end
  | Seq r1 r2 => exec r1 s caps (fun caps' s' => exec r2 s' caps' k)
  | Group r1 =>
      exec r1 s caps
        (fun caps' s' =>
           k (caps' ++ [firstn (List.length s - List.length s') s]) s')
  | Ahead r1 =>
      match exec r1 s caps (fun caps' _ => Some caps') with
      | Some caps' => k caps' s
      | None => None
      end
  end.

(** A match anchored at the start: the groups and the unread rest. *)
Definition match_at (r : regex) (s : pystr) : option (list pystr * pystr) :=
  exec r s [] (fun caps s' => Some (caps, s')).

(** [re.match(r, s).groups()] *)
Definition re_match (r : regex) (s : pystr) : option (list pystr) :=
  option_map fst (match_at r s).

(** [re.search(r, s).groups()]: the leftmost match. *)
Fixpoint re_search (r : regex) (s : pystr) : option (list pystr) :=
  match re_match r s with
  | Some g => Some g
  | None =>
      match s with
      | [] => None
      | _ :: s' => re_search r s'
      end
  end.

(** [re.split(r, s)] for a pattern without capturing groups.  [skip] counts
    the characters of the current match still to be consumed and [cur]
    holds the current piece, reversed.  A pattern that starts with a
    literal character never matches the empty string; an empty match
    leaves no cut here. *)
Fixpoint split_go (r : regex) (skip : nat) (cur : pystr) (s : pystr)
    : list pystr :=
  match s with
  | [] => [rev cur]
  | c :: s' =>
      match skip with
      | S n => split_go r n cur s'
      | O =>
          match match_at r s with
          | Some (_, rest) =>
              match List.length s - List.length rest with
              | S n => rev cur :: split_go r n [] s'
              | O => split_go r 0 (c :: cur) s'
              end
          | None => split_go r 0 (c :: cur) s'
          end
      end
  end.

Definition re_split (r : regex) (s : pystr) : list pystr :=
  split_go r 0 [] s.

End Re.
Import Re.

(** The four patterns of the source. *)

(** [r';\s*(?=--.*?\nCREATE TABLE)'] *)
Definition split_tables_re : regex :=
  Seq (Lit (lit ";"))
   (Seq (Star true is_space)
        (Ahead (Seq (Lit (lit "--"))
               (Seq (Star false not_newline)
                    (Lit (LF :: lit "CREATE TABLE")))))).

(** [r'--(.*?)\nCREATE TABLE (\w+)'] with [re.DOTALL] *)
Definition table_comment_re : regex :=
  Seq (Lit (lit "--"))
   (Seq (Group (Star false any_char))
   (Seq (Lit (LF :: lit "CREATE TABLE "))
        (Group (Plus is_word)))).

(** The column pattern: [(\w+)\s+(\w+)] followed by a third group, a
    greedy run of [.] up to the end of the line. *)
Definition column_re : regex :=
  Seq (Group (Plus is_word))
   (Seq (Plus is_space)
   (Seq (Group (Plus is_word))
        (Group (Star true not_newline)))).

(** [r'FOREIGN KEY\s*\(([^)]+)\)\s+REFERENCES\s+(\w+)'] *)
Definition foreign_key_re : regex :=
  Seq (Lit (lit "FOREIGN KEY"))
   (Seq (Star true is_space)
   (Seq (Lit (lit "("))
   (Seq (Group (Plus not_rparen))
   (Seq (Lit (lit ")"))
   (Seq (Plus is_space)
   (Seq (Lit (lit "REFERENCES"))
   (Seq (Plus is_space)
        (Group (Plus is_word))))))))).

(** ** Dictionaries *)

Definition dict (V : Type) := list (pystr * V).

Section Dict.
Variable V : Type.

Fixpoint dict_get (k : pystr) (d : dict V) : option V :=
  match d with
  | [] => None
  | (k', v) :: d' => if str_eqb k k' then Some v else dict_get k d'
  end.

(** [k in d] *)
Definition dict_mem (k : pystr) (d : dict V) : bool :=
  match dict_get k d with Some _ => true | None => false end.

(** [d[k] = v] *)
Fixpoint dict_set (k : pystr) (v : V) (d : dict V) : dict V :=
  match d with
  | [] => [(k, v)]
  | (k', v') :: d' =>
      if str_eqb k k' then (k', v) :: d' else (k', v') :: dict_set k v d'
  end.

(** An in-place update of the value stored under [k]. *)
Fixpoint dict_adjust (k : pystr) (f : V -> V) (d : dict V) : dict V :=
  match d with
  | [] => []
  | (k', v') :: d' =>
      if str_eqb k k' then (k', f v') :: d'
      else (k', v') :: dict_adjust k f d'
  end.

Definition keys (d : dict V) : list pystr := map fst d.
Definition values (d : dict V) : list V := map snd d.
End Dict.

(** ** The metadata model built by the parser *)

Record column_info : Type := {
  col_type : pystr;
  col_comment : option pystr    (* [None] when no comment line precedes *)
}.

Record table_info : Type := {
  comment : pystr;
  columns : dict column_info;
  constraints : list pystr
}.

Definition metadata := dict table_info.

(** ** [parse_context] *)

(** [tables_dictionary[t_name]["constraints"].append(c)] *)
Definition add_constraint (c : pystr) (ti : table_info) : table_info :=
  {| comment := comment ti;
     columns := columns ti;
     constraints := constraints ti ++ [c] |}.

(** [tables_dictionary[t_name]["columns"][c_name] = info] *)
Definition set_column (c_name : pystr) (info : column_info)
    (ti : table_info) : table_info :=
  {| comment := comment ti;
     columns := dict_set c_name info (columns ti);
     constraints := constraints ti |}.

(** What the body of [for line in lines] does with a line, decided by
    the chain of tests on the stripped line. *)
Inductive line_kind : Type :=
| Skipped                                   (* blank, or the header line *)
| CommentLine (column_comment : pystr)
| ConstraintLine (constraint : pystr)
| ColumnLine (c_name c_type : pystr)
| Unmatched.                                (* [column_details] is [None] *)

Definition classify (line : pystr) : line_kind :=
  let line := strip line in
  match line with
  | [] => Skipped
  | _ :: _ =>
    if startswith (lit "CREATE TABLE") line then Skipped
    else if startswith (lit "--") line then
      CommentLine (strip (strip_chars (is_char "-") line))
    else if contains (lit "PRIMARY KEY") line
            || contains (lit "FOREIGN KEY") line then
      ConstraintLine (strip_chars (is_char ",") line)
    else
      match re_match column_re line with
      | Some (c_name :: c_type :: _) => ColumnLine c_name c_type
      | _ => Unmatched
      end
  end.

(** One iteration of [for line in lines]; the state is the dictionary and
    the pending [column_comment]. *)
Definition parse_line (t_name : pystr)
    (st : metadata * option pystr) (line : pystr)
    : metadata * option pystr :=
  let '(tables_dictionary, column_comment) := st in
  match classify line with
  | Skipped => st
  | CommentLine c => (tables_dictionary, Some c)
  | ConstraintLine c =>
      (dict_adjust t_name (add_constraint c) tables_dictionary,
       column_comment)
  | ColumnLine c_name c_type =>
      (dict_adjust t_name
         (set_column c_name
            {| col_type := c_type; col_comment := column_comment |})
         tables_dictionary,
       None)
  | Unmatched => st
  end.

(** One iteration of [for text in tables]. *)
Definition parse_table (tables_dictionary : metadata) (text : pystr)
    : metadata :=
  match re_search table_comment_re text with
  | Some (table_comment :: t_name :: _) =>
      let tables_dictionary :=
        dict_set t_name
          {| comment := strip table_comment;
             columns := [];
             constraints := [] |}
          tables_dictionary in
      fst (fold_left (parse_line t_name) (split_on LF text)
             (tables_dictionary, None))
  | _ => tables_dictionary
  end.

Definition parse_context (context : pystr) : metadata :=
  fold_left parse_table (re_split split_tables_re context) [].

(** Schema texts are written line by line. *)
Definition unlines (ls : list string) : pystr :=
  join [LF] (map lit ls).

Definition schema_demo : pystr :=
  unlines
    [ "-- students enrolled";
      "CREATE TABLE student_details (";
      "    -- unique id of the student";
      "    student_id INTEGER PRIMARY KEY,";
      "    -- first name";
      "    given_name TEXT NOT NULL,";
      "    age INTEGER NOT NULL";
      ");";
      "-- grades per student";
      "CREATE TABLE grade (";
      "    student_id INTEGER,";
      "    -- grade obtained";
      "    grade REAL,";
      "    FOREIGN KEY (student_id) REFERENCES student_details (student_id)";
      ");" ]%string.


(** ** Exceptions *)

Inductive exn : Type :=
| ZeroDivisionError    (* [sum(all_sim) / len(all_sim)] on an empty list *)
| AttributeError       (* a method called on [None] *)
| TypeError            (* an argument of the wrong type *)
| IndexError
| KeyError
| RuntimeError.        (* raised by torch *)

Inductive result (A : Type) : Type :=
| Ok (a : A)
| Raise (e : exn).

Arguments Ok {A} a.
Arguments Raise {A} e.

Definition bind {A B : Type} (c : result A) (k : A -> result B) : result B :=
  match c with
  | Ok a => k a
  | Raise e => Raise e
  end.

Notation "x <- c1 ;; c2" := (bind c1 (fun x => c2))
  (at level 61, c1 at next level, right associativity).

Fixpoint mapM {A B : Type} (f : A -> result B) (l : list A)
    : result (list B) :=
  match l with
  | [] => Ok []
  | a :: l' =>
      b <- f a ;;
      bs <- mapM f l' ;;
      Ok (b :: bs)
  end.

(** ** Numbers

    What the pruner asks of its numbers: [sum(l)], the division by a
    length, the product with the literal [0.05], the difference and the
    comparison [>].  [le] is the order in which [torch.topk] ranks the
    similarities, and [zero] the number [0]. *)

Record Arithmetic : Type := {
  number : Type;
  zero : number;
  sum : list number -> number;
  of_len : nat -> number;
  divide : number -> number -> number;
  times : number -> number -> number;
  minus : number -> number -> number;
  five_percent : number;
  gt : number -> number -> bool;
  le : number -> number -> bool
}.

Arguments zero {_}.
Arguments sum {_}.
Arguments of_len {_}.
Arguments divide {_}.
Arguments times {_}.
Arguments minus {_}.
Arguments five_percent {_}.
Arguments gt {_}.
Arguments le {_}.

(** *** Python floats

    [sum] starts from the integer [0] and adds the items from left to
    right; with a float item the integer becomes the float [0.0].  Up to
    CPython 3.11 every addition is a plain float addition. *)
Definition sum_sequential (l : list float) : float :=
  fold_left PrimFloat.add l 0%float.

(** From CPython 3.12 on, [sum] keeps the rounding errors of the additions
    in a second float [c] (Neumaier's variant of compensated summation)
    and adds it to the result at the end, unless it is zero, infinite or
    not a number.  One iteration of its loop over the floats: *)
Definition compensated_step (acc : float * float) (x : float)
    : float * float :=
  let '(f_result, c) := acc in
  let t := (f_result + x)%float in
  (t,
   if (abs x <=? abs f_result)%float
   then (c + ((f_result - t) + x))%float
   else (c + ((x - t) + f_result))%float).

Definition sum_compensated (l : list float) : float :=
  match l with
  | [] => 0%float
  | x :: rest =>
      let '(f_result, c) :=
        fold_left compensated_step rest ((0 + x)%float, 0%float) in
      if negb (c =? 0)%float && is_finite c then (f_result + c)%float
      else f_result
  end.

(** [float(n)] for the length [n] of a list: the nearest float.  A list
    has fewer than [2^63] items. *)
Definition float_of_len (n : nat) : float :=
  of_uint63 (Uint63.of_Z (Z.of_nat n)).

(** [torch.topk] ranks a value that is not a number above every number. *)
Definition topk_le (x y : float) : bool :=
  is_nan y || (x <=? y)%float.

(** The arithmetic of the code; [compensated] tells whether the
    interpreter's [sum] compensates. *)
Definition binary64 (compensated : bool) : Arithmetic :=
  {| number := float;
     zero := 0%float;
     sum := if compensated then sum_compensated else sum_sequential;
     of_len := float_of_len;
     divide := PrimFloat.div;
     times := PrimFloat.mul;
     minus := PrimFloat.sub;
     five_percent := 0x1.999999999999ap-5%float;     (* [0.05] *)
     gt := fun a b => (b <? a)%float;
     le := topk_le |}.

(** *** Rationals: the same operations without rounding *)
Definition exact : Arithmetic :=
  {| number := Q;
     zero := 0%Q;
     sum := fun l => fold_left Qplus l 0%Q;
     of_len := fun n => inject_Z (Z.of_nat n);
     divide := Qdiv;
     times := Qmult;
     minus := Qminus;
     five_percent := (5 # 100)%Q;
     gt := fun a b => negb (Qle_bool a b);
     le := Qle_bool |}.

(** ** The external encoder

    [encodes] receives whatever the caller passes: a string, or [None]
    where the source passes a missing column comment.  The cosine
    similarity of two embeddings is a number of the arithmetic [A]: in
    the code the Python float that [.item()] returns, which for a float32
    tensor is a float32 value.  The embedding lets it be any float. *)

Class Encoder (A : Arithmetic) : Type := {
  embedding : Type;
  encodes : option pystr -> result embedding;
  cosine_similarity : embedding -> embedding -> number A
}.

(** ** torch helpers used by [get_top_k] *)

(** [torch.stack] refuses an empty list of tensors. *)
Definition torch_stack {A : Type} (tensors : list A) : result (list A) :=
  match tensors with
  | [] => Raise RuntimeError
  | _ :: _ => Ok tensors
  end.

Section Numbers.
Context {A : Arithmetic}.

Fixpoint insert_desc (x : nat * number A) (l : list (nat * number A))
    : list (nat * number A) :=
  match l with
  | [] => [x]
  | y :: l' =>
      if le (snd x) (snd y) then y :: insert_desc x l' else x :: l
  end.

(** The indices of [xs], largest value first. *)
Definition argsort_desc (xs : list (number A)) : list nat :=
  map fst (fold_right insert_desc [] (combine (seq 0 (List.length xs)) xs)).

(** [torch.topk(xs, k)[1]]: the indices of the [k] largest entries; [k]
    outside [0 .. len(xs)] is refused. *)
Definition torch_topk (xs : list (number A)) (k : Z) : result (list nat) :=
  if ((k <? 0) || (Z.of_nat (List.length xs) <? k))%Z then Raise RuntimeError
  else Ok (firstn (Z.to_nat k) (argsort_desc xs)).

(** [sum(all_sim) / len(all_sim)]: for the empty list, the integer [0]
    divided by the integer [0]. *)
Definition mean (all_sim : list (number A)) : result (number A) :=
  match all_sim with
  | [] => Raise ZeroDivisionError
  | _ :: _ => Ok (divide (sum all_sim) (of_len (List.length all_sim)))
  end.

(** [mean_similarity - (mean_similarity * 0.05)] *)
Definition lower (mean_similarity : number A) : number A :=
  minus mean_similarity (times mean_similarity five_percent).
End Numbers.

(** ** The pruner *)

(** [key in referenced_tables] *)
Definition mem (x : pystr) (l : list pystr) : bool := existsb (str_eqb x) l.

(** [key_columns.setdefault(k, []).append(x)] *)
Definition setdefault_append (k : pystr) (x : pystr)
    (d : dict (list pystr)) : dict (list pystr) :=
  if dict_mem k d then dict_adjust k (fun l => l ++ [x]) d
  else d ++ [(k, [x])].

(** One iteration of [for constraint in constraints]. *)
Definition extract_step (referenced_tables : list pystr)
    (key_columns : dict (list pystr)) (constraint : pystr)
    : dict (list pystr) :=
  match re_search foreign_key_re constraint with
  | Some (fk_column :: referenced_table :: _) =>
      if mem referenced_table referenced_tables then
        setdefault_append referenced_table (strip fk_column) key_columns
      else key_columns
  | _ => key_columns
  end.

Definition extract_key_columns (constraints : list pystr)
    (referenced_tables : list pystr) : dict (list pystr) :=
  fold_left (extract_step referenced_tables) constraints [].

(** [pruned_results[k] = columns + pruned_results[k]]; the source makes
    this assignment only for a key that is present. *)
Definition prepend (k : pystr) (cols : list pystr)
    (pruned_results : dict (list pystr)) : dict (list pystr) :=
  dict_adjust k (fun old => cols ++ old) pruned_results.

(** One iteration of [for ref_table, columns in fk_columns_info.items()]. *)
Definition inject_ref (table_name : pystr)
    (pruned_results : dict (list pystr)) (entry : pystr * list pystr)
    : dict (list pystr) :=
  let '(ref_table, cols) := entry in
  let pruned_results := prepend table_name cols pruned_results in
  if negb (str_eqb ref_table table_name) && dict_mem ref_table pruned_results
  then prepend ref_table cols pruned_results
  else pruned_results.

(** One iteration of the loop of step 4. *)
Definition inject_table (referenced_tables : list pystr)
    (pruned_results : dict (list pystr)) (entry : pystr * table_info)
    : dict (list pystr) :=
  let '(table_name, table_info) := entry in
  if dict_mem table_name pruned_results then
    fold_left (inject_ref table_name)
      (extract_key_columns (constraints table_info) referenced_tables)
      pruned_results
  else pruned_results.

(** Step 4 of [prune_top_k]: the key-column injector. *)
Definition inject_keys (tables_metadata : metadata)
    (pruned_results : dict (list pystr)) : dict (list pystr) :=
  let referenced_tables := keys pruned_results in
  fold_left (inject_table referenced_tables) tables_metadata pruned_results.

Definition format_table (entry : pystr * list pystr) : pystr :=
  let '(table_name, cols) := entry in
  lit "(TABLE: " ++ table_name ++ lit " COLUMNS: "
    ++ join (lit ", ") cols ++ lit ")".

Definition format_top_k (pruned_results : dict (list pystr)) : pystr :=
  join (lit " ") (map format_table pruned_results).

Section Pruner.
Context {A : Arithmetic} {E : Encoder A}.

(** [cosine_similarity(question_emb, encodes(text), dim=0).item()] *)
Definition similarity (question_emb : embedding) (text : option pystr)
    : result (number A) :=
  emb <- encodes text ;;
  Ok (cosine_similarity question_emb emb).

(** Step 1, for one table: its comment, then its columns in order. *)
Definition table_similarities (question_emb : embedding)
    (table_info : table_info) : result (list (number A)) :=
  table_sim <- similarity question_emb (Some (comment table_info)) ;;
  column_sims <-
    mapM (fun column_desc => similarity question_emb (col_comment column_desc))
         (values (columns table_info)) ;;
  Ok (table_sim :: column_sims).

(** Step 1: [all_sim]. *)
Fixpoint compute_similarities (question_emb : embedding)
    (infos : list table_info) : result (list (number A)) :=
  match infos with
  | [] => Ok []
  | table_info :: rest =>
      sims <- table_similarities question_emb table_info ;;
      more <- compute_similarities question_emb rest ;;
      Ok (sims ++ more)
  end.

(** Step 3, inner loop: [pruned_columns]. *)
Fixpoint prune_columns (question_emb : embedding)
    (mean_similarity : number A)
    (cols : dict column_info) : result (list pystr) :=
  match cols with
  | [] => Ok []
  | (column_name, column_desc) :: rest =>
      column_sim <- similarity question_emb (col_comment column_desc) ;;
      kept <- prune_columns question_emb mean_similarity rest ;;
      Ok (if gt column_sim mean_similarity then column_name :: kept
          else kept)
  end.

(** Step 3, outer loop. *)
Fixpoint prune_tables (question_emb : embedding)
    (mean_similarity : number A) (tables : metadata)
    (pruned_results : dict (list pystr))
    : result (dict (list pystr)) :=
  match tables with
  | [] => Ok pruned_results
  | (table_name, table_info) :: rest =>
      table_sim <- similarity question_emb (Some (comment table_info)) ;;
      if gt table_sim mean_similarity then
        pruned_columns <-
          prune_columns question_emb mean_similarity (columns table_info) ;;
        prune_tables question_emb mean_similarity rest
          (match pruned_columns with
           | [] => pruned_results
           | _ :: _ => dict_set table_name pruned_columns pruned_results
           end)
      else prune_tables question_emb mean_similarity rest pruned_results
  end.

(** Steps 1 and 2: the acceptance threshold. *)
Definition threshold (question_emb : embedding)
    (tables_metadata : metadata) : result (number A) :=
  all_sim <- compute_similarities question_emb (values tables_metadata) ;;
  mean_similarity <- mean all_sim ;;
  Ok (lower mean_similarity).

(** Steps 1 to 4: [pruned_results] as it reaches [format_top_k]. *)
Definition pruned_map (question : pystr) (tables_metadata : metadata)
    : result (dict (list pystr)) :=
  question_emb <- encodes (Some question) ;;
  mean_similarity <- threshold question_emb tables_metadata ;;
  pruned_results <-
    prune_tables question_emb mean_similarity tables_metadata [] ;;
  Ok (inject_keys tables_metadata pruned_results).

(** [results] is never read. *)
Definition prune_top_k (question : pystr) (results : dict (list pystr))
    (tables_metadata : metadata) : result pystr :=
  pruned_results <- pruned_map question tables_metadata ;;
  Ok (format_top_k pruned_results).

(** [table_names[i]] *)
Definition list_index (l : list pystr) (i : nat) : result pystr :=
  match nth_error l i with
  | Some x => Ok x
  | None => Raise IndexError
  end.

(** [tables_metadata[table_name]] *)
Definition dict_index (d : metadata) (k : pystr) : result table_info :=
  match dict_get k d with
  | Some v => Ok v
  | None => Raise KeyError
  end.

(** The loop [for i in top_k_indices] that builds [results]. *)
Fixpoint collect_results (tables_metadata : metadata)
    (table_names : list pystr) (top_k_indices : list nat)
    (results : dict (list pystr)) : result (dict (list pystr)) :=
  match top_k_indices with
  | [] => Ok results
  | i :: rest =>
      table_name <- list_index table_names i ;;
      table_info <- dict_index tables_metadata table_name ;;
      let column_names := keys (columns table_info) in
      collect_results tables_metadata table_names rest
        (dict_set table_name column_names results)
  end.

(** [tables_metadata] is what [read_context] returned: [None] when the
    file is missing. *)
Definition get_top_k (question : pystr)
    (tables_metadata : option metadata) (k : Z) : result pystr :=
  question_emb <- encodes (Some question) ;;
  md <- match tables_metadata with
        | Some md => Ok md
        | None => Raise AttributeError       (* [None.values()] *)
        end ;;
  table_embs <-
    mapM (fun table_info => encodes (Some (comment table_info)))
         (values md) ;;
  table_embs_tensor <- torch_stack table_embs ;;
  let cos_similarities :=
    map (cosine_similarity question_emb) table_embs_tensor in
  top_k_indices <-
    torch_topk cos_similarities
      (Z.min k (Z.of_nat (List.length cos_similarities))) ;;
  let table_names := keys md in
  results <- collect_results md table_names top_k_indices [] ;;
  prune_top_k question results md.

(** The file system: the content of the file at a path, if it exists. *)
Definition filesystem := pystr -> option pystr.

(** The printed lines and the returned value. *)
Definition read_context (fs : filesystem) (path : pystr)
    : list pystr * option metadata :=
  match fs path with
  | Some context => ([], Some (parse_context context))
  | None => ([lit "File is not found: " ++ path], None)
  end.

Definition generate_prompt (fs : filesystem) (context_path : pystr)
    (question : pystr) : list pystr * result pystr :=
  let '(printed, tables_metadata) := read_context fs context_path in
  (printed,
   context <- get_top_k question tables_metadata 5 ;;
   Ok (lit "### Question: " ++ question ++ [LF]
       ++ lit "### Context: " ++ context ++ [LF]
       ++ lit "### Answer: ")).
End Pruner.

(** ** Notions used in the statements *)

(** The texts scored in step 1, in the order of the two nested loops: every
    table comment followed by the comments of the table's columns. *)
Definition pooled (tables_metadata : metadata) : list (option pystr) :=
  flat_map
    (fun table_info =>
       Some (comment table_info)
         :: map col_comment (values (columns table_info)))
    (values tables_metadata).

(** The similarity of a text where the encoder answers ([0] stands for no
    answer). *)
Definition sim_of {A : Arithmetic} {E : Encoder A} (question_emb : embedding)
    (text : option pystr) : number A :=
  match similarity question_emb text with
  | Ok s => s
  | Raise _ => zero
  end.

(** The keys of a dictionary are pairwise distinct. *)
Fixpoint uniq (l : list pystr) : bool :=
  match l with
  | [] => true
  | x :: l' => negb (mem x l') && uniq l'
  end.

Definition is_metadata (tables_metadata : metadata) : bool :=
  uniq (keys tables_metadata)
  && forallb (fun table_info => uniq (keys (columns table_info)))
             (values tables_metadata).

(** The foreign key a constraint declares, as [extract_key_columns] reads
    it: the stripped column text and the referenced table. *)
Definition fk_ref (constraint : pystr) : option (pystr * pystr) :=
  match re_search foreign_key_re constraint with
  | Some (fk_column :: referenced_table :: _) =>
      Some (strip fk_column, referenced_table)
  | _ => None
  end.

(** The columns that the constraints declare as foreign keys to table
    [r], when [r] is among the survivors. *)
Definition fk_columns_for (r : pystr) (survivors : list pystr)
    (constraints : list pystr) : list pystr :=
  flat_map
    (fun k =>
       match fk_ref k with
       | Some (c, r') =>
           if str_eqb r' r && mem r' survivors then [c] else []
       | None => []
       end)
    constraints.

(** The similarity score of a text for a question. *)
Definition score {A : Arithmetic} {E : Encoder A} (question : pystr)
    (text : option pystr) : result (number A) :=
  question_emb <- encodes (Some question) ;;
  similarity question_emb text.

(** The column groups that the injector's pass over one table of the
    metadata puts in front of the list of table [x], oldest first. *)
Definition groups_for (survivors : list pystr) (x : pystr)
    (entry : pystr * table_info) : list (list pystr) :=
  let '(table_name, table_info) := entry in
  if mem table_name survivors then
    map snd
      (filter (fun kc => str_eqb x table_name || str_eqb x (fst kc))
         (extract_key_columns (constraints table_info) survivors))
  else [].

(** What the injector puts in front of the list of table [x]. *)
Definition injected (tables_metadata : metadata) (survivors : list pystr)
    (x : pystr) : list pystr :=
  List.concat (rev (flat_map (groups_for survivors x) tables_metadata)).

(** Step 3 read as a function of the similarities [sc] of the texts: the
    columns kept in a table, and the tables selected. *)
Definition keep_columns {A : Arithmetic} (sc : option pystr -> number A)
    (tau : number A) (cols : dict column_info) : list pystr :=
  map fst (filter (fun entry => gt (sc (col_comment (snd entry))) tau) cols).

Definition select_step {A : Arithmetic} (sc : option pystr -> number A)
    (tau : number A) (acc : dict (list pystr)) (entry : pystr * table_info)
    : dict (list pystr) :=
  if gt (sc (Some (comment (snd entry)))) tau then
    match keep_columns sc tau (columns (snd entry)) with
    | [] => acc
    | _ :: _ =>
        dict_set (fst entry) (keep_columns sc tau (columns (snd entry))) acc
    end
  else acc.

Definition select_tables {A : Arithmetic} (sc : option pystr -> number A)
    (tau : number A) (tables_metadata : metadata) (acc : dict (list pystr))
    : dict (list pystr) :=
  fold_left (select_step sc tau) tables_metadata acc.

(** The rational number that a finite float is. *)
Definition value (x : float) : option Q :=
  match Prim2SF x with
  | S754_zero _ => Some 0%Q
  | S754_finite s m e =>
      Some ((if s then - inject_Z (Zpos m) else inject_Z (Zpos m))
            * 2 ^ e)%Q
  | S754_infinity _ | S754_nan => None
  end.

(** The float [s'] is the float [s] raised by [c], exactly. *)
Definition raised_by (c : Q) (s s' : float) : bool :=
  match value s, value s' with
  | Some v, Some v' => Qeq_bool v' (v + c)
  | _, _ => false
  end.

(** ** Encoders for the examples

    Embeddings are the texts themselves and the similarity is the share of
    the characters of a text that occur in the question. *)

Definition shared_chars (a b : pystr) : nat :=
  List.length (filter (fun c => existsb (Ascii.eqb c) a) b).

Definition overlap {A : Arithmetic} (q e : pystr) : number A :=
  divide (of_len (shared_chars q e)) (of_len (S (List.length e))).

(** An encoder that accepts what its annotation [text: str] declares. *)
Definition str_encoder : Encoder (binary64 false) :=
  {| embedding := pystr;
     encodes := fun text =>
       match text with
       | Some s => Ok s
       | None => Raise TypeError
       end;
     cosine_similarity := overlap |}.

(** An encoder that reads [None] as the empty text. *)
Definition lenient_encoder : Encoder (binary64 false) :=
  {| embedding := pystr;
     encodes := fun text =>
       match text with
       | Some s => Ok s
       | None => Ok []
       end;
     cosine_similarity := overlap |}.

(** The same over the rationals. *)
Definition exact_encoder : Encoder exact :=
  @Build_Encoder exact pystr
    (fun text =>
       match text with
       | Some s => Ok s
       | None => Ok []
       end)
    (overlap (A := exact)).

(** The same, with every similarity raised by [c]. *)
Definition raised_encoder (c : Q) : Encoder exact :=
  @Build_Encoder exact pystr
    (fun text =>
       match text with
       | Some s => Ok s
       | None => Ok []
       end)
    (fun q e => (overlap (A := exact) q e + c)%Q).

(** An encoder that reads its similarities off a table, [0] for a text
    that the table does not list. *)
Definition tabled_encoder (A : Arithmetic) (scores : dict (number A))
    : Encoder A :=
  {| embedding := pystr;
     encodes := fun text =>
       match text with
       | Some s => Ok s
       | None => Ok []
       end;
     cosine_similarity := fun _ e =>
       match dict_get e scores with
       | Some s => s
       | None => zero
       end |}.

Definition question_demo : pystr :=
  lit "What is the average grade of students?".

(** A pruned result for the demonstration schema, before injection. *)
Definition pruned_demo : dict (list pystr) :=
  [ (lit "student_details", [lit "given_name"]);
    (lit "grade", [lit "grade"]) ].

(** ** Schema texts with an uncommented table *)

(** Two tables, neither with a comment line of its own; the first has a
    commented column. *)
Definition schema_uncommented : pystr :=
  unlines
    [ "CREATE TABLE unit (";
      "    -- title of the unit";
      "    unit_title TEXT";
      ");";
      "CREATE TABLE enrolment (";
      "    student_id INTEGER";
      ");" ]%string.

Definition no_char (x : ascii) (s : pystr) : bool :=
  forallb (fun c => negb (Ascii.eqb c x)) s.

Definition starts_nonword (s : pystr) : bool :=
  match s with
  | [] => true
  | c :: _ => negb (is_word c)
  end.

(** The boundary pattern of [re.split] matches nowhere in the text. *)
Fixpoint no_boundary (s : pystr) : bool :=
  match match_at split_tables_re s with
  | Some _ => false
  | None =>
      match s with
      | [] => true
      | _ :: s' => no_boundary s'
      end
  end.

(** A commented table followed by a [CREATE TABLE] statement that has no
    comment line: the pieces of the text. *)
Record merged_tables : Type := {
  mt_comment : pystr;      (* the comment line of the first table, after [--] *)
  mt_table : pystr;        (* the name of the first table *)
  mt_body : pystr;         (* the rest of its statement, up to its [;] *)
  mt_gap : pystr;          (* the white space after the [;] *)
  mt_header : pystr;       (* the second header line, after [CREATE TABLE] *)
  mt_lines : list pystr;   (* the lines under the second header *)
  mt_rest : pystr          (* whatever follows *)
}.

Definition render (s : merged_tables) : pystr :=
  lit "--" ++ mt_comment s ++ [LF]
  ++ lit "CREATE TABLE " ++ mt_table s ++ mt_body s ++ lit ";"
  ++ mt_gap s ++ lit "CREATE TABLE" ++ mt_header s ++ [LF]
  ++ join [LF] (mt_lines s) ++ mt_rest s.

(** The pieces are what their names say: the comment is one line, the
    name is a word that ends where the body starts, each statement piece
    is free of [;], the lines are lines, and what follows starts a new
    line and holds no further table boundary. *)
Definition well_formed (s : merged_tables) : bool :=
  no_char LF (mt_comment s) && no_char ";" (mt_comment s)
  && match mt_table s with [] => false | _ :: _ => true end
  && forallb is_word (mt_table s)
  && starts_nonword (mt_body s) && no_char ";" (mt_body s)
  && forallb is_space (mt_gap s)
  && no_char LF (mt_header s) && no_char ";" (mt_header s)
  && forallb (fun l => no_char LF l && no_char ";" l) (mt_lines s)
  && match mt_rest s with [] => true | c :: _ => Ascii.eqb c LF end
  && no_boundary (mt_rest s).

(** The demonstration schema with the comment line of [grade] removed. *)
Definition merged_demo : merged_tables :=
  {| mt_comment := lit " students enrolled";
     mt_table := lit "student_details";
     mt_body :=
       unlines [ " (";
                 "    -- first name";
                 "    given_name TEXT NOT NULL";
                 ")" ]%string;
     mt_gap := [LF];
     mt_header := lit " grade (";
     mt_lines := [ lit "    student_id INTEGER,";
                   lit "    -- grade obtained";
                   lit "    grade REAL" ];
     mt_rest := LF :: lit ");" |}.

(** ** Schema texts made of commented tables *)

(** A table statement with its comment line: the pieces of its text. *)
Record commented_table : Type := {
  ct_comment : pystr;      (* the comment line, after [--] *)
  ct_name : pystr;         (* the table name *)
  ct_body : pystr;         (* the rest of the statement, up to its [;] *)
  ct_gap : pystr           (* the white space after the [;] *)
}.

(** The statement without its [;]. *)
Definition render_head (b : commented_table) : pystr :=
  lit "--" ++ ct_comment b ++ [LF]
  ++ lit "CREATE TABLE " ++ ct_name b ++ ct_body b.

Definition render_table (b : commented_table) : pystr :=
  render_head b ++ lit ";" ++ ct_gap b.

Definition render_schema (bs : list commented_table) : pystr :=
  List.concat (map render_table bs).

Definition well_formed_table (b : commented_table) : bool :=
  no_char LF (ct_comment b) && no_char ";" (ct_comment b)
  && match ct_name b with [] => false | _ :: _ => true end
  && forallb is_word (ct_name b)
  && starts_nonword (ct_body b) && no_char ";" (ct_body b)
  && forallb is_space (ct_gap b).

(** The pieces [re.split] cuts such a text into: every statement without
    its [;] and the white space after it, except the last one, which keeps
    them. *)
Fixpoint segments (bs : list commented_table) : list pystr :=
  match bs with
  | [] => [[]]
  | [b] => [render_table b]
  | b :: bs' => render_head b :: segments bs'
  end.

(** The demonstration schema as two commented tables. *)
Definition tables_demo : list commented_table :=
  [ {| ct_comment := lit " students enrolled";
       ct_name := lit "student_details";
       ct_body :=
         unlines [ " (";
                   "    -- first name";
                   "    given_name TEXT NOT NULL";
                   ")" ]%string;
       ct_gap := [LF] |};
    {| ct_comment := lit " grades per student";
       ct_name := lit "grade";
       ct_body :=
         unlines [ " (";
                   "    student_id INTEGER,";
                   "    grade REAL";
                   ")" ]%string;
       ct_gap := [] |} ].

(** ** The entry a segment builds *)

(** The effect of one line of a segment on the entry of the segment's
    table and on the pending column comment. *)
Definition line_effect (st : table_info * option pystr) (line : pystr)
    : table_info * option pystr :=
  let '(ti, column_comment) := st in
  match classify line with
  | Skipped => st
  | CommentLine c => (ti, Some c)
  | ConstraintLine c => (add_constraint c ti, column_comment)
  | ColumnLine c_name c_type =>
      (set_column c_name
         {| col_type := c_type; col_comment := column_comment |} ti,
       None)
  | Unmatched => st
  end.

(** The entry a segment assigns to its table: the fresh entry with the
    stripped comment, after the lines of the segment. *)
Definition segment_entry (table_comment text : pystr) : table_info :=
  fst (fold_left line_effect (split_on LF text)
         ({| comment := strip table_comment;
             columns := [];
             constraints := [] |}, None)).

(** The constraints and the column names that the lines declare, in the
    order of the lines. *)
Definition constraint_lines (lines : list pystr) : list pystr :=
  flat_map
    (fun line =>
       match classify line with
       | ConstraintLine c => [c]
       | _ => []
       end)
    lines.

Definition column_lines (lines : list pystr) : list pystr :=
  flat_map
    (fun line =>
       match classify line with
       | ColumnLine c_name _ => [c_name]
       | _ => []
       end)
    lines.

(** The line leaves the pending column comment as it is and declares no
    column of the given name. *)
Definition keeps_comment (line : pystr) : bool :=
  match classify line with
  | CommentLine _ | ColumnLine _ _ => false
  | _ => true
  end.

Definition declares (c_name : pystr) (line : pystr) : bool :=
  match classify line with
  | ColumnLine n _ => str_eqb n c_name
  | _ => false
  end.

(** A foreign-key line: indentation, the declaration of column text [x]
    referencing table [y], and whatever follows on the line. *)
Definition fk_line (indent x y tail : pystr) : pystr :=
  indent ++ lit "FOREIGN KEY (" ++ x ++ lit ") REFERENCES " ++ y ++ tail.

(** [s.rstrip(chars)], the right half of [strip_chars]. *)
Definition rstrip_chars (p : ascii -> bool) (s : pystr) : pystr :=
  rev (drop_while p (rev s)).

(** Step 3 gives the table an entry: its comment passes the threshold and
    one of its columns does. *)
Definition selects {A : Arithmetic} (sc : option pystr -> number A)
    (tau : number A) (entry : pystr * table_info) : bool :=
  gt (sc (Some (comment (snd entry)))) tau
  && match keep_columns sc tau (columns (snd entry)) with
     | [] => false
     | _ :: _ => true
     end.

(** ** Further examples *)

(** A schema text without any comment. *)
Definition schema_plain : pystr :=
  unlines
    [ "CREATE TABLE unit (";
      "    unit_title TEXT";
      ");" ]%string.

(** The two segments of the demonstration schema. *)
Definition segment_students : pystr :=
  unlines
    [ "-- students enrolled";
      "CREATE TABLE student_details (";
      "    -- unique id of the student";
      "    student_id INTEGER PRIMARY KEY,";
      "    -- first name";
      "    given_name TEXT NOT NULL,";
      "    age INTEGER NOT NULL";
      ")" ]%string.

Definition segment_grade : pystr :=
  unlines
    [ "-- grades per student";
      "CREATE TABLE grade (";
      "    student_id INTEGER,";
      "    -- grade obtained";
      "    grade REAL,";
      "    FOREIGN KEY (student_id) REFERENCES student_details (student_id)";
      ");" ]%string.

(** A second declaration of a table of the demonstration schema. *)
Definition segment_again : pystr :=
  unlines
    [ "-- students, once more";
      "CREATE TABLE student_details (";
      "    nickname TEXT";
      ")" ]%string.

(** An encoder under which every similarity is zero. *)
Definition flat_encoder : Encoder exact :=
  @Build_Encoder exact pystr
    (fun text =>
       match text with
       | Some s => Ok s
       | None => Ok []
       end)
    (fun _ _ => 0%Q).

(** One table with three commented columns, and similarities for its four
    comments, each of them a float32 number: [41/64] for the table,
    [19/64], [20/64] and [-2^-60] for the columns.  Their sum and their
    mean round to [1.25] and [0.3125], the threshold to [19/64]. *)
Definition schema_unit : pystr :=
  unlines
    [ "-- units on offer";
      "CREATE TABLE unit (";
      "    -- title of the unit";
      "    unit_title TEXT,";
      "    -- credit points";
      "    credit INTEGER,";
      "    -- year first taught";
      "    since INTEGER";
      ")" ]%string.

Definition scores_unit : dict float :=
  [ (lit "units on offer", 0x1.48p-1%float);
    (lit "title of the unit", 0x1.3p-2%float);
    (lit "credit points", 0x1.4p-2%float);
    (lit "year first taught", (- 0x1p-60)%float) ].

(** The same table with two columns, similarities for its three comments
    and the same similarities raised by [2^-53 * 3]. *)
Definition schema_pair : pystr :=
  unlines
    [ "-- units on offer";
      "CREATE TABLE unit (";
      "    -- title of the unit";
      "    unit_title TEXT,";
      "    -- credit points";
      "    credit INTEGER";
      ")" ]%string.

Definition scores_pair : dict float :=
  [ (lit "units on offer", 0x1.48p-1%float);
    (lit "title of the unit", 0x1.2fffffffffffep-2%float);
    (lit "credit points", (- 0x1.4p-52)%float) ].

Definition scores_pair_raised : dict float :=
  [ (lit "units on offer", 0x1.4800000000003p-1%float);
    (lit "title of the unit", 0x1.3000000000004p-2%float);
    (lit "credit points", 0x1p-54%float) ].

Definition raise_pair : Q := ((3 # 1) * 2 ^ (-53))%Q.

Definition context_demo : pystr :=
  lit "(TABLE: student_details COLUMNS: student_id, given_name) (TABLE: grade COLUMNS: student_id, student_id, grade)".

(** * Properties *)

(** ** Strings and dictionaries *)

Lemma str_eqb_refl (a : pystr) : str_eqb a a = true.
Proof.
  induction a as [|x a IH]; simpl; [reflexivity|].
  now rewrite Ascii.eqb_refl.
Qed.

Lemma str_eqb_eq (a b : pystr) : str_eqb a b = true <-> a = b.
Proof.
  split.
  - revert b; induction a as [|x a IH]; intros [|y b]; simpl;
      try discriminate; [reflexivity|].
    intros H; apply andb_true_iff in H as [Hxy Hab].
    apply Ascii.eqb_eq in Hxy. f_equal; auto.
  - intros ->. apply str_eqb_refl.
Qed.

Lemma str_eqb_neq (a b : pystr) : str_eqb a b = false <-> a <> b.
Proof.
  split.
  - intros H Heq. apply str_eqb_eq in Heq. congruence.
  - intros H. destruct (str_eqb a b) eqn:Hab; [|reflexivity].
    apply str_eqb_eq in Hab. contradiction.
Qed.

Lemma str_eqb_sym (a b : pystr) : str_eqb a b = str_eqb b a.
Proof.
  destruct (str_eqb a b) eqn:Hab.
  - apply str_eqb_eq in Hab. subst. symmetry. apply str_eqb_refl.
  - symmetry. apply str_eqb_neq. apply str_eqb_neq in Hab. congruence.
Qed.

Lemma mem_In (x : pystr) (l : list pystr) : mem x l = true <-> In x l.
Proof.
  unfold mem. rewrite existsb_exists. split.
  - intros (y & Hy & Heq). apply str_eqb_eq in Heq. now subst.
  - intros H. exists x. split; [assumption | apply str_eqb_refl].
Qed.

Lemma uniq_NoDup (l : list pystr) : uniq l = true <-> NoDup l.
Proof.
  induction l as [|x l IH]; simpl.
  - split; [constructor | reflexivity].
  - rewrite andb_true_iff, negb_true_iff, IH. split.
    + intros [Hx Hl]. constructor; [|assumption].
      intros Hin. apply mem_In in Hin. congruence.
    + intros H. inversion H as [|? ? Hx Hl]; subst. split; [|assumption].
      destruct (mem x l) eqn:Hm; [|reflexivity].
      apply mem_In in Hm. contradiction.
Qed.

Section DictFacts.
Variable V : Type.
Implicit Types (d : dict V) (k x : pystr).

Lemma dict_mem_keys k d : dict_mem k d = mem k (keys d).
Proof.
  unfold dict_mem. induction d as [|[k' v] d IH]; simpl; [reflexivity|].
  destruct (str_eqb k k'); [reflexivity | exact IH].
Qed.

Lemma dict_get_None k d : dict_get k d = None <-> ~ In k (keys d).
Proof.
  induction d as [|[k' v] d IH]; simpl.
  - tauto.
  - destruct (str_eqb k k') eqn:Hk.
    + apply str_eqb_eq in Hk. subst. split; [discriminate | tauto].
    + apply str_eqb_neq in Hk. rewrite IH. split.
      * intros H [H'|H']; [congruence | tauto].
      * tauto.
Qed.

Lemma dict_get_In k v d : dict_get k d = Some v -> In (k, v) d.
Proof.
  induction d as [|[k' v'] d IH]; simpl; [discriminate|].
  destruct (str_eqb k k') eqn:Hk.
  - apply str_eqb_eq in Hk. subst. intros [= ->]. now left.
  - intros H. right. auto.
Qed.

Lemma In_dict_get k v d :
  NoDup (keys d) -> In (k, v) d -> dict_get k d = Some v.
Proof.
  induction d as [|[k' v'] d IH]; simpl; [tauto|].
  intros Hnd [Heq|Hin].
  - injection Heq as -> ->. now rewrite str_eqb_refl.
  - inversion Hnd as [|? ? Hk' Hd]; subst.
    destruct (str_eqb k k') eqn:Hk.
    + apply str_eqb_eq in Hk. subst. exfalso. apply Hk'.
      change k' with (fst (k', v)). now apply in_map.
    + auto.
Qed.

Lemma keys_adjust k f d : keys (dict_adjust k f d) = keys d.
Proof.
  induction d as [|[k' v] d IH]; simpl; [reflexivity|].
  destruct (str_eqb k k'); simpl; [reflexivity | now rewrite IH].
Qed.

Lemma dict_get_adjust x k f d :
  dict_get x (dict_adjust k f d)
  = if str_eqb x k then option_map f (dict_get x d) else dict_get x d.
Proof.
  induction d as [|[k' v] d IH]; simpl.
  - now destruct (str_eqb x k).
  - destruct (str_eqb k k') eqn:Hk; simpl.
    + apply str_eqb_eq in Hk. subst k'.
      destruct (str_eqb x k); reflexivity.
    + destruct (str_eqb x k') eqn:Hx.
      * destruct (str_eqb x k) eqn:Hxk; [|reflexivity].
        apply str_eqb_eq in Hx, Hxk. subst.
        now rewrite str_eqb_refl in Hk.
      * exact IH.
Qed.

Lemma dict_get_set x k v d :
  dict_get x (dict_set k v d)
  = if str_eqb x k then Some v else dict_get x d.
Proof.
  induction d as [|[k' v'] d IH]; simpl.
  - destruct (str_eqb x k); reflexivity.
  - destruct (str_eqb k k') eqn:Hk; simpl.
    + apply str_eqb_eq in Hk. subst k'.
      destruct (str_eqb x k); reflexivity.
    + destruct (str_eqb x k') eqn:Hx.
      * destruct (str_eqb x k) eqn:Hxk; [|reflexivity].
        apply str_eqb_eq in Hx, Hxk. subst.
        now rewrite str_eqb_refl in Hk.
      * exact IH.
Qed.

Lemma keys_set_absent k v d :
  dict_mem k d = false -> keys (dict_set k v d) = keys d ++ [k].
Proof.
  unfold dict_mem.
  induction d as [|[k' v'] d IH]; simpl; [reflexivity|].
  destruct (str_eqb k k'); [discriminate|].
  intros H. simpl. now rewrite IH.
Qed.

Lemma keys_set_present k v d :
  dict_mem k d = true -> keys (dict_set k v d) = keys d.
Proof.
  unfold dict_mem.
  induction d as [|[k' v'] d IH]; simpl; [discriminate|].
  destruct (str_eqb k k') eqn:Hk; simpl; [reflexivity|].
  intros H. now rewrite IH.
Qed.
End DictFacts.

(** ** The error monad *)

Lemma mapM_app {A B : Type} (f : A -> result B) (l1 l2 : list A) :
  mapM f (l1 ++ l2)
  = (a <- mapM f l1 ;; b <- mapM f l2 ;; Ok (a ++ b)).
Proof.
  induction l1 as [|x l1 IH]; simpl.
  - destruct (mapM f l2); reflexivity.
  - destruct (f x); simpl; [|reflexivity].
    rewrite IH. destruct (mapM f l1); simpl; [|reflexivity].
    destruct (mapM f l2); reflexivity.
Qed.

Lemma mapM_map {A B C : Type} (f : B -> result C) (g : A -> B)
    (l : list A) :
  mapM f (map g l) = mapM (fun a => f (g a)) l.
Proof.
  induction l as [|x l IH]; simpl; [reflexivity|].
  now rewrite IH.
Qed.

Lemma mapM_ok {A B : Type} (f : A -> result B) (g : A -> B) (l : list A) :
  (forall x, In x l -> f x = Ok (g x)) -> mapM f l = Ok (map g l).
Proof.
  induction l as [|x l IH]; simpl; intros H; [reflexivity|].
  rewrite (H x) by now left. simpl.
  rewrite IH by (intros; apply H; now right). reflexivity.
Qed.

Lemma mapM_raise {A B : Type} (f : A -> result B) (l : list A) x e :
  In x l -> f x = Raise e -> exists e', mapM f l = Raise e'.
Proof.
  induction l as [|y l IH]; simpl; [tauto|].
  intros [->|Hin] Hx.
  - rewrite Hx. simpl. eauto.
  - destruct (f y); simpl; [|eauto].
    destruct (IH Hin Hx) as [e' ->]. simpl. eauto.
Qed.

Lemma mapM_inv {A B : Type} (f : A -> result B) (l : list A) bs :
  mapM f l = Ok bs -> forall x, In x l -> exists b, f x = Ok b.
Proof.
  revert bs. induction l as [|y l IH]; simpl; [tauto|].
  intros bs H x [->|Hin].
  - destruct (f x); [eauto | discriminate].
  - destruct (f y); simpl in H; [|discriminate].
    destruct (mapM f l) eqn:Hl; simpl in H; [|discriminate].
    eapply IH; eauto.
Qed.

(** ** Step 1 visits the pooled texts *)

Section Similarities.
Context {A : Arithmetic} {E : Encoder A}.

Lemma compute_similarities_pooled question_emb tables_metadata :
  compute_similarities question_emb (values tables_metadata)
  = mapM (similarity question_emb) (pooled tables_metadata).
Proof.
  unfold pooled.
  induction (values tables_metadata) as [|ti l IH]; simpl; [reflexivity|].
  rewrite IH. unfold table_similarities.
  destruct (similarity question_emb (Some (comment ti))); simpl;
    [|reflexivity].
  rewrite mapM_app, mapM_map.
  destruct (mapM _ (values (columns ti))); simpl; [|reflexivity].
  destruct (mapM _ (flat_map _ l)); reflexivity.
Qed.

(** A text the encoder refuses makes the whole of [prune_top_k] raise:
    nothing is substituted for it. *)
Lemma refused_text_raises question results tables_metadata text e :
  In text (pooled tables_metadata) ->
  encodes text = Raise e ->
  exists e', prune_top_k question results tables_metadata = Raise e'.
Proof.
  intros Hin He. unfold prune_top_k, pruned_map, threshold.
  destruct (encodes (Some question)) as [qe|e0]; simpl; [|eauto].
  rewrite compute_similarities_pooled.
  destruct (@mapM_raise _ _ (similarity qe) _ text e Hin) as [e' ->].
  - unfold similarity. now rewrite He.
  - simpl. eauto.
Qed.
End Similarities.

(** ** Degenerate inputs *)

(** C7: for the empty metadata model the pruner has no guard: the mean of
    the empty list of similarities is a division by zero that
    [prune_top_k] propagates, and [get_top_k] raises even earlier, from
    [torch.stack] on an empty list. *)
Theorem empty_schema_raises :
  forall (A : Arithmetic) (E : Encoder A)
         (question : pystr) (results : dict (list pystr))
         (k : Z),
    prune_top_k question results []
      = (_ <- encodes (Some question) ;; Raise ZeroDivisionError)
    /\ get_top_k question (Some []) k
      = (_ <- encodes (Some question) ;; Raise RuntimeError)
    /\ exists e, prune_top_k question results [] = Raise e.
Proof.
  intros A E question results k.
  unfold prune_top_k, pruned_map, threshold, get_top_k. simpl.
  destruct (encodes (Some question)); simpl; eauto.
Qed.

(** C6: for a missing file [read_context] prints its message and returns
    [None]; [generate_prompt] hands that [None] to [get_top_k], which
    raises instead of yielding an empty context. *)
Theorem missing_file_aborts :
  forall (A : Arithmetic) (E : Encoder A)
         (fs : filesystem) (path question : pystr),
    fs path = None ->
    read_context fs path = ([lit "File is not found: " ++ path], None)
    /\ generate_prompt fs path question
       = ([lit "File is not found: " ++ path],
          _ <- encodes (Some question) ;; Raise AttributeError)
    /\ exists e, snd (generate_prompt fs path question) = Raise e.
Proof.
  intros A E fs path question Hfs.
  unfold generate_prompt, read_context. rewrite Hfs.
  unfold get_top_k.
  destruct (encodes (Some question)); simpl; eauto.
Qed.

Lemma missing_file_aborts_witness :
  read_context (fun _ => None) (lit "context.sql")
    = ([lit "File is not found: context.sql"], None)
  /\ snd (generate_prompt (E := str_encoder) (fun _ => None)
            (lit "context.sql") question_demo)
     = Raise AttributeError.
Proof.
  destruct (@missing_file_aborts _ str_encoder (fun _ => None)
              (lit "context.sql") question_demo eq_refl)
    as (Hread & Hgen & _).
  split; [exact Hread|]. rewrite Hgen. reflexivity.
Defined.

(** C2: a column without a comment line is parsed with a [None] comment,
    and the pruner hands that [None] itself to the encoder; with an encoder
    that accepts only the [str] its annotation declares, the pruner raises
    on such a column instead of scoring it as the empty text. *)
Theorem null_comment_faults :
  (exists ti ci,
      dict_get (lit "student_details") (parse_context schema_demo) = Some ti
      /\ dict_get (lit "age") (columns ti) = Some ci
      /\ col_comment ci = None)
  /\ In None (pooled (parse_context schema_demo))
  /\ prune_top_k (E := str_encoder) question_demo []
       (parse_context schema_demo) = Raise TypeError
  /\ get_top_k (E := str_encoder) question_demo
       (Some (parse_context schema_demo)) 5 = Raise TypeError.
Proof.
  split; [|split; [|split]].
  - vm_compute. eexists. eexists. repeat split.
  - vm_compute. tauto.
  - vm_compute. reflexivity.
  - vm_compute. reflexivity.
Qed.

(** ** Comparisons of similarities *)

(** Over the rationals [>] decides the strict order. *)
Lemma gt_lt (a b : Q) : @gt exact a b = true <-> (b < a)%Q.
Proof.
  cbn [gt exact]. rewrite negb_true_iff. split.
  - intros H. apply Qnot_le_lt. intros Hle.
    apply Qle_bool_iff in Hle. congruence.
  - intros H. destruct (Qle_bool a b) eqn:Hab; [|reflexivity].
    apply Qle_bool_iff in Hab. exfalso. exact (Qlt_not_le _ _ H Hab).
Qed.

Lemma gt_tie (a b : Q) :
  (a == b)%Q -> @gt exact a b = false.
Proof.
  intros H. destruct (@gt exact a b) eqn:Hg; [|reflexivity].
  apply gt_lt in Hg. rewrite H in Hg. exfalso. exact (Qlt_irrefl _ Hg).
Qed.

(** The comparison of two floats in the other direction. *)
Lemma SFcompare_antisym (x y : spec_float) :
  SFcompare y x = option_map CompOpp (SFcompare x y).
Proof.
  destruct x as [sx|sx| |sx mx ex], y as [sy|sy| |sy my ey]; simpl;
    try reflexivity;
    try (destruct sx; reflexivity); try (destruct sy; reflexivity);
    try (destruct sx, sy; reflexivity).
  destruct sx, sy; try reflexivity; f_equal;
    rewrite (Z.compare_antisym ex ey);
    destruct (ex ?= ey)%Z; simpl; try reflexivity;
    rewrite (Pos.compare_cont_antisym mx my Eq); simpl;
    try rewrite CompOpp_involutive; reflexivity.
Qed.

(** Of two floats that [==] holds equal, neither is [>] the other. *)
Lemma float_tie (a b : float) :
  (a =? b)%float = true -> (b <? a)%float = false.
Proof.
  rewrite FloatAxioms.eqb_spec, FloatAxioms.ltb_spec.
  unfold SFeqb, SFltb. rewrite (SFcompare_antisym (Prim2SF a) (Prim2SF b)).
  destruct (SFcompare (Prim2SF a) (Prim2SF b)) as [[]|]; simpl;
    congruence.
Qed.

(** ** Step 3 as a function of the similarities *)

(** The pure reading: which columns are kept, which entry a table gets. *)

Section SelectionFacts.
Context {A : Arithmetic}.
Variable sc : option pystr -> number A.
Variable tau : number A.

Lemma In_keep_columns c cols :
  In c (keep_columns sc tau cols)
  <-> exists ci, In (c, ci) cols /\ gt (sc (col_comment ci)) tau = true.
Proof.
  unfold keep_columns. rewrite in_map_iff. split.
  - intros ([c' ci] & Hc & Hin). simpl in Hc. subst c'.
    apply filter_In in Hin as [Hin Hg]. eauto.
  - intros (ci & Hin & Hg). exists (c, ci). split; [reflexivity|].
    apply filter_In. auto.
Qed.

Lemma select_get_absent t tables_metadata acc :
  ~ In t (keys tables_metadata) ->
  dict_get t (select_tables sc tau tables_metadata acc) = dict_get t acc.
Proof.
  revert acc.
  induction tables_metadata as [|[t' ti] md IH]; intros acc Hnot;
    [reflexivity|].
  unfold select_tables in *. simpl in *.
  rewrite IH by tauto.
  unfold select_step. simpl.
  destruct (gt _ tau); [|reflexivity].
  destruct (keep_columns sc tau (columns ti)) eqn:Hk; [reflexivity|].
  rewrite dict_get_set.
  destruct (str_eqb t t') eqn:Htt; [|reflexivity].
  apply str_eqb_eq in Htt. subst. tauto.
Qed.

(** The entry step 3 leaves for a table of the metadata. *)
Lemma select_get t ti tables_metadata acc :
  NoDup (keys tables_metadata) ->
  dict_get t tables_metadata = Some ti ->
  dict_get t (select_tables sc tau tables_metadata acc)
  = if gt (sc (Some (comment ti))) tau then
      match keep_columns sc tau (columns ti) with
      | [] => dict_get t acc
      | _ :: _ => Some (keep_columns sc tau (columns ti))
      end
    else dict_get t acc.
Proof.
  revert acc.
  induction tables_metadata as [|[t' ti'] md IH]; intros acc Hnd Hget;
    [discriminate|].
  simpl in Hnd. inversion Hnd as [|? ? Hnot Hnd']; subst.
  simpl in Hget. unfold select_tables in *. simpl.
  destruct (str_eqb t t') eqn:Htt.
  - apply str_eqb_eq in Htt. subst t'. injection Hget as ->.
    fold (select_tables sc tau md (select_step sc tau acc (t, ti))).
    rewrite select_get_absent by assumption.
    unfold select_step. simpl.
    destruct (gt _ tau); [|reflexivity].
    destruct (keep_columns sc tau (columns ti)) eqn:Hk; [reflexivity|].
    rewrite dict_get_set. now rewrite str_eqb_refl.
  - rewrite IH by assumption.
    assert (Hacc : dict_get t (select_step sc tau acc (t', ti'))
                   = dict_get t acc).
    { unfold select_step. simpl.
      destruct (gt (sc (Some (comment ti'))) tau); [|reflexivity].
      destruct (keep_columns sc tau (columns ti')); [reflexivity|].
      rewrite dict_get_set. now rewrite Htt. }
    now rewrite Hacc.
Qed.
End SelectionFacts.

Section Selection.
Context {A : Arithmetic} {E : Encoder A}.
Variable question_emb : embedding.
Variable tau : number A.

Let sc : option pystr -> number A := sim_of question_emb.

Lemma similarity_sim_of text :
  (exists e, encodes text = Ok e) ->
  similarity question_emb text = Ok (sc text).
Proof.
  intros [e He]. unfold sc, sim_of, similarity. now rewrite He.
Qed.

Lemma prune_columns_keep cols :
  (forall ci, In ci (values cols) -> exists e, encodes (col_comment ci) = Ok e) ->
  prune_columns question_emb tau cols = Ok (keep_columns sc tau cols).
Proof.
  induction cols as [|[c ci] cols IH]; simpl; intros H; [reflexivity|].
  rewrite similarity_sim_of by (apply H; now left). simpl.
  rewrite IH by (intros; apply H; now right). simpl.
  unfold keep_columns. simpl.
  destruct (gt (sc (col_comment ci)) tau); reflexivity.
Qed.

Lemma pooled_table t ti tables_metadata :
  In (t, ti) tables_metadata ->
  In (Some (comment ti)) (pooled tables_metadata)
  /\ forall ci, In ci (values (columns ti)) ->
                In (col_comment ci) (pooled tables_metadata).
Proof.
  intros Hin. unfold pooled.
  assert (Hv : In ti (values tables_metadata)).
  { change ti with (snd (t, ti)). now apply in_map. }
  split.
  - apply in_flat_map. exists ti. split; [assumption | now left].
  - intros ci Hci. apply in_flat_map. exists ti. split; [assumption|].
    right. now apply in_map.
Qed.

Lemma prune_tables_select tables_metadata acc :
  (forall text, In text (pooled tables_metadata) ->
                exists e, encodes text = Ok e) ->
  prune_tables question_emb tau tables_metadata acc
  = Ok (select_tables sc tau tables_metadata acc).
Proof.
  revert acc.
  induction tables_metadata as [|[t ti] md IH]; intros acc H;
    [reflexivity|].
  assert (Hmd : forall text, In text (pooled md) ->
                             exists e, encodes text = Ok e).
  { intros text Hin. apply H. unfold pooled in *. simpl.
    right. apply in_or_app. now right. }
  destruct (@pooled_table t ti ((t, ti) :: md)) as [Ht Hc]; [now left|].
  simpl. rewrite similarity_sim_of by (apply H; exact Ht). simpl.
  unfold select_tables. simpl. unfold select_step at 2. simpl.
  destruct (gt (sc (Some (comment ti))) tau).
  - rewrite prune_columns_keep by (intros; apply H; now apply Hc). simpl.
    rewrite IH by assumption.
    destruct (keep_columns sc tau (columns ti)); reflexivity.
  - now rewrite IH.
Qed.
End Selection.

Lemma is_metadata_NoDup (tables_metadata : metadata) :
  is_metadata tables_metadata = true ->
  NoDup (keys tables_metadata)
  /\ forall t ti, In (t, ti) tables_metadata -> NoDup (keys (columns ti)).
Proof.
  unfold is_metadata. intros H. apply andb_true_iff in H as [Hk Hc].
  split; [now apply uniq_NoDup|].
  intros t ti Hin. apply uniq_NoDup.
  rewrite forallb_forall in Hc. apply Hc.
  change ti with (snd (t, ti)). now apply in_map.
Qed.

Lemma pooled_nonempty (tables_metadata : metadata) :
  tables_metadata <> [] -> pooled tables_metadata <> [].
Proof.
  destruct tables_metadata as [|[t ti] md]; [congruence|].
  intros _. unfold pooled. simpl. discriminate.
Qed.

(** C1: the acceptance threshold is the mean of the pooled similarities
    (every table comment and every column comment, one list) minus 5% of
    that mean, as the code computes them on floats: the sum from [0] in
    the order of the list (with the rounding errors of the additions
    added at the end where the interpreter compensates), divided by the
    length, minus its product with [0.05].  A table is
    selected exactly when its similarity is strictly above the threshold
    and one of its columns is, a column of a selected table exactly when
    its similarity is strictly above it; a similarity equal to the
    threshold selects nothing. *)
Theorem threshold_and_strict_selection :
  forall (compensated : bool) (E : Encoder (binary64 compensated))
         (question : pystr) (results : dict (list pystr))
         (tables_metadata : metadata) (question_emb : embedding),
    tables_metadata <> [] ->
    is_metadata tables_metadata = true ->
    encodes (Some question) = Ok question_emb ->
    (forall text, In text (pooled tables_metadata) ->
                  exists e, encodes text = Ok e) ->
    let sc : option pystr -> float := sim_of (E := E) question_emb in
    let all_sim := map sc (pooled tables_metadata) in
    let total :=
      if compensated then
        match all_sim with
        | [] => 0
        | x :: rest =>
            let '(f_result, c) :=
              fold_left
                (fun acc y =>
                   let '(f_result, c) := acc in
                   let t := f_result + y in
                   (t,
                    if abs y <=? abs f_result then c + ((f_result - t) + y)
                    else c + ((y - t) + f_result)))
                rest (0 + x, 0) in
            if negb (c =? 0) && is_finite c then f_result + c else f_result
        end%float
      else fold_left PrimFloat.add all_sim 0%float in
    let m :=
      (total / of_uint63 (Uint63.of_Z (Z.of_nat (List.length all_sim))))%float
    in
    let tau := (m - m * 0x1.999999999999ap-5)%float in
    threshold question_emb tables_metadata = Ok tau
    /\ exists selected,
        prune_tables question_emb tau tables_metadata [] = Ok selected
        /\ prune_top_k question results tables_metadata
           = Ok (format_top_k (inject_keys tables_metadata selected))
        /\ forall t ti,
            dict_get t tables_metadata = Some ti ->
            (dict_mem t selected = true <->
               (tau <? sc (Some (comment ti)))%float = true
               /\ exists c ci, dict_get c (columns ti) = Some ci
                               /\ (tau <? sc (col_comment ci))%float = true)
            /\ ((sc (Some (comment ti)) =? tau)%float = true ->
                dict_mem t selected = false)
            /\ forall cols c ci,
                dict_get t selected = Some cols ->
                dict_get c (columns ti) = Some ci ->
                (In c cols <-> (tau <? sc (col_comment ci))%float = true)
                /\ ((sc (col_comment ci) =? tau)%float = true ->
                    ~ In c cols).
Proof.
  intros compensated E question results md qe Hne Hmd Hq Hans
    sc all_sim total m tau.
  set (B := binary64 compensated) in *.
  destruct (is_metadata_NoDup _ Hmd) as [Hnd Hcols].
  assert (Hsims : compute_similarities qe (values md) = Ok all_sim).
  { rewrite compute_similarities_pooled. apply mapM_ok.
    intros text Hin. apply similarity_sim_of. auto. }
  assert (Hthr : threshold qe md = Ok tau).
  { unfold threshold. rewrite Hsims. simpl.
    unfold mean.
    destruct all_sim as [|s l] eqn:Hall.
    - exfalso. apply (pooled_nonempty Hne).
      subst all_sim. now apply map_eq_nil in Hall.
    - subst tau m total. destruct compensated; reflexivity. }
  split; [exact Hthr|].
  exists (@select_tables B sc tau md []).
  assert (Hsel : prune_tables qe tau md []
                 = Ok (@select_tables B sc tau md [])).
  { apply prune_tables_select. exact Hans. }
  split; [exact Hsel|]. split.
  { unfold prune_top_k, pruned_map. rewrite Hq. simpl.
    rewrite Hthr. simpl. rewrite Hsel. reflexivity. }
  intros t ti Hget.
  pose proof (dict_get_In _ _ Hget) as Hin.
  pose proof (Hcols _ _ Hin) as Hndc.
  assert (Hkeep : forall c ci, dict_get c (columns ti) = Some ci ->
            (In c (@keep_columns B sc tau (columns ti))
             <-> (tau <? sc (col_comment ci))%float = true)).
  { intros c ci Hc. rewrite In_keep_columns. split.
    - intros (ci' & Hin' & Hg).
      apply (In_dict_get _ _ _ Hndc) in Hin'.
      assert (ci' = ci) by congruence. subst. exact Hg.
    - intros Hlt. exists ci. split; [now apply dict_get_In|]. exact Hlt. }
  pose proof (@select_get B sc tau t ti md [] Hnd Hget) as Hsg.
  simpl in Hsg.
  change (@gt B (sc (Some (comment ti))) tau)
    with (tau <? sc (Some (comment ti)))%float in Hsg.
  split; [|split].
  - unfold dict_mem. rewrite Hsg. split.
    + destruct (tau <? sc (Some (comment ti)))%float eqn:Hg; [|discriminate].
      intros Hmem. split; [reflexivity|].
      destruct (@keep_columns B sc tau (columns ti)) as [|c l] eqn:Hk;
        [discriminate|].
      assert (Hc : In c (@keep_columns B sc tau (columns ti)))
        by (rewrite Hk; now left).
      apply In_keep_columns in Hc as (ci & Hci & Hgc).
      exists c, ci. split; [now apply In_dict_get | exact Hgc].
    + intros (Hlt & c & ci & Hc & Hltc).
      rewrite Hlt.
      apply (Hkeep c ci Hc) in Hltc.
      destruct (@keep_columns B sc tau (columns ti)); [destruct Hltc|].
      reflexivity.
  - intros Htie. unfold dict_mem. rewrite Hsg.
    now rewrite (float_tie Htie).
  - intros cols c ci Hsel_t Hc. rewrite Hsg in Hsel_t.
    assert (Hcols_eq : cols = @keep_columns B sc tau (columns ti)).
    { destruct (tau <? sc (Some (comment ti)))%float; [|discriminate].
      destruct (@keep_columns B sc tau (columns ti)); [discriminate|].
      congruence. }
    subst cols. split; [now apply Hkeep|].
    intros Htie Hin'. apply (Hkeep c ci Hc) in Hin'.
    rewrite (float_tie Htie) in Hin'. discriminate.
Qed.

Lemma threshold_and_strict_selection_witness :
  threshold (E := tabled_encoder (binary64 false) scores_unit)
    question_demo (parse_context schema_unit)
  = Ok 0x1.3p-2%float
  /\ prune_top_k (E := tabled_encoder (binary64 false) scores_unit)
       question_demo [] (parse_context schema_unit)
     = Ok (lit "(TABLE: unit COLUMNS: credit)")
  /\ threshold (E := tabled_encoder (binary64 true) scores_unit)
       question_demo (parse_context schema_unit)
     = Ok 0x1.3p-2%float
  /\ prune_top_k (E := tabled_encoder (binary64 true) scores_unit)
       question_demo [] (parse_context schema_unit)
     = Ok (lit "(TABLE: unit COLUMNS: credit)").
Proof.
  destruct (@threshold_and_strict_selection false
              (tabled_encoder (binary64 false) scores_unit)
              question_demo [] (parse_context schema_unit) question_demo)
    as (Hthr & selected & Hsel & Hprune & _).
  { vm_compute. discriminate. }
  { vm_compute. reflexivity. }
  { reflexivity. }
  { intros [text|] _; eexists; reflexivity. }
  destruct (@threshold_and_strict_selection true
              (tabled_encoder (binary64 true) scores_unit)
              question_demo [] (parse_context schema_unit) question_demo)
    as (Hthr' & selected' & Hsel' & Hprune' & _).
  { vm_compute. discriminate. }
  { vm_compute. reflexivity. }
  { reflexivity. }
  { intros [text|] _; eexists; reflexivity. }
  assert (Hs : Ok selected = Ok [(lit "unit", [lit "credit"])])
    by (rewrite <- Hsel; vm_compute; reflexivity).
  assert (Hs' : Ok selected' = Ok [(lit "unit", [lit "credit"])])
    by (rewrite <- Hsel'; vm_compute; reflexivity).
  injection Hs as ->. injection Hs' as ->.
  split; [|split; [|split]].
  - rewrite Hthr. vm_compute. reflexivity.
  - rewrite Hprune. vm_compute. reflexivity.
  - rewrite Hthr'. vm_compute. reflexivity.
  - rewrite Hprune'. vm_compute. reflexivity.
Defined.

(** ** The key-column injector *)

Lemma extract_step_fk_ref survivors key_columns constraint :
  extract_step survivors key_columns constraint
  = match fk_ref constraint with
    | Some (c, r) =>
        if mem r survivors then setdefault_append r c key_columns
        else key_columns
    | None => key_columns
    end.
Proof.
  unfold extract_step, fk_ref.
  destruct (re_search foreign_key_re constraint) as [[|a [|b g]]|];
    reflexivity.
Qed.

Lemma dict_get_app {V : Type} x (d1 d2 : dict V) :
  dict_get x (d1 ++ d2)
  = match dict_get x d1 with
    | Some v => Some v
    | None => dict_get x d2
    end.
Proof.
  induction d1 as [|[k v] d1 IH]; simpl; [reflexivity|].
  destruct (str_eqb x k); [reflexivity | exact IH].
Qed.

Lemma dict_get_setdefault_append x k c (d : dict (list pystr)) :
  dict_get x (setdefault_append k c d)
  = if str_eqb x k then
      Some (match dict_get x d with Some l => l ++ [c] | None => [c] end)
    else dict_get x d.
Proof.
  unfold setdefault_append, dict_mem.
  destruct (dict_get k d) as [l|] eqn:Hk.
  - rewrite dict_get_adjust.
    destruct (str_eqb x k) eqn:Hx; [|reflexivity].
    apply str_eqb_eq in Hx. subst. now rewrite Hk.
  - rewrite dict_get_app. simpl.
    destruct (str_eqb x k) eqn:Hx.
    + apply str_eqb_eq in Hx. subst. now rewrite Hk.
    + now destruct (dict_get x d).
Qed.

Lemma keys_setdefault_append k c (d : dict (list pystr)) :
  NoDup (keys d) -> NoDup (keys (setdefault_append k c d)).
Proof.
  intros Hnd. unfold setdefault_append.
  destruct (dict_mem k d) eqn:Hm.
  - now rewrite keys_adjust.
  - unfold keys. rewrite map_app. simpl.
    apply NoDup_app; [assumption | repeat constructor; tauto |].
    intros y Hy [<-|[]].
    rewrite dict_mem_keys in Hm.
    apply mem_In in Hy. unfold keys in Hm. congruence.
Qed.

(** The entry of [extract_key_columns] for a table: the foreign-key
    columns that reference it, in the order of the constraints; no entry
    when there are none or the table is not among the survivors. *)
Lemma extract_key_columns_fold survivors constraints r key_columns :
  dict_get r (fold_left (extract_step survivors) constraints key_columns)
  = match dict_get r key_columns,
          fk_columns_for r survivors constraints with
    | None, [] => None
    | None, l => Some l
    | Some l0, l => Some (l0 ++ l)
    end.
Proof.
  revert key_columns.
  induction constraints as [|k cs IH]; intros kc; simpl.
  - destruct (dict_get r kc); [now rewrite app_nil_r | reflexivity].
  - rewrite IH, extract_step_fk_ref. unfold fk_columns_for. simpl.
    fold (fk_columns_for r survivors cs).
    destruct (fk_ref k) as [[c r']|]; simpl; [|reflexivity].
    destruct (mem r' survivors) eqn:Hm; simpl.
    + rewrite dict_get_setdefault_append.
      rewrite (str_eqb_sym r' r), andb_true_r.
      destruct (str_eqb r r') eqn:Hr; simpl.
      * destruct (dict_get r kc); simpl.
        -- now rewrite <- app_assoc.
        -- reflexivity.
      * reflexivity.
    + now rewrite andb_false_r.
Qed.

Lemma extract_key_columns_get survivors constraints r :
  dict_get r (extract_key_columns constraints survivors)
  = match fk_columns_for r survivors constraints with
    | [] => None
    | l => Some l
    end.
Proof.
  unfold extract_key_columns. now rewrite extract_key_columns_fold.
Qed.

Lemma extract_key_columns_NoDup survivors constraints :
  NoDup (keys (extract_key_columns constraints survivors)).
Proof.
  unfold extract_key_columns.
  assert (H : forall kc, NoDup (keys kc) ->
            NoDup (keys (fold_left (extract_step survivors) constraints kc))).
  { induction constraints as [|k cs IH]; intros kc Hkc; simpl; [assumption|].
    apply IH. rewrite extract_step_fk_ref.
    destruct (fk_ref k) as [[c r]|]; [|assumption].
    destruct (mem r survivors); [|assumption].
    now apply keys_setdefault_append. }
  apply H. constructor.
Qed.

Lemma In_fk_columns_for c r survivors constraints :
  In c (fk_columns_for r survivors constraints)
  <-> mem r survivors = true
      /\ exists k, In k constraints /\ fk_ref k = Some (c, r).
Proof.
  unfold fk_columns_for. rewrite in_flat_map. split.
  - intros (k & Hk & Hc).
    destruct (fk_ref k) as [[c' r']|] eqn:Hfk; [|destruct Hc].
    destruct (str_eqb r' r) eqn:Hr; simpl in Hc; [|destruct Hc].
    apply str_eqb_eq in Hr. subst r'.
    destruct (mem r survivors) eqn:Hm; [|destruct Hc].
    destruct Hc as [<-|[]]. eauto.
  - intros (Hm & k & Hk & Hfk). exists k. split; [assumption|].
    rewrite Hfk, str_eqb_refl, Hm. now left.
Qed.

(** The pairs of [extract_key_columns]: a surviving table and a column
    that a constraint declares as a foreign key to it. *)
Lemma In_extract_key_columns c survivors constraints :
  forall r,
    (exists cols, In (r, cols) (extract_key_columns constraints survivors)
                  /\ In c cols)
    <-> mem r survivors = true
        /\ exists k, In k constraints /\ fk_ref k = Some (c, r).
Proof.
  intros r. rewrite <- In_fk_columns_for.
  pose proof (extract_key_columns_get survivors constraints r) as Hget.
  pose proof (extract_key_columns_NoDup survivors constraints) as Hnd.
  split.
  - intros (cols & Hin & Hc).
    apply (In_dict_get _ _ _ Hnd) in Hin. rewrite Hget in Hin.
    destruct (fk_columns_for r survivors constraints); [discriminate|].
    now injection Hin as <-.
  - intros Hc.
    destruct (fk_columns_for r survivors constraints) as [|a l] eqn:Hl;
      [destruct Hc|].
    exists (a :: l). split; [|assumption].
    now apply dict_get_In.
Qed.

Lemma option_map_app {A : Type} (l1 l2 : list A) (o : option (list A)) :
  option_map (app l2) (option_map (app l1) o) = option_map (app (l2 ++ l1)) o.
Proof.
  destruct o; simpl; [|reflexivity]. now rewrite app_assoc.
Qed.

Lemma keys_prepend k cols (d : dict (list pystr)) :
  keys (prepend k cols d) = keys d.
Proof. apply keys_adjust. Qed.

Lemma keys_inject_ref t (d : dict (list pystr)) entry :
  keys (inject_ref t d entry) = keys d.
Proof.
  destruct entry as [r cols]. unfold inject_ref.
  destruct (negb (str_eqb r t) && dict_mem r (prepend t cols d));
    now rewrite ?keys_prepend.
Qed.

Lemma keys_fold_inject_ref t kc (d : dict (list pystr)) :
  keys (fold_left (inject_ref t) kc d) = keys d.
Proof.
  revert d. induction kc as [|e kc IH]; intros d; simpl; [reflexivity|].
  now rewrite IH, keys_inject_ref.
Qed.

Lemma keys_inject_table survivors (d : dict (list pystr)) entry :
  keys (inject_table survivors d entry) = keys d.
Proof.
  destruct entry as [t ti]. unfold inject_table.
  destruct (dict_mem t d); [apply keys_fold_inject_ref | reflexivity].
Qed.

Lemma keys_fold_inject_table survivors tables (d : dict (list pystr)) :
  keys (fold_left (inject_table survivors) tables d) = keys d.
Proof.
  revert d. induction tables as [|e md IH]; intros d; simpl; [reflexivity|].
  now rewrite IH, keys_inject_table.
Qed.

(** The injector neither adds nor removes a table. *)
Lemma keys_inject_keys tables_metadata (pruned_results : dict (list pystr)) :
  keys (inject_keys tables_metadata pruned_results) = keys pruned_results.
Proof. apply keys_fold_inject_table. Qed.

(** One foreign-key entry: the columns go in front of the list of the
    referencing table and of the referenced table. *)
Lemma dict_get_inject_ref x t r cols (d : dict (list pystr)) :
  dict_get x (inject_ref t d (r, cols))
  = if str_eqb x t || str_eqb x r
    then option_map (app cols) (dict_get x d)
    else dict_get x d.
Proof.
  unfold inject_ref, prepend.
  destruct (negb (str_eqb r t) && dict_mem r (dict_adjust t (app cols) d))
    eqn:Hcond.
  - apply andb_true_iff in Hcond as [Hrt _]. apply negb_true_iff in Hrt.
    rewrite !dict_get_adjust.
    destruct (str_eqb x r) eqn:Hxr.
    + apply str_eqb_eq in Hxr. subst x. rewrite Hrt. reflexivity.
    + now rewrite orb_false_r.
  - rewrite dict_get_adjust.
    destruct (str_eqb x t) eqn:Hxt; [reflexivity|]. simpl.
    destruct (str_eqb x r) eqn:Hxr; [|reflexivity].
    apply str_eqb_eq in Hxr. subst x. rewrite Hxt in Hcond.
    simpl in Hcond. unfold dict_mem in Hcond.
    rewrite dict_get_adjust, Hxt in Hcond.
    now destruct (dict_get r d).
Qed.

Lemma dict_get_fold_inject_ref x t kc (d : dict (list pystr)) :
  dict_get x (fold_left (inject_ref t) kc d)
  = option_map
      (app (List.concat
              (rev (map snd
                      (filter (fun e => str_eqb x t || str_eqb x (fst e))
                         kc)))))
      (dict_get x d).
Proof.
  revert d. induction kc as [|[r cols] kc IH]; intros d.
  - simpl. now destruct (dict_get x d).
  - cbn [fold_left]. rewrite IH, dict_get_inject_ref.
    cbn [filter fst].
    destruct (str_eqb x t || str_eqb x r); [|reflexivity].
    cbn [map snd rev].
    rewrite option_map_app, concat_app. simpl. now rewrite app_nil_r.
Qed.

Lemma dict_get_fold_inject_table x survivors tables (d : dict (list pystr)) :
  keys d = survivors ->
  dict_get x (fold_left (inject_table survivors) tables d)
  = option_map
      (app (List.concat (rev (flat_map (groups_for survivors x) tables))))
      (dict_get x d).
Proof.
  revert d. induction tables as [|[t ti] md IH]; intros d Hk.
  - simpl. now destruct (dict_get x d).
  - cbn [fold_left flat_map].
    rewrite IH by now rewrite keys_inject_table.
    rewrite rev_app_distr, concat_app.
    unfold inject_table, groups_for.
    rewrite dict_mem_keys, Hk.
    destruct (mem t survivors).
    + rewrite dict_get_fold_inject_ref, option_map_app. reflexivity.
    + simpl. now rewrite app_nil_r.
Qed.

(** The closed form of step 4: every list gets [injected] in front. *)
Lemma dict_get_inject_keys x tables_metadata
    (pruned_results : dict (list pystr)) :
  dict_get x (inject_keys tables_metadata pruned_results)
  = option_map (app (injected tables_metadata (keys pruned_results) x))
      (dict_get x pruned_results).
Proof. unfold inject_keys, injected. now apply dict_get_fold_inject_table. Qed.

(** A column is injected in front of table [x] exactly when a surviving
    table declares it as a foreign key to a surviving table and [x] is one
    of the two. *)
Lemma In_injected c x tables_metadata survivors :
  In c (injected tables_metadata survivors x)
  <-> exists t ti k r,
        In (t, ti) tables_metadata /\ mem t survivors = true
        /\ In k (constraints ti) /\ fk_ref k = Some (c, r)
        /\ mem r survivors = true /\ (x = t \/ x = r).
Proof.
  unfold injected. rewrite in_concat. split.
  - intros (cols & Hcols & Hc).
    apply in_rev, in_flat_map in Hcols as ([t ti] & Hin & Hg).
    unfold groups_for in Hg.
    destruct (mem t survivors) eqn:Ht; [|destruct Hg].
    apply in_map_iff in Hg as ([r cols'] & Heq & Hf). simpl in Heq. subst.
    apply filter_In in Hf as [Hkc Hx]. simpl in Hx.
    destruct (proj1 (In_extract_key_columns c survivors (constraints ti) r))
      as (Hr & k & Hk & Hfk); [eauto|].
    exists t, ti, k, r. repeat split; try assumption.
    apply orb_true_iff in Hx as [Hx|Hx]; apply str_eqb_eq in Hx; auto.
  - intros (t & ti & k & r & Hin & Ht & Hk & Hfk & Hr & Hx).
    destruct (proj2 (In_extract_key_columns c survivors (constraints ti) r))
      as (cols & Hkc & Hc); [eauto|].
    exists cols. split; [|assumption].
    apply -> in_rev. apply in_flat_map. exists (t, ti). split; [assumption|].
    unfold groups_for. rewrite Ht.
    apply in_map_iff. exists (r, cols). split; [reflexivity|].
    apply filter_In. split; [assumption|]. simpl.
    apply orb_true_iff.
    destruct Hx as [->| ->]; [left | right]; apply str_eqb_refl.
Qed.

(** C3: in the result of the injector, the list of a surviving table [x]
    is its pruned list with the injected columns in front; a column is
    injected exactly when some surviving table declares it as a foreign key
    to a surviving table and [x] is the referencing table or the
    referenced one, so a foreign key to a table that did not survive
    injects nothing; the injector adds and removes no table. *)
Theorem key_columns_prepended :
  forall (tables_metadata : metadata) (pruned_results : dict (list pystr))
         (x : pystr) (cols : list pystr),
    dict_get x pruned_results = Some cols ->
    keys (inject_keys tables_metadata pruned_results) = keys pruned_results
    /\ dict_get x (inject_keys tables_metadata pruned_results)
       = Some (injected tables_metadata (keys pruned_results) x ++ cols)
    /\ forall c,
        In c (injected tables_metadata (keys pruned_results) x)
        <-> exists t ti k r,
              In (t, ti) tables_metadata
              /\ dict_mem t pruned_results = true
              /\ In k (constraints ti)
              /\ fk_ref k = Some (c, r)
              /\ dict_mem r pruned_results = true
              /\ (x = t \/ x = r).
Proof.
  intros md P x cols Hget.
  split; [apply keys_inject_keys|]. split.
  - now rewrite dict_get_inject_keys, Hget.
  - intros c. rewrite In_injected.
    split; intros (t & ti & k & r & H); exists t, ti, k, r;
      rewrite ?dict_mem_keys in *; exact H.
Qed.

Lemma key_columns_prepended_witness :
  dict_get (lit "grade")
    (inject_keys (parse_context schema_demo) pruned_demo)
  = Some [lit "student_id"; lit "grade"]
  /\ dict_get (lit "student_details")
       (inject_keys (parse_context schema_demo) pruned_demo)
     = Some [lit "student_id"; lit "given_name"].
Proof.
  split.
  - destruct (@key_columns_prepended (parse_context schema_demo) pruned_demo
                (lit "grade") [lit "grade"] eq_refl) as (_ & H & _).
    rewrite H. vm_compute. reflexivity.
  - destruct (@key_columns_prepended (parse_context schema_demo) pruned_demo
                (lit "student_details") [lit "given_name"] eq_refl)
      as (_ & H & _).
    rewrite H. vm_compute. reflexivity.
Defined.

(** The injector is not idempotent: a second run on the demonstration
    schema puts [student_id] in front of both lists once more. *)
Lemma injector_not_idempotent :
  inject_keys (parse_context schema_demo)
    (inject_keys (parse_context schema_demo) pruned_demo)
  <> inject_keys (parse_context schema_demo) pruned_demo.
Proof. vm_compute. discriminate. Qed.

(** C4 (amended): a second run of the injector puts the same key columns
    in front once more: after two runs the list of a surviving table is
    the injected prefix, twice, followed by its pruned list.  The two
    results have the same tables and, table by table, the same column
    names; the lists are equal only where nothing was injected. *)
Theorem second_injection_prepends_again :
  forall (tables_metadata : metadata) (pruned_results : dict (list pystr))
         (x : pystr) (cols : list pystr),
    dict_get x pruned_results = Some cols ->
    let once := inject_keys tables_metadata pruned_results in
    let twice := inject_keys tables_metadata once in
    let pre := injected tables_metadata (keys pruned_results) x in
    dict_get x once = Some (pre ++ cols)
    /\ dict_get x twice = Some (pre ++ pre ++ cols)
    /\ keys twice = keys once
    /\ (forall c, In c (pre ++ pre ++ cols) <-> In c (pre ++ cols))
    /\ (dict_get x twice = dict_get x once <-> pre = []).
Proof.
  intros md P x cols Hget once twice pre.
  assert (Honce : dict_get x once = Some (pre ++ cols)).
  { unfold once, pre. now rewrite dict_get_inject_keys, Hget. }
  assert (Htwice : dict_get x twice = Some (pre ++ pre ++ cols)).
  { unfold twice. rewrite dict_get_inject_keys, Honce.
    unfold once. now rewrite keys_inject_keys. }
  split; [exact Honce|]. split; [exact Htwice|].
  split; [apply keys_inject_keys|]. split.
  - intros c. rewrite !in_app_iff. tauto.
  - rewrite Honce, Htwice. split.
    + intros [= H]. apply (f_equal (@List.length pystr)) in H.
      rewrite !length_app in H.
      destruct pre; [reflexivity | simpl in H; lia].
    + intros ->. reflexivity.
Qed.

Lemma second_injection_prepends_again_witness :
  dict_get (lit "grade")
    (inject_keys (parse_context schema_demo)
       (inject_keys (parse_context schema_demo) pruned_demo))
  = Some [lit "student_id"; lit "student_id"; lit "grade"].
Proof.
  destruct (@second_injection_prepends_again (parse_context schema_demo)
              pruned_demo (lit "grade") [lit "grade"] eq_refl)
    as (_ & H & _).
  rewrite H. vm_compute. reflexivity.
Defined.

(** ** Raising every similarity by a constant *)

Lemma fold_Qplus_shift (f g : option pystr -> Q) (c : Q)
    (l : list (option pystr)) :
  (forall x, In x l -> (g x == f x + c)%Q) ->
  forall a b,
    (fold_left Qplus (map g l) b
     == fold_left Qplus (map f l) a + (b - a)
        + inject_Z (Z.of_nat (List.length l)) * c)%Q.
Proof.
  induction l as [|x l IH]; intros H a b.
  - cbn [map fold_left List.length].
    change (inject_Z (Z.of_nat 0)) with 0%Q. ring.
  - cbn [map fold_left List.length].
    rewrite (IH (fun y Hy => H y (or_intror Hy)) (a + f x)%Q (b + g x)%Q).
    rewrite Nat2Z.inj_succ, <- Z.add_1_r, inject_Z_plus.
    change (inject_Z 1) with 1%Q.
    rewrite (H x (or_introl eq_refl)). ring.
Qed.

Lemma inject_Z_length_nonzero {A : Type} (l : list A) :
  l <> [] -> ~ (inject_Z (Z.of_nat (List.length l)) == 0)%Q.
Proof.
  intros Hne H. destruct l as [|a l]; [congruence|].
  unfold Qeq in H. simpl in H. lia.
Qed.

(** The threshold rises by 95% of the constant. *)
Lemma lowered_mean_shift (f g : option pystr -> number exact) (c : Q)
    (l : list (option pystr)) :
  l <> [] ->
  (forall x, In x l -> (g x == f x + c)%Q) ->
  (@lower exact
     (@divide exact (@sum exact (map g l))
        (@of_len exact (List.length (map g l))))
   == @lower exact
        (@divide exact (@sum exact (map f l))
           (@of_len exact (List.length (map f l))))
      + c * (95 # 100))%Q.
Proof.
  intros Hne H. unfold lower.
  cbn [sum divide times minus five_percent of_len exact number] in *.
  rewrite !length_map.
  rewrite (@fold_Qplus_shift f g c l H 0%Q 0%Q).
  pose proof (inject_Z_length_nonzero Hne) as Hn.
  field. exact Hn.
Qed.

Lemma keep_columns_incl {A : Arithmetic}
    (sc1 sc2 : option pystr -> number A) (tau1 tau2 : number A)
    (cols : dict column_info) :
  (forall ci, In ci (values cols) ->
     gt (sc1 (col_comment ci)) tau1 = true ->
     gt (sc2 (col_comment ci)) tau2 = true) ->
  incl (keep_columns sc1 tau1 cols) (keep_columns sc2 tau2 cols).
Proof.
  intros H c Hc. unfold keep_columns in *.
  apply in_map_iff in Hc as ([c' ci] & Heq & Hin). simpl in Heq. subst c'.
  apply filter_In in Hin as [Hin Hg]. simpl in Hg.
  apply in_map_iff. exists (c, ci). split; [reflexivity|].
  apply filter_In. split; [assumption|]. simpl. apply H; [|assumption].
  change ci with (snd (c, ci)). now apply in_map.
Qed.

Lemma dict_mem_get {V : Type} k (d : dict V) :
  dict_mem k d = true <-> exists v, dict_get k d = Some v.
Proof.
  unfold dict_mem. destruct (dict_get k d); split; eauto; try discriminate.
  intros [v Hv]. discriminate.
Qed.

(** Step 3 keeps what it kept when every comparison that held still
    holds. *)
Lemma select_tables_mono {A : Arithmetic}
    (sc1 sc2 : option pystr -> number A) (tau1 tau2 : number A)
    (tables_metadata : metadata) :
  NoDup (keys tables_metadata) ->
  (forall text, In text (pooled tables_metadata) ->
     gt (sc1 text) tau1 = true -> gt (sc2 text) tau2 = true) ->
  forall t cols,
    dict_get t (select_tables sc1 tau1 tables_metadata []) = Some cols ->
    exists cols',
      dict_get t (select_tables sc2 tau2 tables_metadata []) = Some cols'
      /\ incl cols cols'.
Proof.
  intros Hnd Hmono t cols Hget.
  destruct (dict_get t tables_metadata) as [ti|] eqn:Hmd.
  - pose proof (dict_get_In _ _ Hmd) as Hin.
    destruct (@pooled_table t ti tables_metadata Hin) as [Ht Hc].
    rewrite (@select_get A sc1 tau1 t ti tables_metadata [] Hnd Hmd) in Hget.
    rewrite (@select_get A sc2 tau2 t ti tables_metadata [] Hnd Hmd).
    simpl in *.
    destruct (gt (sc1 (Some (comment ti))) tau1) eqn:Hg1; [|discriminate].
    rewrite (Hmono _ Ht Hg1).
    assert (Hincl : incl (keep_columns sc1 tau1 (columns ti))
                         (keep_columns sc2 tau2 (columns ti))).
    { apply keep_columns_incl. intros ci Hci. apply Hmono. now apply Hc. }
    destruct (keep_columns sc1 tau1 (columns ti)) as [|c l] eqn:Hk1;
      [discriminate|].
    injection Hget as <-.
    destruct (keep_columns sc2 tau2 (columns ti)) as [|c' l'] eqn:Hk2.
    + destruct (Hincl c). now left.
    + eauto.
  - apply dict_get_None in Hmd.
    rewrite select_get_absent in Hget by assumption. discriminate.
Qed.

Lemma injected_mono tables_metadata survivors1 survivors2 x :
  incl survivors1 survivors2 ->
  incl (injected tables_metadata survivors1 x)
       (injected tables_metadata survivors2 x).
Proof.
  intros Hincl c Hc. apply In_injected in Hc.
  destruct Hc as (t & ti & k & r & Hin & Ht & Hk & Hfk & Hr & Hx).
  apply In_injected. exists t, ti, k, r.
  apply mem_In in Ht, Hr.
  repeat split; try assumption; apply mem_In; auto.
Qed.

Lemma keys_dict_get {V : Type} k (d : dict V) :
  In k (keys d) <-> exists v, dict_get k d = Some v.
Proof.
  rewrite <- dict_mem_get, dict_mem_keys. symmetry. apply mem_In.
Qed.

Lemma threshold_inv {A : Arithmetic} {E : Encoder A}
    question_emb tables_metadata tau :
  threshold question_emb tables_metadata = Ok tau ->
  tables_metadata <> []
  /\ (forall text, In text (pooled tables_metadata) ->
        exists e, encodes text = Ok e).
Proof.
  unfold threshold. rewrite compute_similarities_pooled.
  destruct (mapM (similarity question_emb) (pooled tables_metadata))
    as [all_sim|] eqn:Hm; simpl; [|discriminate].
  intros Hmean. split.
  - intros ->. simpl in Hm. injection Hm as <-. discriminate.
  - intros text Hin. destruct (mapM_inv _ _ Hm _ Hin) as [s Hs].
    unfold similarity in Hs.
    destruct (encodes text); [eauto | discriminate].
Qed.

Lemma threshold_value {A : Arithmetic} {E : Encoder A}
    question_emb tables_metadata :
  tables_metadata <> [] ->
  (forall text, In text (pooled tables_metadata) ->
     exists e, encodes text = Ok e) ->
  threshold question_emb tables_metadata
  = Ok (lower
          (divide (sum (map (sim_of question_emb) (pooled tables_metadata)))
             (of_len
                (List.length
                   (map (sim_of question_emb) (pooled tables_metadata)))))).
Proof.
  intros Hne Hans. unfold threshold.
  rewrite compute_similarities_pooled.
  rewrite (mapM_ok _ (sim_of question_emb))
    by (intros; apply similarity_sim_of; auto).
  simpl. unfold mean.
  destruct (map _ (pooled tables_metadata)) eqn:Hl; [|reflexivity].
  apply map_eq_nil in Hl. now apply pooled_nonempty in Hne.
Qed.




(** ** The top-k preselection *)

Section TopK.
Context {A : Arithmetic}.

Lemma In_insert_desc (x y : nat * number A) l :
  In x (insert_desc y l) <-> x = y \/ In x l.
Proof.
  induction l as [|z l IH]; simpl; [intuition|].
  destruct (le (snd y) (snd z)); simpl; [rewrite IH|]; intuition.
Qed.

Lemma argsort_desc_bound (xs : list (number A)) i :
  In i (argsort_desc xs) -> i < List.length xs.
Proof.
  unfold argsort_desc. intros Hin.
  apply in_map_iff in Hin as ([j v] & Heq & Hin). simpl in Heq. subst j.
  assert (Hc : In (i, v) (combine (seq 0 (List.length xs)) xs)).
  { revert Hin. generalize (combine (seq 0 (List.length xs)) xs).
    induction l as [|p l IH]; simpl; [tauto|].
    rewrite In_insert_desc. intuition. }
  apply in_combine_l, in_seq in Hc. lia.
Qed.

(** For a non-negative [k] the call of [torch.topk] in [get_top_k] is
    accepted and its indices are positions of the list. *)
Lemma torch_topk_ok (xs : list (number A)) k :
  (0 <= k)%Z ->
  exists idx,
    torch_topk xs (Z.min k (Z.of_nat (List.length xs))) = Ok idx
    /\ Forall (fun i => i < List.length xs) idx.
Proof.
  intros Hk. unfold torch_topk.
  replace ((Z.min k (Z.of_nat (List.length xs)) <? 0)%Z
           || (Z.of_nat (List.length xs)
               <? Z.min k (Z.of_nat (List.length xs)))%Z) with false.
  - eexists. split; [reflexivity|].
    apply Forall_forall. intros i Hi.
    apply argsort_desc_bound.
    rewrite <- (firstn_skipn (Z.to_nat (Z.min k (Z.of_nat (List.length xs))))
                  (argsort_desc xs)).
    apply in_or_app. now left.
  - symmetry. apply orb_false_iff. split; apply Z.ltb_ge; lia.
Qed.
End TopK.

Lemma mapM_length {A B : Type} (f : A -> result B) (l : list A) bs :
  mapM f l = Ok bs -> List.length bs = List.length l.
Proof.
  revert bs. induction l as [|a l IH]; simpl; intros bs H.
  - now injection H as <-.
  - destruct (f a); simpl in H; [|discriminate].
    destruct (mapM f l) eqn:Hl; simpl in H; [|discriminate].
    injection H as <-. simpl. f_equal. now apply IH.
Qed.

Lemma collect_results_ok (tables_metadata : metadata) idx acc :
  Forall (fun i => i < List.length (keys tables_metadata)) idx ->
  exists results,
    collect_results tables_metadata (keys tables_metadata) idx acc
    = Ok results.
Proof.
  revert acc. induction idx as [|i idx IH]; intros acc Hall; simpl;
    [eauto|].
  inversion Hall as [|? ? Hi Hidx]; subst.
  unfold list_index.
  destruct (nth_error (keys tables_metadata) i) as [name|] eqn:Hn.
  2:{ apply nth_error_None in Hn. lia. }
  simpl. unfold dict_index.
  destruct (dict_get name tables_metadata) as [ti|] eqn:Hg.
  2:{ apply dict_get_None in Hg. apply nth_error_In in Hn. contradiction. }
  simpl. apply IH. assumption.
Qed.

(** The top-k parameter is an [int]: with [-1], [torch.topk] rejects the
    call, so the two results differ. *)
Lemma negative_k_differs :
  get_top_k (E := lenient_encoder) question_demo
    (Some (parse_context schema_demo)) 5
  <> get_top_k (E := lenient_encoder) question_demo
       (Some (parse_context schema_demo)) (-1).
Proof. vm_compute. discriminate. Qed.

(** C9 (amended): for non-negative values of the top-k parameter the
    result of [get_top_k] does not depend on it: [prune_top_k] never reads
    the preselected [results] and starts again from the whole metadata. *)
Theorem top_k_has_no_effect :
  forall (A : Arithmetic) (E : Encoder A) (question : pystr)
         (tables_metadata : option metadata) (k1 k2 : Z),
    (0 <= k1)%Z -> (0 <= k2)%Z ->
    get_top_k question tables_metadata k1
    = get_top_k question tables_metadata k2.
Proof.
  intros A E question tables_metadata k1 k2 Hk1 Hk2.
  assert (H : forall k, (0 <= k)%Z ->
            get_top_k question tables_metadata k
            = (question_emb <- encodes (Some question) ;;
               md <- match tables_metadata with
                     | Some md => Ok md
                     | None => Raise AttributeError
                     end ;;
               table_embs <-
                 mapM (fun table_info => encodes (Some (comment table_info)))
                      (values md) ;;
               _ <- torch_stack table_embs ;;
               prune_top_k question [] md)).
  { intros k Hk. unfold get_top_k.
    destruct (encodes (Some question)) as [qe|]; simpl; [|reflexivity].
    destruct tables_metadata as [md|]; simpl; [|reflexivity].
    destruct (mapM _ (values md)) as [embs|] eqn:Hm; simpl; [|reflexivity].
    destruct embs as [|e embs]; simpl; [reflexivity|].
    destruct (@torch_topk_ok A (map (cosine_similarity qe) (e :: embs)) k Hk)
      as (idx & Hidx & Hall).
    simpl in Hidx. rewrite Hidx. simpl.
    destruct (@collect_results_ok md idx []) as [results Hres].
    - eapply Forall_impl; [|exact Hall].
      intros i Hi. rewrite length_map in Hi.
      apply mapM_length in Hm. unfold keys, values in *.
      rewrite length_map in *. simpl in *. lia.
    - rewrite Hres. reflexivity. }
  now rewrite (H k1 Hk1), (H k2 Hk2).
Qed.

Lemma top_k_has_no_effect_witness :
  get_top_k (E := lenient_encoder) question_demo
    (Some (parse_context schema_demo)) 1
  = get_top_k (E := lenient_encoder) question_demo
      (Some (parse_context schema_demo)) 5.
Proof.
  apply (@top_k_has_no_effect _ lenient_encoder); lia.
Defined.

(** ** The parser on uncommented tables *)

(** C8: the table [enrolment] is declared without a comment line, and yet
    the parser gives it an entry of its own: the search for the table
    comment starts at the column comment of the table before it and, with
    [re.DOTALL], runs on to the next [CREATE TABLE]. *)
Theorem uncommented_table_gets_entry :
  re_split split_tables_re schema_uncommented = [schema_uncommented]
  /\ re_search table_comment_re schema_uncommented
     = Some [ unlines [ " title of the unit";
                        "    unit_title TEXT";
                        ");" ]%string;
              lit "enrolment" ]
  /\ keys (parse_context schema_uncommented) = [lit "enrolment"]
  /\ prune_top_k (E := lenient_encoder) (lit "title of unit") []
       (parse_context schema_uncommented)
     = Ok (lit "(TABLE: enrolment COLUMNS: unit_title)").
Proof. repeat split; vm_compute; reflexivity. Qed.

(** ** The matcher on runs of a character class *)

Lemma drop_prefix_app (p s : pystr) : drop_prefix p (p ++ s) = Some s.
Proof.
  induction p as [|a p IH]; simpl; [reflexivity|].
  now rewrite Ascii.eqb_refl.
Qed.

Lemma firstn_app_exact {A : Type} (a b : list A) :
  firstn (List.length (a ++ b) - List.length b) (a ++ b) = a.
Proof.
  rewrite length_app.
  replace (List.length a + List.length b - List.length b)
    with (List.length a + 0) by lia.
  rewrite firstn_app_2. simpl. apply app_nil_r.
Qed.

Section Runs.
Variable R : Type.
Variable cls : ascii -> bool.
Variable k : pystr -> option R.

(** A lazy run goes on while the continuation refuses and the class
    accepts. *)
Lemma star_lazy_skip (bad : ascii -> bool) (pre s : pystr) :
  (forall c rest, bad c = true -> k (c :: rest) = None) ->
  forallb bad pre = true ->
  forallb cls pre = true ->
  star_lazy cls k (pre ++ s) = star_lazy cls k s.
Proof.
  intros Hbad. induction pre as [|c pre IH]; intros Hb Hc; [reflexivity|].
  simpl in Hb, Hc.
  apply andb_true_iff in Hb as [Hb1 Hb2].
  apply andb_true_iff in Hc as [Hc1 Hc2].
  change ((c :: pre) ++ s) with (c :: (pre ++ s)).
  cbn [star_lazy]. rewrite (Hbad c _ Hb1), Hc1. auto.
Qed.

Lemma star_lazy_here (s : pystr) r :
  k s = Some r -> star_lazy cls k s = Some r.
Proof. intros H. destruct s; simpl; now rewrite H. Qed.

(** A greedy run takes the whole run when the continuation accepts
    there. *)
Lemma star_greedy_max (pre s : pystr) r :
  forallb cls pre = true ->
  match s with [] => true | c :: _ => negb (cls c) end = true ->
  k s = Some r ->
  star_greedy cls k (pre ++ s) = Some r.
Proof.
  intros Hpre Hs Hk. induction pre as [|c pre IH].
  - simpl. destruct s as [|c s]; simpl; [assumption|].
    apply negb_true_iff in Hs. now rewrite Hs.
  - simpl in Hpre. apply andb_true_iff in Hpre as [Hc Hpre].
    simpl. rewrite Hc, IH by assumption. reflexivity.
Qed.

(** A greedy run fails when the continuation refuses everywhere on it. *)
Lemma star_greedy_none (bad : ascii -> bool) (pre : pystr) c0 s0 :
  (forall c rest, bad c = true -> k (c :: rest) = None) ->
  forallb bad pre = true ->
  bad c0 = true -> cls c0 = false ->
  star_greedy cls k (pre ++ c0 :: s0) = None.
Proof.
  intros Hbad Hpre Hb0 Hc0. induction pre as [|c pre IH].
  - simpl. rewrite Hc0. now apply Hbad.
  - simpl in Hpre. apply andb_true_iff in Hpre as [Hb Hpre].
    simpl. rewrite (IH Hpre), (Hbad c _ Hb). now destruct (cls c).
Qed.
End Runs.

(** ** The two patterns of the table loop *)

Lemma space_not_dash c : is_space c = true -> Ascii.eqb "-" c = false.
Proof.
  destruct c as [[] [] [] [] [] [] [] []]; vm_compute; congruence.
Qed.

Lemma space_not_semicolon c : is_space c = true -> Ascii.eqb c ";" = false.
Proof.
  destruct c as [[] [] [] [] [] [] [] []]; vm_compute; congruence.
Qed.

(** The boundary pattern starts with [;]. *)
Lemma split_tables_re_head c s :
  Ascii.eqb c ";" = false -> match_at split_tables_re (c :: s) = None.
Proof.
  intros H. unfold match_at, split_tables_re.
  cbn [exec lit list_ascii_of_string drop_prefix].
  rewrite Ascii.eqb_sym in H. now rewrite H.
Qed.

(** No boundary at a [;] that is followed, after white space, by a
    [CREATE TABLE] without comment line. *)
Lemma no_boundary_before_uncommented gap rest :
  forallb is_space gap = true ->
  match_at split_tables_re (";"%char :: gap ++ lit "CREATE TABLE" ++ rest)
  = None.
Proof.
  intros Hgap. unfold match_at, split_tables_re.
  cbn [exec lit list_ascii_of_string drop_prefix].
  rewrite Ascii.eqb_refl.
  apply star_greedy_none with (bad := fun c => negb (Ascii.eqb "-" c)).
  - intros c s Hc. apply negb_true_iff in Hc.
    cbn [exec lit list_ascii_of_string drop_prefix]. now rewrite Hc.
  - rewrite forallb_forall in *. intros c Hc.
    apply negb_true_iff, space_not_dash. auto.
  - reflexivity.
  - reflexivity.
Qed.

(** Characters other than [;] go to the current piece. *)
Lemma split_go_no_semicolon (a s cur : pystr) :
  no_char ";" a = true ->
  split_go split_tables_re 0 cur (a ++ s)
  = split_go split_tables_re 0 (rev a ++ cur) s.
Proof.
  revert cur. induction a as [|c a IH]; intros cur Ha; [reflexivity|].
  simpl in Ha. apply andb_true_iff in Ha as [Hc Ha].
  apply negb_true_iff in Hc.
  change ((c :: a) ++ s) with (c :: (a ++ s)).
  cbn [split_go]. rewrite (@split_tables_re_head c (a ++ s) Hc).
  rewrite IH by assumption. simpl. now rewrite <- app_assoc.
Qed.

(** A text without boundary stays in the current piece. *)
Lemma split_go_no_boundary (cur s : pystr) :
  no_boundary s = true ->
  split_go split_tables_re 0 cur s = [rev cur ++ s].
Proof.
  revert cur. induction s as [|c s IH]; intros cur H.
  - simpl. now rewrite app_nil_r.
  - cbn [no_boundary] in H. cbn [split_go].
    destruct (match_at split_tables_re (c :: s)); [discriminate|].
    rewrite IH by assumption. simpl. now rewrite <- app_assoc.
Qed.

Lemma re_search_here (r : regex) (s : pystr) g :
  re_match r s = Some g -> re_search r s = Some g.
Proof. intros H. destruct s; simpl; now rewrite H. Qed.

(** The table pattern on a text that starts with a one-line comment and a
    header: the comment and the name. *)
Lemma table_comment_search (cmt table rest : pystr) :
  no_char LF cmt = true ->
  match table with [] => false | _ :: _ => true end = true ->
  forallb is_word table = true ->
  starts_nonword rest = true ->
  re_search table_comment_re
    (lit "--" ++ cmt ++ [LF] ++ lit "CREATE TABLE " ++ table ++ rest)
  = Some [cmt; table].
Proof.
  intros Hcmt Hne Hword Hrest.
  destruct table as [|w table]; [discriminate|].
  simpl in Hword. apply andb_true_iff in Hword as [Hw Hword].
  assert (Hm : re_match table_comment_re
                 (lit "--" ++ cmt ++ [LF] ++ lit "CREATE TABLE "
                    ++ (w :: table) ++ rest)
               = Some [cmt; w :: table]).
  { unfold re_match, match_at, table_comment_re.
    cbn [exec]. rewrite drop_prefix_app.
    rewrite star_lazy_skip with (bad := not_newline).
    - rewrite (@star_lazy_here _ any_char _ _ ([cmt; w :: table], rest));
        [reflexivity|].
      change ([LF] ++ lit "CREATE TABLE " ++ (w :: table) ++ rest)
        with ((LF :: lit "CREATE TABLE ") ++ (w :: table) ++ rest).
      rewrite drop_prefix_app. cbn [exec app]. rewrite Hw.
      change (w :: table ++ rest) with ([w] ++ table ++ rest).
      rewrite (star_greedy_max is_word _ table rest
                 (r := ([cmt; w :: table], rest))); try assumption.
      + reflexivity.
      + rewrite firstn_app_exact.
        change ([w] ++ table ++ rest) with ((w :: table) ++ rest).
        rewrite firstn_app_exact. reflexivity.
    - intros c s Hc. unfold not_newline in Hc.
      apply negb_true_iff in Hc. rewrite Ascii.eqb_sym in Hc.
      cbn [exec drop_prefix]. now rewrite Hc.
    - exact Hcmt.
    - clear. induction cmt; simpl; auto. }
  now apply re_search_here.
Qed.

(** ** The lines of a text *)

Lemma split_on_nonempty c s : split_on c s <> [].
Proof.
  destruct s as [|a s]; simpl; [discriminate|].
  destruct (Ascii.eqb a c); [discriminate|].
  destruct (split_on c s); discriminate.
Qed.

Lemma split_on_app c a b :
  split_on c (a ++ c :: b) = split_on c a ++ split_on c b.
Proof.
  induction a as [|x a IH]; simpl.
  - now rewrite Ascii.eqb_refl.
  - rewrite IH. destruct (Ascii.eqb x c); [reflexivity|].
    pose proof (split_on_nonempty c a) as Hne.
    destruct (split_on c a); [congruence | reflexivity].
Qed.

Lemma split_on_line c l : no_char c l = true -> split_on c l = [l].
Proof.
  induction l as [|x l IH]; simpl; [reflexivity|].
  intros H. apply andb_true_iff in H as [Hx Hl].
  apply negb_true_iff in Hx. rewrite Hx, IH by assumption. reflexivity.
Qed.

Lemma In_split_on_join c lines l :
  forallb (no_char c) lines = true ->
  In l lines -> In l (split_on c (join [c] lines)).
Proof.
  induction lines as [|p ps IH]; [intros _ []|].
  intros Hall Hin. simpl in Hall. apply andb_true_iff in Hall as [Hp Hps].
  destruct ps as [|q ps].
  - simpl. rewrite split_on_line by assumption.
    destruct Hin as [->|[]]. now left.
  - change (join [c] (p :: q :: ps)) with (p ++ c :: join [c] (q :: ps)).
    rewrite split_on_app, split_on_line by assumption.
    destruct Hin as [->|Hin]; [now left|].
    right. now apply IH.
Qed.

(** A line of the text is one of the lines the parser iterates over. *)
Lemma In_split_on_middle c before lines rest l :
  forallb (no_char c) lines = true ->
  match rest with [] => true | x :: _ => Ascii.eqb x c end = true ->
  In l lines ->
  In l (split_on c (before ++ [c] ++ join [c] lines ++ rest)).
Proof.
  intros Hall Hrest Hin.
  change (before ++ [c] ++ join [c] lines ++ rest)
    with (before ++ c :: (join [c] lines ++ rest)).
  rewrite split_on_app. apply in_or_app. right.
  destruct rest as [|x rest].
  - rewrite app_nil_r. now apply In_split_on_join.
  - apply Ascii.eqb_eq in Hrest. subst x.
    rewrite split_on_app. apply in_or_app. left.
    now apply In_split_on_join.
Qed.

(** ** The line loop *)

Lemma keys_parse_line t st line :
  keys (fst (parse_line t st line)) = keys (fst st).
Proof.
  destruct st as [d cc]. unfold parse_line.
  destruct (classify line); simpl; now rewrite ?keys_adjust.
Qed.

Lemma keys_fold_parse_line t lines st :
  keys (fst (fold_left (parse_line t) lines st)) = keys (fst st).
Proof.
  revert st. induction lines as [|l lines IH]; intros st; simpl;
    [reflexivity|].
  now rewrite IH, keys_parse_line.
Qed.

(** The line loop keeps the table comment and every column the table
    has. *)
Lemma parse_line_keeps t cm c st line :
  (exists ti ci, dict_get t (fst st) = Some ti /\ comment ti = cm
                 /\ dict_get c (columns ti) = Some ci) ->
  exists ti ci, dict_get t (fst (parse_line t st line)) = Some ti
                /\ comment ti = cm
                /\ dict_get c (columns ti) = Some ci.
Proof.
  destruct st as [d cc]. simpl. intros (ti & ci & Ht & Hcm & Hc).
  unfold parse_line.
  destruct (classify line) as [|x|x|n ty|]; simpl; eauto.
  - rewrite dict_get_adjust, str_eqb_refl, Ht. simpl.
    exists (add_constraint x ti), ci. auto.
  - rewrite dict_get_adjust, str_eqb_refl, Ht. simpl.
    destruct (str_eqb c n) eqn:Hcn.
    + eexists. eexists. split; [reflexivity|]. split; [exact Hcm|].
      simpl. rewrite dict_get_set, Hcn. reflexivity.
    + eexists. exists ci. split; [reflexivity|]. split; [exact Hcm|].
      simpl. now rewrite dict_get_set, Hcn.
Qed.

(** A column line gives the table of the segment a column of that name. *)
Lemma parse_line_adds t cm c ty st line :
  classify line = ColumnLine c ty ->
  (exists ti, dict_get t (fst st) = Some ti /\ comment ti = cm) ->
  exists ti ci, dict_get t (fst (parse_line t st line)) = Some ti
                /\ comment ti = cm
                /\ dict_get c (columns ti) = Some ci.
Proof.
  destruct st as [d cc]. simpl. intros Hcl (ti & Ht & Hcm).
  unfold parse_line. rewrite Hcl. simpl.
  rewrite dict_get_adjust, str_eqb_refl, Ht. simpl.
  eexists. eexists. split; [reflexivity|]. split; [exact Hcm|].
  simpl. rewrite dict_get_set, str_eqb_refl. reflexivity.
Qed.

Lemma parse_line_keeps_table t cm st line :
  (exists ti, dict_get t (fst st) = Some ti /\ comment ti = cm) ->
  exists ti, dict_get t (fst (parse_line t st line)) = Some ti
             /\ comment ti = cm.
Proof.
  destruct st as [d cc]. simpl. intros (ti & Ht & Hcm).
  unfold parse_line.
  destruct (classify line) as [|x|x|n ty|]; simpl; eauto;
    rewrite dict_get_adjust, str_eqb_refl, Ht; simpl; eauto.
Qed.

Lemma fold_parse_line_keeps t cm c lines st :
  (exists ti ci, dict_get t (fst st) = Some ti /\ comment ti = cm
                 /\ dict_get c (columns ti) = Some ci) ->
  exists ti ci,
    dict_get t (fst (fold_left (parse_line t) lines st)) = Some ti
    /\ comment ti = cm
    /\ dict_get c (columns ti) = Some ci.
Proof.
  revert st. induction lines as [|l lines IH]; intros st H; simpl;
    [exact H|].
  apply IH. now apply parse_line_keeps.
Qed.

Lemma fold_parse_line_adds t cm c ty lines st line :
  In line lines ->
  classify line = ColumnLine c ty ->
  (exists ti, dict_get t (fst st) = Some ti /\ comment ti = cm) ->
  exists ti ci,
    dict_get t (fst (fold_left (parse_line t) lines st)) = Some ti
    /\ comment ti = cm
    /\ dict_get c (columns ti) = Some ci.
Proof.
  revert st. induction lines as [|l lines IH]; intros st Hin Hcl Ht;
    [destruct Hin|].
  simpl. destruct Hin as [->|Hin].
  - apply fold_parse_line_keeps. eapply parse_line_adds; eauto.
  - apply IH; try assumption. now apply parse_line_keeps_table.
Qed.

(** ** An uncommented table after a commented one *)

Lemma no_char_app x a b : no_char x (a ++ b) = no_char x a && no_char x b.
Proof. apply forallb_app. Qed.

Lemma no_char_join x sep lines :
  no_char x sep = true ->
  forallb (no_char x) lines = true ->
  no_char x (join sep lines) = true.
Proof.
  intros Hsep. induction lines as [|p ps IH]; [reflexivity|].
  intros H. simpl in H. apply andb_true_iff in H as [Hp Hps].
  destruct ps as [|q ps]; [exact Hp|].
  change (join sep (p :: q :: ps)) with (p ++ sep ++ join sep (q :: ps)).
  rewrite !no_char_app, Hp, Hsep, IH by assumption. reflexivity.
Qed.

Lemma word_not_semicolon c : is_word c = true -> Ascii.eqb c ";" = false.
Proof.
  destruct c as [[] [] [] [] [] [] [] []]; vm_compute; congruence.
Qed.

Lemma forallb_impl {A : Type} (p q : A -> bool) (l : list A) :
  (forall x, p x = true -> q x = true) ->
  forallb p l = true -> forallb q l = true.
Proof.
  intros H. rewrite !forallb_forall. auto.
Qed.

Lemma word_not_semicolon_neg c :
  is_word c = true -> negb (Ascii.eqb c ";") = true.
Proof. intros H. now rewrite word_not_semicolon. Qed.

Lemma space_not_semicolon_neg c :
  is_space c = true -> negb (Ascii.eqb c ";") = true.
Proof. intros H. now rewrite space_not_semicolon. Qed.

(** C10: a [CREATE TABLE] statement without comment line after a commented
    table creates no segment boundary: the text stays one segment, the
    parser makes one entry, for the commented table, and every line under
    the uncommented header that the line loop takes for a column line
    gives that entry a column of its name. *)
Theorem uncommented_table_merges :
  forall (s : merged_tables) (line c_name c_type : pystr),
    well_formed s = true ->
    In line (mt_lines s) ->
    classify line = ColumnLine c_name c_type ->
    re_split split_tables_re (render s) = [render s]
    /\ keys (parse_context (render s)) = [mt_table s]
    /\ exists ti ci,
        dict_get (mt_table s) (parse_context (render s)) = Some ti
        /\ comment ti = strip (mt_comment s)
        /\ dict_get c_name (columns ti) = Some ci.
Proof.
  intros [cmt table body gap header lines rest] line c_name c_type Hwf
    Hin Hcl.
  unfold well_formed in Hwf. simpl in Hwf, Hin.
  repeat (apply andb_true_iff in Hwf as [Hwf ?]).
  rename Hwf into HcmtLF.
  match goal with H : no_char ";" cmt = true |- _ => rename H into Hcmt end.
  match goal with H : forallb is_word table = true |- _ =>
    rename H into Hword end.
  match goal with H : starts_nonword body = true |- _ =>
    rename H into Hbody0 end.
  match goal with H : no_char ";" body = true |- _ => rename H into Hbody end.
  match goal with H : forallb is_space gap = true |- _ =>
    rename H into Hgap end.
  match goal with H : no_char LF header = true |- _ =>
    rename H into HhdrLF end.
  match goal with H : no_char ";" header = true |- _ =>
    rename H into Hhdr end.
  match goal with H : forallb _ lines = true |- _ => rename H into Hlines end.
  match goal with H : no_boundary rest = true |- _ => rename H into Hrest end.
  assert (HlinesLF : forallb (no_char LF) lines = true).
  { revert Hlines. apply forallb_impl. intros l Hl.
    now apply andb_true_iff in Hl as [Hl _]. }
  assert (Hlines' : forallb (no_char ";") lines = true).
  { revert Hlines. apply forallb_impl. intros l Hl.
    now apply andb_true_iff in Hl as [_ Hl]. }
  cbn [mt_table mt_comment].
  set (T := render _).
  set (A := lit "--" ++ cmt ++ [LF] ++ lit "CREATE TABLE " ++ table ++ body).
  set (B := gap ++ lit "CREATE TABLE" ++ header ++ [LF] ++ join [LF] lines).
  assert (HT : T = A ++ ";"%char :: B ++ rest).
  { unfold T, A, B, render. cbn [mt_table mt_comment mt_body mt_gap
      mt_header mt_lines mt_rest].
    repeat rewrite <- app_assoc. reflexivity. }
  assert (HT' : T = lit "--" ++ cmt ++ [LF] ++ lit "CREATE TABLE " ++ table
                    ++ body ++ lit ";" ++ gap ++ lit "CREATE TABLE"
                    ++ header ++ [LF] ++ join [LF] lines ++ rest)
    by reflexivity.
  (* no segment boundary *)
  assert (Hsplit : re_split split_tables_re T = [T]).
  { unfold re_split. rewrite HT at 1.
    rewrite split_go_no_semicolon.
    2:{ assert (Htab : no_char ";" table = true)
          by (revert Hword; apply forallb_impl, word_not_semicolon_neg).
        unfold A. rewrite !no_char_app, Hcmt, Hbody, Htab.
        reflexivity. }
    cbn [split_go].
    assert (Hnb : match_at split_tables_re (";"%char :: B ++ rest) = None).
    { unfold B. repeat rewrite <- app_assoc.
      now apply no_boundary_before_uncommented. }
    rewrite Hnb.
    rewrite split_go_no_semicolon.
    2:{ assert (Hgap' : no_char ";" gap = true)
          by (revert Hgap; apply forallb_impl, space_not_semicolon_neg).
        unfold B. rewrite !no_char_app, Hhdr, Hgap'.
        rewrite no_char_join by (assumption || reflexivity).
        reflexivity. }
    rewrite split_go_no_boundary by assumption.
    rewrite HT. f_equal.
    rewrite app_nil_r, rev_app_distr, rev_involutive.
    change (rev (";"%char :: rev A)) with (rev (rev A) ++ [";"%char]).
    rewrite rev_involutive, <- !app_assoc. reflexivity. }
  split; [exact Hsplit|].
  (* the one segment belongs to the commented table *)
  assert (Hsearch : re_search table_comment_re T = Some [cmt; table]).
  { rewrite HT'. apply table_comment_search; try assumption.
    destruct body as [|b body]; [reflexivity | exact Hbody0]. }
  unfold parse_context. rewrite Hsplit. simpl.
  unfold parse_table. rewrite Hsearch.
  split.
  - now rewrite keys_fold_parse_line.
  - eapply fold_parse_line_adds.
    + rewrite HT'.
      replace (lit "--" ++ cmt ++ [LF] ++ lit "CREATE TABLE " ++ table
               ++ body ++ lit ";" ++ gap ++ lit "CREATE TABLE" ++ header
               ++ [LF] ++ join [LF] lines ++ rest)
        with ((A ++ lit ";" ++ gap ++ lit "CREATE TABLE" ++ header)
              ++ [LF] ++ join [LF] lines ++ rest)
        by (unfold A; repeat rewrite <- app_assoc; reflexivity).
      apply In_split_on_middle; eassumption.
    + exact Hcl.
    + simpl. rewrite str_eqb_refl. eexists. split; reflexivity.
Qed.

Lemma uncommented_table_merges_witness :
  keys (parse_context (render merged_demo)) = [lit "student_details"]
  /\ exists ti ci,
      dict_get (lit "student_details") (parse_context (render merged_demo))
        = Some ti
      /\ dict_get (lit "grade") (columns ti) = Some ci.
Proof.
  destruct (@uncommented_table_merges merged_demo (lit "    grade REAL")
              (lit "grade") (lit "REAL"))
    as (_ & Hkeys & ti & ci & Hti & _ & Hci).
  - vm_compute. reflexivity.
  - simpl. right. right. left. reflexivity.
  - vm_compute. reflexivity.
  - split; [exact Hkeys|]. exists ti, ci. split; assumption.
Defined.

(** ** Schema texts made of commented tables *)

(** A boundary at a [;] that is followed, after white space, by a comment
    line and a [CREATE TABLE]. *)
Lemma boundary_before_commented gap cmt rest :
  forallb is_space gap = true ->
  no_char LF cmt = true ->
  match_at split_tables_re
    (";"%char :: gap ++ lit "--" ++ cmt ++ [LF] ++ lit "CREATE TABLE" ++ rest)
  = Some ([], lit "--" ++ cmt ++ [LF] ++ lit "CREATE TABLE" ++ rest).
Proof.
  intros Hgap Hcmt. unfold match_at, split_tables_re.
  cbn [exec lit list_ascii_of_string drop_prefix].
  rewrite Ascii.eqb_refl.
  apply star_greedy_max; [assumption | reflexivity |].
  cbn [app drop_prefix]. rewrite !Ascii.eqb_refl.
  rewrite star_lazy_skip with (bad := not_newline).
  - erewrite star_lazy_here; [reflexivity|].
    cbn [app drop_prefix]. rewrite !Ascii.eqb_refl. reflexivity.
  - intros c s Hc. unfold not_newline in Hc.
    apply negb_true_iff in Hc. rewrite Ascii.eqb_sym in Hc.
    cbn [drop_prefix]. now rewrite Hc.
  - exact Hcmt.
  - exact Hcmt.
Qed.

Lemma star_greedy_none_end (R : Type) (cls bad : ascii -> bool)
    (k : pystr -> option R) (pre : pystr) :
  (forall c rest, bad c = true -> k (c :: rest) = None) ->
  k [] = None ->
  forallb bad pre = true ->
  star_greedy cls k pre = None.
Proof.
  intros Hbad Hnil Hpre. induction pre as [|c pre IH]; [exact Hnil|].
  simpl in Hpre. apply andb_true_iff in Hpre as [Hb Hpre].
  simpl. rewrite (IH Hpre), (Hbad c _ Hb). now destruct (cls c).
Qed.

(** No boundary at a [;] that only white space follows. *)
Lemma no_boundary_at_end gap :
  forallb is_space gap = true ->
  match_at split_tables_re (";"%char :: gap) = None.
Proof.
  intros Hgap. unfold match_at, split_tables_re.
  cbn [exec lit list_ascii_of_string drop_prefix].
  rewrite Ascii.eqb_refl.
  apply star_greedy_none_end with (bad := fun c => negb (Ascii.eqb "-" c)).
  - intros c s Hc. apply negb_true_iff in Hc.
    cbn [exec lit list_ascii_of_string drop_prefix]. now rewrite Hc.
  - reflexivity.
  - rewrite forallb_forall in *. intros c Hc.
    apply negb_true_iff, space_not_dash. auto.
Qed.

(** The characters of a match are consumed without a look. *)
Lemma split_go_skip (r : regex) (gap cur s : pystr) :
  split_go r (List.length gap) cur (gap ++ s) = split_go r 0 cur s.
Proof.
  induction gap as [|c gap IH]; [reflexivity|]. simpl. exact IH.
Qed.

Lemma well_formed_table_head b :
  well_formed_table b = true -> no_char ";" (render_head b) = true.
Proof.
  unfold well_formed_table. intros H.
  repeat (apply andb_true_iff in H as [H ?]).
  unfold render_head. rewrite !no_char_app.
  assert (Htab : no_char ";" (ct_name b) = true).
  { match goal with Hw : forallb is_word _ = true |- _ => revert Hw end.
    apply forallb_impl, word_not_semicolon_neg. }
  rewrite Htab.
  repeat match goal with Hx : no_char ";" _ = true |- _ =>
    rewrite Hx; clear Hx end.
  reflexivity.
Qed.

(** [re.split] cuts a text of commented tables at the [;] of every
    statement but the last. *)
Lemma split_go_segments bs :
  forallb well_formed_table bs = true ->
  forall cur,
    split_go split_tables_re 0 cur (render_schema bs)
    = match segments bs with
      | p :: ps => (rev cur ++ p) :: ps
      | [] => [rev cur]
      end.
Proof.
  induction bs as [|b bs IH]; intros Hwf cur.
  - simpl. now rewrite app_nil_r.
  - simpl in Hwf. apply andb_true_iff in Hwf as [Hb Hbs].
    pose proof (well_formed_table_head _ Hb) as Hhead.
    assert (Hgap : forallb is_space (ct_gap b) = true).
    { unfold well_formed_table in Hb.
      now apply andb_true_iff in Hb as [_ Hb]. }
    assert (Hgap' : no_char ";" (ct_gap b) = true)
      by (revert Hgap; apply forallb_impl, space_not_semicolon_neg).
    unfold render_schema. cbn [map List.concat].
    fold (render_schema bs). unfold render_table at 1.
    replace ((render_head b ++ lit ";" ++ ct_gap b) ++ render_schema bs)
      with (render_head b ++ ";"%char :: ct_gap b ++ render_schema bs)
      by (rewrite <- !app_assoc; reflexivity).
    rewrite split_go_no_semicolon by assumption.
    cbn [split_go].
    destruct bs as [|b' bs'].
    + cbn [render_schema map List.concat]. rewrite app_nil_r.
      rewrite (no_boundary_at_end _ Hgap).
      rewrite <- (app_nil_r (ct_gap b)) at 1.
      rewrite split_go_no_semicolon by assumption.
      cbn [split_go segments]. f_equal.
      rewrite !rev_app_distr, !rev_involutive. cbn [rev app].
      rewrite rev_app_distr, rev_involutive. unfold render_table.
      rewrite <- !app_assoc. reflexivity.
    + specialize (IH Hbs []).
      simpl in Hbs. apply andb_true_iff in Hbs as [Hb' _].
      assert (Hcmt' : no_char LF (ct_comment b') = true).
      { unfold well_formed_table in Hb'.
        repeat (apply andb_true_iff in Hb' as [Hb' _]). exact Hb'. }
      set (R := render_schema (b' :: bs')) in *.
      assert (HR : R = lit "--" ++ ct_comment b' ++ [LF]
                       ++ lit "CREATE TABLE"
                       ++ (" "%char :: ct_name b' ++ ct_body b' ++ lit ";"
                           ++ ct_gap b' ++ render_schema bs')).
      { unfold R, render_schema. cbn [map List.concat].
        unfold render_table, render_head.
        rewrite <- !app_assoc. reflexivity. }
      assert (Hm : match_at split_tables_re (";"%char :: ct_gap b ++ R)
                   = Some ([], R)).
      { rewrite HR. now apply boundary_before_commented. }
      rewrite Hm.
      replace (List.length (";"%char :: ct_gap b ++ R) - List.length R)
        with (S (List.length (ct_gap b)))
        by (cbn [List.length]; rewrite length_app; lia).
      rewrite split_go_skip, IH.
      rewrite rev_app_distr, rev_involutive.
      destruct bs'; reflexivity.
Qed.

Lemma keys_parse_table d seg cmt name g :
  re_search table_comment_re seg = Some (cmt :: name :: g) ->
  keys (parse_table d seg)
  = if dict_mem name d then keys d else keys d ++ [name].
Proof.
  intros H. unfold parse_table. rewrite H.
  rewrite keys_fold_parse_line. simpl.
  destruct (dict_mem name d) eqn:Hm.
  - now apply keys_set_present.
  - now apply keys_set_absent.
Qed.

Lemma well_formed_table_search b tail :
  well_formed_table b = true ->
  match tail with [] => true | c :: _ => negb (is_word c) end = true ->
  re_search table_comment_re (render_head b ++ tail)
  = Some [ct_comment b; ct_name b].
Proof.
  unfold well_formed_table. intros H Htail.
  repeat (apply andb_true_iff in H as [H ?]).
  unfold render_head. rewrite <- !app_assoc.
  apply table_comment_search; try assumption.
  destruct (ct_body b); [exact Htail | assumption].
Qed.

Lemma keys_parse_segments bs :
  forallb well_formed_table bs = true ->
  forall d,
    NoDup (keys d ++ map ct_name bs) ->
    keys (fold_left parse_table (segments bs) d)
    = keys d ++ map ct_name bs.
Proof.
  induction bs as [|b bs IH]; intros Hwf d Hnd.
  - simpl. now rewrite app_nil_r.
  - simpl in Hwf. apply andb_true_iff in Hwf as [Hb Hbs].
    assert (Hfresh : dict_mem (ct_name b) d = false).
    { rewrite dict_mem_keys. destruct (mem _ _) eqn:Hm; [|reflexivity].
      apply mem_In in Hm. simpl in Hnd.
      apply NoDup_remove_2 in Hnd. exfalso. apply Hnd.
      apply in_or_app. now left. }
    assert (Hstep : forall tail,
              match tail with [] => true | c :: _ => negb (is_word c) end
              = true ->
              keys (parse_table d (render_head b ++ tail))
              = keys d ++ [ct_name b]).
    { intros tail Htail.
      rewrite (@keys_parse_table d _ _ _ _
                 (@well_formed_table_search b tail Hb Htail)).
      now rewrite Hfresh. }
    destruct bs as [|b' bs'].
    + cbn [segments fold_left map]. unfold render_table.
      now apply Hstep.
    + cbn [segments fold_left].
      fold (segments (b' :: bs')).
      rewrite <- (app_nil_r (render_head b)).
      rewrite IH; try assumption.
      * rewrite Hstep by reflexivity. now rewrite <- app_assoc.
      * rewrite Hstep by reflexivity. rewrite <- app_assoc. exact Hnd.
Qed.

(** A text of [N] commented tables with distinct names is cut into its
    statements and parsed into [N] entries, one per table, in order. *)
Lemma commented_tables_entries (bs : list commented_table) :
  forallb well_formed_table bs = true ->
  uniq (map ct_name bs) = true ->
  re_split split_tables_re (render_schema bs) = segments bs
  /\ keys (parse_context (render_schema bs)) = map ct_name bs
  /\ List.length (parse_context (render_schema bs)) = List.length bs.
Proof.
  intros Hwf Huniq.
  assert (Hsplit : re_split split_tables_re (render_schema bs) = segments bs).
  { unfold re_split. rewrite split_go_segments by assumption.
    destruct (segments bs) eqn:Hs; [|reflexivity].
    destruct bs as [|b [|b' bs']]; discriminate. }
  assert (Hkeys : keys (parse_context (render_schema bs)) = map ct_name bs).
  { unfold parse_context. rewrite Hsplit.
    rewrite keys_parse_segments; [reflexivity | assumption |].
    simpl. now apply uniq_NoDup. }
  repeat split; try assumption.
  apply (f_equal (@List.length pystr)) in Hkeys.
  unfold keys in Hkeys. now rewrite !length_map in Hkeys.
Qed.

Example commented_tables_entries_demo :
  keys (parse_context (render_schema tables_demo))
  = [lit "student_details"; lit "grade"].
Proof.
  now destruct (@commented_tables_entries tables_demo eq_refl eq_refl)
    as (_ & H & _).
Qed.

(** * Further properties of the parser *)

Lemma dict_adjust_set {V : Type} k (f : V -> V) v (d : dict V) :
  dict_adjust k f (dict_set k v d) = dict_set k (f v) d.
Proof.
  induction d as [|[k' v'] d IH]; simpl.
  - now rewrite str_eqb_refl.
  - destruct (str_eqb k k') eqn:Hk; simpl; rewrite Hk; [reflexivity|].
    now rewrite IH.
Qed.

(** The line loop on a dictionary is the line loop on the entry of the
    segment's table. *)
Lemma fold_parse_line_entry t lines d ti cc :
  fold_left (parse_line t) lines (dict_set t ti d, cc)
  = (dict_set t (fst (fold_left line_effect lines (ti, cc))) d,
     snd (fold_left line_effect lines (ti, cc))).
Proof.
  revert ti cc. induction lines as [|l lines IH]; intros ti cc;
    [reflexivity|].
  cbn [fold_left]. unfold parse_line at 2, line_effect at 2 4.
  destruct (classify l); rewrite ?dict_adjust_set; apply IH.
Qed.

(** A segment with a table comment is one assignment to the dictionary. *)
Lemma parse_table_assigns d seg cmt t g :
  re_search table_comment_re seg = Some (cmt :: t :: g) ->
  parse_table d seg = dict_set t (segment_entry cmt seg) d.
Proof.
  intros H. unfold parse_table, segment_entry. rewrite H.
  now rewrite fold_parse_line_entry.
Qed.

Lemma parse_table_skips d seg :
  re_search table_comment_re seg = None -> parse_table d seg = d.
Proof. intros H. unfold parse_table. now rewrite H. Qed.

(** ** The parsed metadata is a dictionary of dictionaries *)

Lemma NoDup_keys_set {V : Type} k (v : V) (d : dict V) :
  NoDup (keys d) -> NoDup (keys (dict_set k v d)).
Proof.
  intros Hnd. destruct (dict_mem k d) eqn:Hm.
  - now rewrite keys_set_present.
  - rewrite keys_set_absent by assumption.
    apply NoDup_app; [assumption | repeat constructor; tauto |].
    intros y Hy [<-|[]]. rewrite dict_mem_keys in Hm.
    apply mem_In in Hy. congruence.
Qed.

Lemma In_values_set {V : Type} k (v x : V) (d : dict V) :
  In x (values (dict_set k v d)) -> x = v \/ In x (values d).
Proof.
  induction d as [|[k' v'] d IH]; simpl.
  - intros [<-|[]]. now left.
  - destruct (str_eqb k k'); simpl.
    + intros [<-|H]; auto.
    + intros [<-|H]; auto. destruct (IH H); auto.
Qed.

Lemma line_effect_columns st line :
  NoDup (keys (columns (fst st))) ->
  NoDup (keys (columns (fst (line_effect st line)))).
Proof.
  destruct st as [ti cc]. unfold line_effect.
  destruct (classify line); simpl; auto using NoDup_keys_set.
Qed.

Lemma segment_entry_columns cmt text :
  NoDup (keys (columns (segment_entry cmt text))).
Proof.
  unfold segment_entry.
  assert (H : forall lines st,
            NoDup (keys (columns (fst st))) ->
            NoDup (keys (columns (fst (fold_left line_effect lines st))))).
  { induction lines as [|l lines IH]; intros st Hst; [exact Hst|].
    simpl. apply IH. now apply line_effect_columns. }
  apply H. constructor.
Qed.

Lemma is_metadata_iff (d : metadata) :
  is_metadata d = true
  <-> NoDup (keys d)
      /\ forall ti, In ti (values d) -> NoDup (keys (columns ti)).
Proof.
  unfold is_metadata.
  rewrite andb_true_iff, uniq_NoDup, forallb_forall.
  split; intros [H1 H2]; (split; [exact H1|]); intros ti Hti;
    apply uniq_NoDup; auto.
Qed.

Lemma parse_table_is_metadata d seg :
  is_metadata d = true -> is_metadata (parse_table d seg) = true.
Proof.
  intros Hd.
  destruct (re_search table_comment_re seg) as [[|cmt [|t g]]|] eqn:Hs;
    try (unfold parse_table; rewrite Hs; exact Hd).
  rewrite (parse_table_assigns d _ Hs).
  apply is_metadata_iff in Hd as [Hk Hc]. apply is_metadata_iff. split.
  - now apply NoDup_keys_set.
  - intros ti Hti. apply In_values_set in Hti as [->|Hti]; [|auto].
    apply segment_entry_columns.
Qed.

(** X1: whatever the text, the parsed metadata has pairwise distinct
    table names and, in each table, pairwise distinct column names. *)
Theorem parse_context_is_metadata :
  forall context : pystr, is_metadata (parse_context context) = true.
Proof.
  intros context. unfold parse_context.
  assert (H : forall segs d, is_metadata d = true ->
            is_metadata (fold_left parse_table segs d) = true).
  { induction segs as [|seg segs IH]; intros d Hd; [exact Hd|].
    simpl. apply IH. now apply parse_table_is_metadata. }
  apply H. reflexivity.
Qed.

(** X3: a segment touches the entry of its own table only, and a table
    declared again is built anew: its entry does not depend on what the
    dictionary held before.  The table keeps or takes its place among
    the keys. *)
Theorem parse_table_is_local :
  forall (d : metadata) (seg cmt t : pystr) (g : list pystr),
    re_search table_comment_re seg = Some (cmt :: t :: g) ->
    dict_get t (parse_table d seg) = dict_get t (parse_table [] seg)
    /\ (forall x, x <> t -> dict_get x (parse_table d seg) = dict_get x d)
    /\ keys (parse_table d seg)
       = if dict_mem t d then keys d else keys d ++ [t].
Proof.
  intros d seg cmt t g Hs.
  rewrite !(parse_table_assigns _ _ Hs). split; [|split].
  - rewrite !dict_get_set, str_eqb_refl. reflexivity.
  - intros x Hx. rewrite dict_get_set.
    apply str_eqb_neq in Hx. now rewrite Hx.
  - destruct (dict_mem t d) eqn:Hm.
    + now apply keys_set_present.
    + now apply keys_set_absent.
Qed.

(** ** A text without comment marker *)

Lemma contains_suffix sub (p u : pystr) :
  contains sub (p ++ u) = false -> startswith sub u = false.
Proof.
  induction p as [|c p IH]; simpl.
  - destruct u; simpl; intros H; now apply orb_false_iff in H as [H _].
  - intros H. apply orb_false_iff in H as [_ H]. auto.
Qed.

Lemma startswith_drop_prefix sub s :
  startswith sub s = false -> drop_prefix sub s = None.
Proof. unfold startswith. now destruct (drop_prefix sub s). Qed.

Lemma star_greedy_all_fail (R : Type) (cls : ascii -> bool)
    (k : pystr -> option R) (s : pystr) :
  (forall p u, s = p ++ u -> k u = None) ->
  star_greedy cls k s = None.
Proof.
  induction s as [|c s IH]; intros H.
  - simpl. now apply (H [] []).
  - simpl. rewrite IH.
    + rewrite (H [] (c :: s) eq_refl). now destruct (cls c).
    + intros p u ->. now apply (H (c :: p) u).
Qed.

Lemma no_marker_no_match s :
  contains (lit "--") s = false ->
  match_at split_tables_re s = None.
Proof.
  intros H. unfold match_at, split_tables_re. cbn [exec].
  destruct (drop_prefix (lit ";") s) as [s'|] eqn:Hs; [|reflexivity].
  apply star_greedy_all_fail. intros p u ->.
  cbn [exec].
  assert (Hu : drop_prefix (lit "--") u = None).
  { apply startswith_drop_prefix.
    destruct s as [|c s]; [discriminate|].
    cbn [lit list_ascii_of_string drop_prefix] in Hs.
    destruct (Ascii.eqb ";" c); [|discriminate].
    injection Hs as Hs. subst s.
    apply (contains_suffix (lit "--") (c :: p)). exact H. }
  now rewrite Hu.
Qed.

Lemma contains_tail sub c s :
  contains sub (c :: s) = false -> contains sub s = false.
Proof. simpl. intros H. now apply orb_false_iff in H as [_ H]. Qed.

Lemma no_marker_no_boundary s :
  contains (lit "--") s = false -> no_boundary s = true.
Proof.
  induction s as [|c s IH]; intros H.
  - reflexivity.
  - cbn [no_boundary]. rewrite (no_marker_no_match _ H).
    apply IH. exact (contains_tail _ _ _ H).
Qed.

Lemma no_marker_no_table s :
  contains (lit "--") s = false ->
  re_search table_comment_re s = None.
Proof.
  assert (Hm : forall u, startswith (lit "--") u = false ->
                         re_match table_comment_re u = None).
  { intros u Hu. unfold re_match, match_at, table_comment_re. cbn [exec].
    now rewrite (startswith_drop_prefix _ _ Hu). }
  induction s as [|c s IH]; intros H.
  - reflexivity.
  - cbn [re_search]. rewrite Hm.
    + apply IH. exact (contains_tail _ _ _ H).
    + exact (contains_suffix (lit "--") [] (c :: s) H).
Qed.

(** X2: a schema text without the comment marker [--] yields the empty
    metadata model, whatever tables it declares. *)
Theorem parse_context_without_comments :
  forall context : pystr,
    contains (lit "--") context = false ->
    parse_context context = [].
Proof.
  intros context H. unfold parse_context, re_split.
  rewrite split_go_no_boundary by now apply no_marker_no_boundary.
  simpl. apply parse_table_skips. now apply no_marker_no_table.
Qed.

(** ** What a segment records *)

Lemma fold_line_effect_comment lines st :
  comment (fst (fold_left line_effect lines st)) = comment (fst st).
Proof.
  revert st. induction lines as [|l lines IH]; intros [ti cc];
    [reflexivity|].
  cbn [fold_left]. rewrite IH. unfold line_effect.
  destruct (classify l); reflexivity.
Qed.

Lemma fold_line_effect_constraints lines st :
  constraints (fst (fold_left line_effect lines st))
  = constraints (fst st) ++ constraint_lines lines.
Proof.
  revert st. induction lines as [|l lines IH]; intros [ti cc].
  - simpl. now rewrite app_nil_r.
  - cbn [fold_left]. rewrite IH. unfold line_effect, constraint_lines.
    cbn [flat_map]. destruct (classify l); simpl;
      rewrite <- ?app_assoc; reflexivity.
Qed.

Lemma In_keys_set {V : Type} x k (v : V) (d : dict V) :
  In x (keys (dict_set k v d)) <-> x = k \/ In x (keys d).
Proof.
  rewrite !keys_dict_get. rewrite dict_get_set.
  destruct (str_eqb x k) eqn:Hx.
  - apply str_eqb_eq in Hx. subst. split; eauto.
  - apply str_eqb_neq in Hx. split; [eauto|]. intros [?|?]; tauto.
Qed.

Lemma fold_line_effect_columns lines st c :
  In c (keys (columns (fst (fold_left line_effect lines st))))
  <-> In c (keys (columns (fst st))) \/ In c (column_lines lines).
Proof.
  revert st. induction lines as [|l lines IH]; intros [ti cc].
  - simpl. tauto.
  - cbn [fold_left]. rewrite IH. unfold line_effect, column_lines.
    cbn [flat_map]. rewrite in_app_iff.
    destruct (classify l); simpl; rewrite ?In_keys_set;
      intuition congruence.
Qed.

(** X4: the entry a segment makes for its table holds the stripped table
    comment, the constraint lines of the segment in their order and
    nothing else as constraints, and a column for exactly the names that
    the column lines of the segment declare. *)
Theorem segment_records_its_lines :
  forall (d : metadata) (seg cmt t : pystr) (g : list pystr),
    re_search table_comment_re seg = Some (cmt :: t :: g) ->
    exists ti,
      dict_get t (parse_table d seg) = Some ti
      /\ comment ti = strip cmt
      /\ constraints ti = constraint_lines (split_on LF seg)
      /\ forall c, In c (keys (columns ti))
                   <-> In c (column_lines (split_on LF seg)).
Proof.
  intros d seg cmt t g Hs.
  rewrite (parse_table_assigns d _ Hs), dict_get_set, str_eqb_refl.
  eexists. split; [reflexivity|]. unfold segment_entry.
  rewrite fold_line_effect_comment, fold_line_effect_constraints.
  repeat split; try reflexivity;
    rewrite fold_line_effect_columns; simpl; tauto.
Qed.

(** ** Which comment a column gets *)

Lemma fold_line_effect_pending mid ti cc :
  forallb keeps_comment mid = true ->
  snd (fold_left line_effect mid (ti, cc)) = cc.
Proof.
  revert ti. induction mid as [|l mid IH]; intros ti H; [reflexivity|].
  simpl in H. apply andb_true_iff in H as [Hl Hmid].
  cbn [fold_left]. unfold line_effect at 2. unfold keeps_comment in Hl.
  destruct (classify l); try discriminate; now apply IH.
Qed.

Lemma fold_line_effect_undeclared post n st :
  forallb (fun l => negb (declares n l)) post = true ->
  dict_get n (columns (fst (fold_left line_effect post st)))
  = dict_get n (columns (fst st)).
Proof.
  revert st. induction post as [|l post IH]; intros [ti cc] H;
    [reflexivity|].
  simpl in H. apply andb_true_iff in H as [Hl Hpost].
  cbn [fold_left]. rewrite IH by assumption.
  unfold line_effect. unfold declares in Hl.
  destruct (classify l); try reflexivity.
  simpl. rewrite dict_get_set.
  apply negb_true_iff in Hl. rewrite str_eqb_sym in Hl. now rewrite Hl.
Qed.

(** The column that a column line declares, with the pending comment
    [cc], when no later line declares the name again. *)
Lemma column_after_pending before mid lcol post st0 cc n ty :
  snd (fold_left line_effect before st0) = cc ->
  forallb keeps_comment mid = true ->
  classify lcol = ColumnLine n ty ->
  forallb (fun l => negb (declares n l)) post = true ->
  dict_get n
    (columns (fst (fold_left line_effect
                     (before ++ mid ++ [lcol] ++ post) st0)))
  = Some {| col_type := ty; col_comment := cc |}.
Proof.
  intros Hbefore Hmid Hcol Hpost.
  rewrite !fold_left_app.
  rewrite fold_line_effect_undeclared by assumption.
  destruct (fold_left line_effect before st0) as [ti0 cc0].
  simpl in Hbefore. subst cc0.
  pose proof (fold_line_effect_pending mid ti0 cc Hmid) as Hp.
  destruct (fold_left line_effect mid (ti0, cc)) as [ti1 cc1].
  simpl in Hp. subst cc1.
  cbn [fold_left]. unfold line_effect. rewrite Hcol. simpl.
  now rewrite dict_get_set, str_eqb_refl.
Qed.

(** X5: a column line gets the comment of the nearest comment line above
    it when only lines that are neither comments nor columns lie between,
    provided no later line declares the column again; the comment line of
    the table itself counts. *)
Theorem column_gets_comment_above :
  forall (d : metadata) (seg cmt t : pystr) (g : list pystr)
         (before mid post : list pystr) (lc lcol c n ty : pystr),
    re_search table_comment_re seg = Some (cmt :: t :: g) ->
    split_on LF seg = before ++ [lc] ++ mid ++ [lcol] ++ post ->
    classify lc = CommentLine c ->
    forallb keeps_comment mid = true ->
    classify lcol = ColumnLine n ty ->
    forallb (fun l => negb (declares n l)) post = true ->
    exists ti,
      dict_get t (parse_table d seg) = Some ti
      /\ dict_get n (columns ti)
         = Some {| col_type := ty; col_comment := Some c |}.
Proof.
  intros d seg cmt t g before mid post lc lcol c n ty Hs Hlines Hc Hmid
    Hcol Hpost.
  rewrite (parse_table_assigns d _ Hs), dict_get_set, str_eqb_refl.
  eexists. split; [reflexivity|]. unfold segment_entry. rewrite Hlines.
  replace (before ++ [lc] ++ mid ++ [lcol] ++ post)
    with ((before ++ [lc]) ++ mid ++ [lcol] ++ post)
    by now rewrite <- app_assoc.
  apply column_after_pending; try assumption.
  rewrite fold_left_app.
  destruct (fold_left line_effect before _) as [ti0 cc0].
  cbn [fold_left]. unfold line_effect. now rewrite Hc.
Qed.

(** X6: a column line right after another column line (only lines that
    are neither comments nor columns between them) gets no comment: the
    comment above was used up by the first. *)
Theorem column_after_column_has_no_comment :
  forall (d : metadata) (seg cmt t : pystr) (g : list pystr)
         (before mid post : list pystr) (lprev lcol n0 ty0 n ty : pystr),
    re_search table_comment_re seg = Some (cmt :: t :: g) ->
    split_on LF seg = before ++ [lprev] ++ mid ++ [lcol] ++ post ->
    classify lprev = ColumnLine n0 ty0 ->
    forallb keeps_comment mid = true ->
    classify lcol = ColumnLine n ty ->
    forallb (fun l => negb (declares n l)) post = true ->
    exists ti,
      dict_get t (parse_table d seg) = Some ti
      /\ dict_get n (columns ti)
         = Some {| col_type := ty; col_comment := None |}.
Proof.
  intros d seg cmt t g before mid post lprev lcol n0 ty0 n ty Hs Hlines
    Hprev Hmid Hcol Hpost.
  rewrite (parse_table_assigns d _ Hs), dict_get_set, str_eqb_refl.
  eexists. split; [reflexivity|]. unfold segment_entry. rewrite Hlines.
  replace (before ++ [lprev] ++ mid ++ [lcol] ++ post)
    with ((before ++ [lprev]) ++ mid ++ [lcol] ++ post)
    by now rewrite <- app_assoc.
  apply column_after_pending; try assumption.
  rewrite fold_left_app.
  destruct (fold_left line_effect before _) as [ti0 cc0].
  cbn [fold_left]. unfold line_effect. now rewrite Hprev.
Qed.

(** ** A foreign-key line, from the text to the extractor *)

Lemma drop_while_app_stop p (a b : pystr) z :
  p z = false -> drop_while p (a ++ z :: b) = drop_while p a ++ z :: b.
Proof.
  intros Hz. induction a as [|c a IH]; simpl.
  - now rewrite Hz.
  - destruct (p c); [exact IH | reflexivity].
Qed.

Lemma drop_while_all p (a b : pystr) :
  forallb p a = true -> drop_while p (a ++ b) = drop_while p b.
Proof.
  induction a as [|c a IH]; simpl; [reflexivity|].
  intros H. apply andb_true_iff in H as [Hc Ha]. rewrite Hc. auto.
Qed.

Lemma rstrip_chars_app p (core tail : pystr) z :
  p z = false ->
  rstrip_chars p (core ++ z :: tail) = core ++ z :: rstrip_chars p tail.
Proof.
  intros Hz. unfold rstrip_chars.
  rewrite rev_app_distr. cbn [rev]. rewrite <- app_assoc. cbn [app].
  rewrite drop_while_app_stop by assumption.
  rewrite rev_app_distr. cbn [rev].
  rewrite rev_involutive, <- app_assoc. reflexivity.
Qed.

Lemma drop_while_suffix p (l : pystr) :
  exists a, l = a ++ drop_while p l.
Proof.
  induction l as [|c l (a & IH)]; simpl.
  - now exists [].
  - destruct (p c).
    + exists (c :: a). simpl. now f_equal.
    + now exists [].
Qed.

Lemma rstrip_chars_prefix p (s : pystr) :
  exists r, s = rstrip_chars p s ++ r.
Proof.
  unfold rstrip_chars.
  destruct (drop_while_suffix p (rev s)) as (a & Ha).
  exists (rev a).
  rewrite <- rev_app_distr, <- Ha. now rewrite rev_involutive.
Qed.

Lemma starts_nonword_rstrip p (s : pystr) :
  starts_nonword s = true -> starts_nonword (rstrip_chars p s) = true.
Proof.
  intros H. destruct (rstrip_chars_prefix p s) as (r & Hr).
  destruct (rstrip_chars p s) as [|c l]; [reflexivity|].
  rewrite Hr in H. exact H.
Qed.

(** Stripping a text whose core starts and ends outside the class. *)
Lemma strip_chars_core p (indent core tail : pystr) a z :
  forallb p indent = true ->
  p a = false -> p z = false ->
  strip_chars p (indent ++ (a :: core ++ [z]) ++ tail)
  = (a :: core ++ [z]) ++ rstrip_chars p tail.
Proof.
  intros Hi Ha Hz. unfold strip_chars.
  rewrite drop_while_all by assumption.
  cbn [app drop_while]. rewrite Ha.
  fold (rstrip_chars p (a :: (core ++ [z]) ++ tail)).
  replace (a :: (core ++ [z]) ++ tail) with ((a :: core) ++ z :: tail)
    by (simpl; now rewrite <- app_assoc).
  rewrite rstrip_chars_app by assumption.
  simpl. now rewrite <- app_assoc.
Qed.

Lemma word_not_space c : is_word c = true -> is_space c = false.
Proof.
  destruct c as [[] [] [] [] [] [] [] []]; vm_compute; congruence.
Qed.

Lemma word_not_comma c : is_word c = true -> is_char "," c = false.
Proof.
  destruct c as [[] [] [] [] [] [] [] []]; vm_compute; congruence.
Qed.

Lemma nonempty_last {A : Type} (l : list A) :
  l <> [] -> exists l' z, l = l' ++ [z].
Proof.
  intros H. destruct (exists_last H) as (l' & z & ->). eauto.
Qed.

(** The foreign-key pattern on a declaration: the column text and the
    table. *)
Lemma foreign_key_match x y tail :
  x <> [] -> forallb not_rparen x = true ->
  y <> [] -> forallb is_word y = true ->
  starts_nonword tail = true ->
  re_match foreign_key_re
    (lit "FOREIGN KEY (" ++ x ++ lit ") REFERENCES " ++ y ++ tail)
  = Some [x; y].
Proof.
  intros Hx Hxp Hy Hyw Htail.
  destruct x as [|x0 x]; [congruence|].
  destruct y as [|y0 y]; [congruence|].
  simpl in Hxp, Hyw.
  apply andb_true_iff in Hxp as [Hx0 Hxp].
  apply andb_true_iff in Hyw as [Hy0 Hyw].
  set (R3 := y0 :: y ++ tail).
  set (R2 := lit "REFERENCES" ++ " "%char :: R3).
  set (R1 := lit ")" ++ " "%char :: R2).
  assert (Hm : match_at foreign_key_re
                 (lit "FOREIGN KEY" ++ [" "%char] ++ "("%char :: x0 :: x ++ R1)
               = Some ([x0 :: x; y0 :: y], tail)).
  { unfold match_at, foreign_key_re. cbn [exec]. rewrite drop_prefix_app.
    apply (star_greedy_max is_space _ [" "%char]
             (lit "(" ++ x0 :: x ++ R1));
      [reflexivity | reflexivity |].
    cbv beta. rewrite drop_prefix_app. rewrite Hx0.
    apply (star_greedy_max not_rparen _ x R1); [assumption | reflexivity |].
    cbv beta. unfold R1 at 1. rewrite drop_prefix_app.
    change (is_space " ") with true. cbv iota.
    apply (star_greedy_max is_space _ [] R2); [reflexivity | reflexivity |].
    cbv beta. unfold R2 at 1. rewrite drop_prefix_app.
    change (is_space " ") with true. cbv iota.
    apply (star_greedy_max is_space _ [] R3); [reflexivity | |].
    { unfold R3. cbn [negb]. now rewrite (word_not_space _ Hy0). }
    cbv beta. unfold R3 at 1. rewrite Hy0.
    apply (star_greedy_max is_word _ y tail); [assumption | exact Htail |].
    f_equal. f_equal. cbn [app]. f_equal.
    - exact (firstn_app_exact (x0 :: x) R1).
    - f_equal. exact (firstn_app_exact (y0 :: y) tail). }
  unfold re_match.
  replace (lit "FOREIGN KEY (" ++ (x0 :: x) ++ lit ") REFERENCES "
           ++ (y0 :: y) ++ tail)
    with (lit "FOREIGN KEY" ++ [" "%char] ++ "("%char :: x0 :: x ++ R1).
  - now rewrite Hm.
  - unfold R1, R2, R3. cbn [lit list_ascii_of_string app].
    repeat f_equal.
Qed.

Lemma contains_prefix sub rest : contains sub (sub ++ rest) = true.
Proof.
  assert (H : startswith sub (sub ++ rest) = true)
    by (unfold startswith; now rewrite drop_prefix_app).
  destruct (sub ++ rest); simpl; now rewrite H.
Qed.

(** A foreign-key line is a constraint line, and the extractor reads the
    stripped column text and the table off what is recorded. *)
Lemma classify_fk_line indent x y tail :
  forallb is_space indent = true ->
  x <> [] -> forallb not_rparen x = true ->
  y <> [] -> forallb is_word y = true ->
  starts_nonword tail = true ->
  classify (fk_line indent x y tail)
  = ConstraintLine
      (strip_chars (is_char ",") (strip (fk_line indent x y tail)))
  /\ fk_ref (strip_chars (is_char ",") (strip (fk_line indent x y tail)))
     = Some (strip x, y).
Proof.
  intros Hind Hx Hxp Hy Hyw Htail.
  destruct (nonempty_last Hy) as (y' & z & Hyz).
  assert (Hz : is_word z = true).
  { rewrite forallb_forall in Hyw. apply Hyw. rewrite Hyz.
    apply in_or_app. right. now left. }
  set (C := lit "FOREIGN KEY (" ++ x ++ lit ") REFERENCES " ++ y).
  assert (HC : C = "F"%char
                   :: (lit "OREIGN KEY (" ++ x ++ lit ") REFERENCES " ++ y')
                   ++ [z]).
  { unfold C. rewrite Hyz. cbn [lit list_ascii_of_string app].
    rewrite <- !app_assoc. reflexivity. }
  assert (Hstrip : strip (fk_line indent x y tail)
                   = C ++ rstrip_chars is_space tail).
  { unfold strip, fk_line.
    replace (indent ++ lit "FOREIGN KEY (" ++ x ++ lit ") REFERENCES "
             ++ y ++ tail)
      with (indent ++ C ++ tail)
      by (unfold C; now rewrite <- !app_assoc).
    rewrite HC. apply strip_chars_core; try assumption; try reflexivity.
    now apply word_not_space. }
  assert (Hcomma : strip_chars (is_char ",") (C ++ rstrip_chars is_space tail)
                   = C ++ rstrip_chars (is_char ",")
                            (rstrip_chars is_space tail)).
  { rewrite HC.
    apply (strip_chars_core (is_char ",") [] _
             (rstrip_chars is_space tail)); try reflexivity.
    now apply word_not_comma. }
  rewrite Hstrip, Hcomma. split.
  - unfold classify. rewrite Hstrip.
    assert (Hfk : contains (lit "FOREIGN KEY")
                    (C ++ rstrip_chars is_space tail) = true).
    { unfold C.
      change (lit "FOREIGN KEY (") with (lit "FOREIGN KEY" ++ lit " (").
      rewrite <- !app_assoc. apply contains_prefix. }
    rewrite Hfk, orb_true_r, Hcomma. rewrite HC. reflexivity.
  - unfold fk_ref.
    rewrite (@re_search_here foreign_key_re _ [x; y]); [reflexivity|].
    unfold C. rewrite <- !app_assoc.
    apply foreign_key_match; try assumption.
    now apply starts_nonword_rstrip, starts_nonword_rstrip.
Qed.

(** X7: a line [FOREIGN KEY (x) REFERENCES y] of a segment is recorded,
    stripped of white space and of commas at its ends, among the
    constraints of the segment's table, and [extract_key_columns] then
    returns the stripped [x] under [y] whenever [y] is among the
    referenced tables. *)
Theorem foreign_key_line_reaches_extractor :
  forall (d : metadata) (seg cmt t : pystr) (g : list pystr)
         (indent x y tail : pystr) (referenced_tables : list pystr),
    re_search table_comment_re seg = Some (cmt :: t :: g) ->
    In (fk_line indent x y tail) (split_on LF seg) ->
    forallb is_space indent = true ->
    x <> [] -> forallb not_rparen x = true ->
    y <> [] -> forallb is_word y = true ->
    starts_nonword tail = true ->
    In y referenced_tables ->
    exists ti l,
      dict_get t (parse_table d seg) = Some ti
      /\ In (strip_chars (is_char ",") (strip (fk_line indent x y tail)))
            (constraints ti)
      /\ dict_get y (extract_key_columns (constraints ti) referenced_tables)
         = Some l
      /\ In (strip x) l.
Proof.
  intros d seg cmt t g indent x y tail refs Hs Hin Hind Hx Hxp Hy Hyw Htail
    Href.
  destruct (@classify_fk_line indent x y tail Hind Hx Hxp Hy Hyw Htail)
    as [Hcl Hfk].
  set (k := strip_chars (is_char ",") (strip (fk_line indent x y tail))) in *.
  rewrite (parse_table_assigns d _ Hs), dict_get_set, str_eqb_refl.
  assert (Hk : In k (constraints (segment_entry cmt seg))).
  { unfold segment_entry. rewrite fold_line_effect_constraints. simpl.
    unfold constraint_lines. apply in_flat_map.
    exists (fk_line indent x y tail). split; [assumption|].
    rewrite Hcl. now left. }
  assert (Hcol : In (strip x)
                   (fk_columns_for y refs
                      (constraints (segment_entry cmt seg)))).
  { apply In_fk_columns_for. split; [now apply mem_In|]. eauto. }
  pose proof (extract_key_columns_get refs
                (constraints (segment_entry cmt seg)) y) as Hget.
  destruct (fk_columns_for y refs (constraints (segment_entry cmt seg)))
    as [|a l] eqn:Hl; [destruct Hcol|].
  exists (segment_entry cmt seg), (a :: l). auto.
Qed.

(** ** A text of commented tables, entry by entry *)

Lemma segment_search b (bs : list commented_table) :
  well_formed_table b = true ->
  re_search table_comment_re
    (match bs with [] => render_table b | _ :: _ => render_head b end)
  = Some [ct_comment b; ct_name b].
Proof.
  intros Hb. destruct bs as [|b' bs'].
  - unfold render_table. now apply well_formed_table_search.
  - rewrite <- (app_nil_r (render_head b)).
    now apply well_formed_table_search.
Qed.

Lemma fold_segments_step b bs d :
  fold_left parse_table (segments (b :: bs)) d
  = match bs with
    | [] => parse_table d (render_table b)
    | _ :: _ =>
        fold_left parse_table (segments bs) (parse_table d (render_head b))
    end.
Proof. destruct bs; reflexivity. Qed.

Lemma fold_segments_other bs :
  forallb well_formed_table bs = true ->
  forall d x,
    ~ In x (map ct_name bs) ->
    dict_get x (fold_left parse_table (segments bs) d) = dict_get x d.
Proof.
  induction bs as [|b bs IH]; intros Hwf d x Hx; [reflexivity|].
  simpl in Hwf. apply andb_true_iff in Hwf as [Hb Hbs].
  simpl in Hx. rewrite fold_segments_step.
  pose proof (@segment_search b bs Hb) as Hs.
  assert (Hxb : str_eqb x (ct_name b) = false).
  { apply str_eqb_neq. intros ->. tauto. }
  destruct bs as [|b' bs'].
  - rewrite (parse_table_assigns d _ Hs), dict_get_set. now rewrite Hxb.
  - rewrite IH by tauto.
    rewrite (parse_table_assigns d _ Hs), dict_get_set. now rewrite Hxb.
Qed.

Lemma fold_segments_entry bs :
  forallb well_formed_table bs = true ->
  NoDup (map ct_name bs) ->
  forall d i b seg,
    nth_error bs i = Some b ->
    nth_error (segments bs) i = Some seg ->
    dict_get (ct_name b) (fold_left parse_table (segments bs) d)
    = Some (segment_entry (ct_comment b) seg).
Proof.
  induction bs as [|b0 bs IH]; intros Hwf Hnd d i b seg Hb Hseg.
  - destruct i; discriminate.
  - simpl in Hwf. apply andb_true_iff in Hwf as [Hb0 Hbs].
    simpl in Hnd. inversion Hnd as [|? ? Hnot Hnd']; subst.
    pose proof (@segment_search b0 bs Hb0) as Hs.
    rewrite fold_segments_step.
    destruct i as [|i].
    + simpl in Hb. injection Hb as <-.
      destruct bs as [|b' bs'].
      * simpl in Hseg. injection Hseg as <-.
        rewrite (parse_table_assigns d _ Hs), dict_get_set.
        now rewrite str_eqb_refl.
      * simpl in Hseg. injection Hseg as <-.
        rewrite fold_segments_other by assumption.
        rewrite (parse_table_assigns d _ Hs), dict_get_set.
        now rewrite str_eqb_refl.
    + simpl in Hb.
      destruct bs as [|b' bs']; [destruct i; discriminate|].
      simpl in Hseg. eapply IH; eassumption.
Qed.

(** X8: a text of [N] well-formed commented tables with distinct names
    parses into [N] entries, in the order of the text, and the entry of
    each table is the one its own statement gives when parsed alone, with
    the table's stripped comment. *)
Theorem commented_tables_round_trip :
  forall bs : list commented_table,
    forallb well_formed_table bs = true ->
    uniq (map ct_name bs) = true ->
    keys (parse_context (render_schema bs)) = map ct_name bs
    /\ forall i b seg,
        nth_error bs i = Some b ->
        nth_error (segments bs) i = Some seg ->
        exists ti,
          dict_get (ct_name b) (parse_context (render_schema bs)) = Some ti
          /\ dict_get (ct_name b) (parse_table [] seg) = Some ti
          /\ comment ti = strip (ct_comment b).
Proof.
  intros bs Hwf Huniq.
  assert (Hsplit : re_split split_tables_re (render_schema bs) = segments bs).
  { unfold re_split. rewrite split_go_segments by assumption.
    destruct (segments bs) eqn:Hs; [|reflexivity].
    destruct bs as [|b [|b' bs']]; discriminate. }
  apply uniq_NoDup in Huniq. split.
  - unfold parse_context. rewrite Hsplit.
    now rewrite keys_parse_segments.
  - intros i b seg Hb Hseg.
    exists (segment_entry (ct_comment b) seg).
    unfold parse_context. rewrite Hsplit.
    rewrite (fold_segments_entry bs Hwf Huniq [] i Hb Hseg).
    split; [reflexivity|].
    assert (Hs : re_search table_comment_re seg
                 = Some [ct_comment b; ct_name b]).
    { clear Huniq Hsplit. revert i Hwf Hb Hseg.
      induction bs as [|b0 bs IH]; intros i Hwf Hb Hseg;
        [destruct i; discriminate|].
      simpl in Hwf. apply andb_true_iff in Hwf as [Hb0 Hbs].
      destruct i as [|i].
      - simpl in Hb. injection Hb as <-.
        pose proof (@segment_search b0 bs Hb0) as Hs.
        destruct bs; simpl in Hseg; injection Hseg as <-; exact Hs.
      - simpl in Hb.
        destruct bs as [|b' bs']; [destruct i; discriminate|].
        simpl in Hseg. eapply IH; eassumption. }
    rewrite (parse_table_assigns [] _ Hs). simpl.
    rewrite str_eqb_refl. split; [reflexivity|].
    unfold segment_entry. now rewrite fold_line_effect_comment.
Qed.

(** * Further properties of the pruner *)

(** For a non-negative [k], what [get_top_k] does before it hands over to
    [prune_top_k] only decides whether it raises. *)
Lemma get_top_k_hands_over {A : Arithmetic} {E : Encoder A}
    question tables_metadata k :
  (0 <= k)%Z ->
  get_top_k question tables_metadata k
  = (question_emb <- encodes (Some question) ;;
     md <- match tables_metadata with
           | Some md => Ok md
           | None => Raise AttributeError
           end ;;
     table_embs <-
       mapM (fun table_info => encodes (Some (comment table_info)))
            (values md) ;;
     _ <- torch_stack table_embs ;;
     prune_top_k question [] md).
Proof.
  intros Hk. unfold get_top_k.
  destruct (encodes (Some question)) as [qe|]; simpl; [|reflexivity].
  destruct tables_metadata as [md|]; simpl; [|reflexivity].
  destruct (mapM _ (values md)) as [embs|] eqn:Hm; simpl; [|reflexivity].
  destruct embs as [|e embs]; simpl; [reflexivity|].
  destruct (@torch_topk_ok A (map (cosine_similarity qe) (e :: embs)) k Hk)
    as (idx & Hidx & Hall).
  simpl in Hidx. rewrite Hidx. simpl.
  destruct (@collect_results_ok md idx []) as [results Hres].
  - eapply Forall_impl; [|exact Hall].
    intros i Hi. rewrite length_map in Hi.
    apply mapM_length in Hm. unfold keys, values in *.
    rewrite length_map in *. simpl in *. lia.
  - rewrite Hres. reflexivity.
Qed.

Lemma pruned_map_ok_inv {A : Arithmetic} {E : Encoder A} question
    tables_metadata pruned :
  pruned_map question tables_metadata = Ok pruned ->
  exists question_emb,
    encodes (Some question) = Ok question_emb
    /\ tables_metadata <> []
    /\ (forall text, In text (pooled tables_metadata) ->
          exists e, encodes text = Ok e)
    /\ pruned
       = inject_keys tables_metadata
           (select_tables (sim_of question_emb)
              (lower
                 (divide
                    (sum (map (sim_of question_emb)
                            (pooled tables_metadata)))
                    (of_len
                       (List.length
                          (map (sim_of question_emb)
                               (pooled tables_metadata))))))
              tables_metadata []).
Proof.
  unfold pruned_map. intros H.
  destruct (encodes (Some question)) as [qe|] eqn:Hq; simpl in H;
    [|discriminate].
  destruct (threshold qe tables_metadata) as [tau|] eqn:Hthr; simpl in H;
    [|discriminate].
  destruct (threshold_inv _ _ Hthr) as [Hne Hans].
  rewrite (threshold_value _ Hne Hans) in Hthr. injection Hthr as <-.
  rewrite (prune_tables_select _ _ _ _ Hans) in H. simpl in H.
  injection H as <-. exists qe. auto.
Qed.

Lemma pruned_map_ok {A : Arithmetic} {E : Encoder A} question
    tables_metadata question_emb :
  encodes (Some question) = Ok question_emb ->
  tables_metadata <> [] ->
  (forall text, In text (pooled tables_metadata) ->
     exists e, encodes text = Ok e) ->
  exists pruned, pruned_map question tables_metadata = Ok pruned.
Proof.
  intros Hq Hne Hans. unfold pruned_map. rewrite Hq. simpl.
  rewrite (threshold_value _ Hne Hans). simpl.
  rewrite (prune_tables_select _ _ _ _ Hans). simpl. eauto.
Qed.

Lemma prune_top_k_returns_iff_aux {A : Arithmetic} {E : Encoder A} question
    tables_metadata :
  (exists context, prune_top_k question [] tables_metadata = Ok context)
  <-> tables_metadata <> []
      /\ (exists question_emb, encodes (Some question) = Ok question_emb)
      /\ forall text, In text (pooled tables_metadata) ->
                      exists e, encodes text = Ok e.
Proof.
  unfold prune_top_k. split.
  - intros [context H].
    destruct (pruned_map question tables_metadata) as [pruned|] eqn:Hp;
      [|discriminate].
    destruct (pruned_map_ok_inv _ _ Hp) as (qe & Hq & Hne & Hans & _).
    eauto.
  - intros (Hne & [qe Hq] & Hans).
    destruct (pruned_map_ok _ Hq Hne Hans) as [pruned ->]. simpl. eauto.
Qed.

(** X9: [prune_top_k] returns a context exactly when the metadata model
    is not empty and the encoder answers on the question, on every table
    comment and on every column comment; in every other case it raises. *)
Theorem prune_top_k_returns_iff :
  forall (A : Arithmetic) (E : Encoder A)
         (question : pystr) (results : dict (list pystr))
         (tables_metadata : metadata),
    (exists context, prune_top_k question results tables_metadata = Ok context)
    <-> tables_metadata <> []
        /\ (exists question_emb, encodes (Some question) = Ok question_emb)
        /\ forall text, In text (pooled tables_metadata) ->
                        exists e, encodes text = Ok e.
Proof.
  intros A E question results md.
  exact (prune_top_k_returns_iff_aux question md).
Qed.

(** X10: for a non-negative [k], [get_top_k] returns a context exactly
    when [prune_top_k] on the whole metadata does, and then the same
    one. *)
Theorem get_top_k_is_prune_top_k :
  forall (A : Arithmetic) (E : Encoder A)
         (question : pystr) (tables_metadata : metadata)
         (k : Z) (context : pystr),
    (0 <= k)%Z ->
    get_top_k question (Some tables_metadata) k = Ok context
    <-> prune_top_k question [] tables_metadata = Ok context.
Proof.
  intros A E question md k context Hk.
  rewrite (get_top_k_hands_over _ _ Hk). split.
  - destruct (encodes (Some question)); simpl; [|discriminate].
    destruct (mapM _ (values md)) as [embs|]; simpl; [|discriminate].
    destruct embs; simpl; [discriminate | auto].
  - intros Hp.
    destruct (proj1 (@prune_top_k_returns_iff_aux A E question md)
                (ex_intro _ context Hp)) as (Hne & [qe Hq] & Hans).
    rewrite Hq. simpl.
    rewrite (mapM_ok _ (fun ti => match encodes (Some (comment ti)) with
                                  | Ok e => e
                                  | Raise _ => qe
                                  end)).
    + destruct md as [|[t ti] md]; [congruence|]. simpl. exact Hp.
    + intros ti Hti.
      destruct (Hans (Some (comment ti))) as [e He]; [|now rewrite He].
      unfold pooled. apply in_flat_map. exists ti. split; [assumption|].
      now left.
Qed.

(** X11: when the file exists and the pruner returns a context for its
    parsed content, [generate_prompt] prints nothing and returns the
    question, that context and an empty answer in its three-line
    template. *)
Theorem generate_prompt_on_file :
  forall (A : Arithmetic) (E : Encoder A) (fs : filesystem)
         (path question content context : pystr),
    fs path = Some content ->
    prune_top_k question [] (parse_context content) = Ok context ->
    generate_prompt fs path question
    = ([], Ok (lit "### Question: " ++ question ++ [LF]
               ++ lit "### Context: " ++ context ++ [LF]
               ++ lit "### Answer: ")).
Proof.
  intros A E fs path question content context Hfs Hp.
  unfold generate_prompt, read_context. rewrite Hfs.
  assert (Hk : (0 <= 5)%Z) by lia.
  apply (get_top_k_hands_over question (Some (parse_context content))) in Hk.
  rewrite Hk. clear Hk.
  destruct (proj1 (prune_top_k_returns_iff_aux question
                     (parse_context content))
              (ex_intro _ context Hp)) as (Hne & [qe Hq] & Hans).
  rewrite Hq. simpl.
  rewrite (mapM_ok _ (fun ti => match encodes (Some (comment ti)) with
                                | Ok e => e
                                | Raise _ => qe
                                end)).
  - destruct (parse_context content) as [|[t ti] md]; [congruence|].
    simpl. simpl in Hp. rewrite Hp. reflexivity.
  - intros ti Hti.
    destruct (Hans (Some (comment ti))) as [e He]; [|now rewrite He].
    unfold pooled. apply in_flat_map. exists ti. split; [assumption|].
    now left.
Qed.

(** X12: a file whose text has no comment marker makes
    [generate_prompt] raise: the metadata is empty and [torch.stack]
    refuses the empty list of table embeddings. *)
Theorem generate_prompt_without_comments :
  forall (A : Arithmetic) (E : Encoder A)
         (fs : filesystem) (path question content : pystr),
    fs path = Some content ->
    contains (lit "--") content = false ->
    generate_prompt fs path question
    = ([], _ <- encodes (Some question) ;; Raise RuntimeError).
Proof.
  intros A E fs path question content Hfs Hno.
  unfold generate_prompt, read_context. rewrite Hfs.
  unfold parse_context, re_split.
  rewrite split_go_no_boundary by now apply no_marker_no_boundary.
  simpl. rewrite parse_table_skips by now apply no_marker_no_table.
  unfold get_top_k. destruct (encodes (Some question)); reflexivity.
Qed.

(** ** The shape of the pruned result *)

Lemma keys_select_tables {A : Arithmetic} (sc : option pystr -> number A)
    tau (tables_metadata : metadata) acc :
  NoDup (keys acc ++ keys tables_metadata) ->
  keys (select_tables sc tau tables_metadata acc)
  = keys acc ++ map fst (filter (selects sc tau) tables_metadata).
Proof.
  revert acc. induction tables_metadata as [|[t ti] md IH]; intros acc Hnd.
  - simpl. now rewrite app_nil_r.
  - assert (Ht : ~ In t (keys acc)).
    { apply NoDup_remove_2 in Hnd. rewrite in_app_iff in Hnd. tauto. }
    assert (Hacc : dict_mem t acc = false).
    { rewrite dict_mem_keys. destruct (mem t (keys acc)) eqn:Hm;
        [|reflexivity]. apply mem_In in Hm. tauto. }
    unfold select_tables in *. cbn [fold_left filter].
    unfold select_step at 2, selects at 1. cbn [fst snd].
    destruct (gt (sc (Some (comment ti))) tau); cbn [andb].
    + destruct (keep_columns sc tau (columns ti)) as [|c cs] eqn:Hk.
      * apply IH. apply NoDup_remove_1 in Hnd. exact Hnd.
      * rewrite IH.
        -- rewrite keys_set_absent by assumption.
           rewrite <- app_assoc. reflexivity.
        -- rewrite keys_set_absent by assumption.
           rewrite <- app_assoc. exact Hnd.
    + apply IH. apply NoDup_remove_1 in Hnd. exact Hnd.
Qed.

Lemma selects_dict_mem {A : Arithmetic} (sc : option pystr -> number A)
    tau (tables_metadata : metadata) t ti :
  NoDup (keys tables_metadata) ->
  In (t, ti) tables_metadata ->
  dict_mem t (select_tables sc tau tables_metadata [])
  = selects sc tau (t, ti).
Proof.
  intros Hnd Hin. apply (In_dict_get _ _ _ Hnd) in Hin.
  unfold dict_mem.
  rewrite (@select_get A sc tau t ti tables_metadata [] Hnd Hin).
  unfold selects. simpl.
  destruct (gt (sc (Some (comment ti))) tau); [|reflexivity].
  destruct (keep_columns sc tau (columns ti)); reflexivity.
Qed.

Lemma map_filter_keys {V : Type} (p : pystr * V -> bool) (q : pystr -> bool)
    (d : dict V) :
  (forall k v, In (k, v) d -> p (k, v) = q k) ->
  map fst (filter p d) = filter q (keys d).
Proof.
  induction d as [|[k v] d IH]; intros H; [reflexivity|].
  simpl. rewrite (H k v) by now left.
  destruct (q k); simpl; rewrite IH; auto;
    intros; apply H; now right.
Qed.

(** X13: the tables of the pruned result come in the order of the
    metadata, whatever their similarities, and every table of the result
    has at least one column. *)
Theorem pruned_result_shape :
  forall (A : Arithmetic) (E : Encoder A)
         (question : pystr) (tables_metadata : metadata)
         (pruned : dict (list pystr)),
    is_metadata tables_metadata = true ->
    pruned_map question tables_metadata = Ok pruned ->
    keys pruned
    = filter (fun t => dict_mem t pruned) (keys tables_metadata)
    /\ forall t cols, dict_get t pruned = Some cols -> cols <> [].
Proof.
  intros A E question md pruned Hmd Hp.
  destruct (is_metadata_NoDup _ Hmd) as [Hnd _].
  destruct (pruned_map_ok_inv _ _ Hp) as (qe & _ & _ & _ & ->).
  set (tau := lower _). set (sc := sim_of qe).
  split.
  - rewrite keys_inject_keys.
    rewrite keys_select_tables by exact Hnd. simpl.
    apply map_filter_keys. intros t ti Hin.
    rewrite dict_mem_keys, keys_inject_keys, <- dict_mem_keys.
    symmetry. now apply selects_dict_mem.
  - intros t cols. rewrite dict_get_inject_keys.
    destruct (dict_get t (select_tables sc tau md [])) as [cols0|] eqn:Hg;
      [|discriminate].
    simpl. intros [= <-] Happ.
    apply app_eq_nil in Happ as [_ ->].
    destruct (dict_get t md) as [ti|] eqn:Hmdt.
    + rewrite (@select_get A sc tau t ti md [] Hnd Hmdt) in Hg. simpl in Hg.
      destruct (gt (sc (Some (comment ti))) tau); [|discriminate].
      destruct (keep_columns sc tau (columns ti)); discriminate.
    + apply dict_get_None in Hmdt.
      rewrite select_get_absent in Hg by assumption. discriminate.
Qed.

(** ** Degenerate similarity distributions *)

Lemma select_tables_none {A : Arithmetic} (sc : option pystr -> number A)
    tau (tables_metadata : metadata) acc :
  (forall t ti, In (t, ti) tables_metadata ->
     gt (sc (Some (comment ti))) tau = false) ->
  select_tables sc tau tables_metadata acc = acc.
Proof.
  revert acc. induction tables_metadata as [|[t ti] md IH]; intros acc H;
    [reflexivity|].
  unfold select_tables in *. cbn [fold_left].
  unfold select_step at 2. cbn [fst snd].
  rewrite (H t ti) by now left.
  apply IH. intros; eapply H; right; eassumption.
Qed.

Lemma inject_keys_nil (tables_metadata : metadata) :
  inject_keys tables_metadata [] = [].
Proof.
  unfold inject_keys. simpl.
  induction tables_metadata as [|[t ti] md IH]; [reflexivity|].
  simpl. exact IH.
Qed.

Lemma fold_Qplus_zeros {T : Type} (l : list T) (a : Q) :
  (fold_left Qplus (map (fun _ => 0%Q) l) a == a)%Q.
Proof.
  revert a. induction l as [|x l IH]; intros a; simpl; [reflexivity|].
  rewrite IH. ring.
Qed.

Lemma uniform_threshold (sc : option pystr -> number exact) (s : Q)
    (l : list (option pystr)) :
  l <> [] ->
  (forall x, In x l -> (sc x == s)%Q) ->
  (@lower exact
     (@divide exact (@sum exact (map sc l))
        (@of_len exact (List.length (map sc l))))
   == s * (95 # 100))%Q.
Proof.
  intros Hne H.
  rewrite (@lowered_mean_shift (fun _ => 0%Q) sc s l Hne).
  - unfold lower.
    cbn [sum divide times minus five_percent of_len exact number].
    assert (Hz : (fold_left Qplus (map (fun _ : option pystr => 0%Q) l) 0
                  == 0)%Q)
      by apply fold_Qplus_zeros.
    rewrite Hz.
    pose proof (inject_Z_length_nonzero Hne) as Hn.
    rewrite length_map. field. exact Hn.
  - intros x Hx. rewrite (H x Hx). ring.
Qed.


(** ** The injector without foreign keys between survivors *)

Lemma extract_key_columns_none survivors constraints :
  (forall k c r, In k constraints -> fk_ref k = Some (c, r) ->
                 mem r survivors = false) ->
  extract_key_columns constraints survivors = [].
Proof.
  intros H. unfold extract_key_columns.
  assert (Hgen : forall kc,
            fold_left (extract_step survivors) constraints kc = kc).
  { induction constraints as [|k cs IH]; intros kc; [reflexivity|].
    cbn [fold_left]. rewrite extract_step_fk_ref.
    assert (Hcs : forall k' c r, In k' cs -> fk_ref k' = Some (c, r) ->
                                 mem r survivors = false)
      by (intros; eapply H; [right|]; eassumption).
    destruct (fk_ref k) as [[c r]|] eqn:Hfk.
    - rewrite (H k c r (or_introl eq_refl) Hfk). now apply IH.
    - now apply IH. }
  apply Hgen.
Qed.

(** X15: when no surviving table declares a foreign key to a surviving
    table, the injector returns the pruned result unchanged. *)
Theorem injector_without_links_is_identity :
  forall (tables_metadata : metadata) (pruned_results : dict (list pystr)),
    (forall t ti k c r,
        In (t, ti) tables_metadata ->
        dict_mem t pruned_results = true ->
        In k (constraints ti) ->
        fk_ref k = Some (c, r) ->
        dict_mem r pruned_results = false) ->
    inject_keys tables_metadata pruned_results = pruned_results.
Proof.
  intros md P H. unfold inject_keys.
  assert (Hgen : forall d, keys d = keys P ->
            fold_left (inject_table (keys P)) md d = d).
  { induction md as [|[t ti] md IH]; intros d Hd; [reflexivity|].
    cbn [fold_left].
    assert (Hstep : inject_table (keys P) d (t, ti) = d).
    { unfold inject_table.
      destruct (dict_mem t d) eqn:Hm; [|reflexivity].
      rewrite extract_key_columns_none; [reflexivity|].
      intros k c r Hk Hfk. rewrite <- dict_mem_keys.
      apply (H t ti k c r); try assumption; [now left|].
      rewrite dict_mem_keys, <- Hd, <- dict_mem_keys. exact Hm. }
    rewrite Hstep. apply IH; [|exact Hd].
    intros t' ti' k c r Hin. apply H. now right. }
  now apply Hgen.
Qed.

(** ** The formatter and the extractor *)

Lemma join_cons sep (p : pystr) (ps : list pystr) :
  ps <> [] -> join sep (p :: ps) = p ++ sep ++ join sep ps.
Proof. destruct ps; [congruence | reflexivity]. Qed.

(** X16: the formatter does not mark where a column ends: a single
    column text [a, b], as the injector leaves it for a foreign key over
    two columns, is rendered like the two columns [a] and [b]. *)
Theorem format_top_k_merges_composite :
  forall (before after : dict (list pystr)) (t a b : pystr)
         (cols : list pystr),
    format_top_k (before ++ (t, (a ++ lit ", " ++ b) :: cols) :: after)
    = format_top_k (before ++ (t, a :: b :: cols) :: after).
Proof.
  intros before after t a b cols. unfold format_top_k.
  rewrite !map_app. cbn [map]. f_equal. f_equal. f_equal.
  unfold format_table. do 3 f_equal.
  destruct cols as [|c cols].
  - reflexivity.
  - change (join (lit ", ") ((a ++ lit ", " ++ b) :: c :: cols))
      with ((a ++ lit ", " ++ b) ++ lit ", " ++ join (lit ", ") (c :: cols)).
    change (join (lit ", ") (a :: b :: c :: cols))
      with (a ++ lit ", " ++ b ++ lit ", " ++ join (lit ", ") (c :: cols)).
    now rewrite <- !app_assoc.
Qed.

(** X17: [extract_key_columns] groups the foreign-key columns by
    referenced table: the tables of the result are pairwise distinct and
    all among the referenced tables, and each holds, in the order of the
    constraints, the columns declared as foreign keys to it, at least
    one. *)
Theorem extract_key_columns_groups :
  forall (constraints referenced_tables : list pystr),
    NoDup (keys (extract_key_columns constraints referenced_tables))
    /\ forall r,
        dict_get r (extract_key_columns constraints referenced_tables)
        = match fk_columns_for r referenced_tables constraints with
          | [] => None
          | c :: l => Some (c :: l)
          end
        /\ (dict_mem r (extract_key_columns constraints referenced_tables)
            = true -> In r referenced_tables).
Proof.
  intros cs refs. split; [apply extract_key_columns_NoDup|].
  intros r. split.
  - rewrite extract_key_columns_get.
    now destruct (fk_columns_for r refs cs).
  - unfold dict_mem. rewrite extract_key_columns_get.
    destruct (fk_columns_for r refs cs) as [|c l] eqn:Hl; [discriminate|].
    intros _.
    assert (Hc : In c (fk_columns_for r refs cs)) by (rewrite Hl; now left).
    apply In_fk_columns_for in Hc as [Hm _]. now apply mem_In.
Qed.

(** * The further properties on the examples *)

Lemma parse_context_without_comments_witness :
  parse_context schema_plain = [].
Proof.
  apply parse_context_without_comments. vm_compute. reflexivity.
Defined.

Lemma parse_table_is_local_witness :
  dict_get (lit "student_details")
    (parse_table (parse_context schema_demo) segment_again)
  = dict_get (lit "student_details") (parse_table [] segment_again)
  /\ dict_get (lit "grade")
       (parse_table (parse_context schema_demo) segment_again)
     = dict_get (lit "grade") (parse_context schema_demo).
Proof.
  destruct (@parse_table_is_local (parse_context schema_demo) segment_again
              (lit " students, once more") (lit "student_details") [])
    as (Hown & Hother & _).
  - vm_compute. reflexivity.
  - split; [exact Hown|]. apply Hother. vm_compute. discriminate.
Defined.

Lemma segment_records_its_lines_witness :
  exists ti,
    dict_get (lit "grade") (parse_table [] segment_grade) = Some ti
    /\ constraints ti
       = [lit "FOREIGN KEY (student_id) REFERENCES student_details (student_id)"].
Proof.
  destruct (@segment_records_its_lines [] segment_grade
              (lit " grades per student") (lit "grade") [])
    as (ti & Hti & _ & Hcs & _).
  - vm_compute. reflexivity.
  - exists ti. split; [exact Hti|]. rewrite Hcs. vm_compute. reflexivity.
Defined.

Lemma column_gets_comment_above_witness :
  exists ti,
    dict_get (lit "grade") (parse_table [] segment_grade) = Some ti
    /\ dict_get (lit "student_id") (columns ti)
       = Some {| col_type := lit "INTEGER";
                 col_comment := Some (lit "grades per student") |}.
Proof.
  apply (@column_gets_comment_above [] segment_grade
           (lit " grades per student") (lit "grade") []
           []
           [lit "CREATE TABLE grade ("]
           [ lit "    -- grade obtained";
             lit "    grade REAL,";
             lit "    FOREIGN KEY (student_id) REFERENCES student_details (student_id)";
             lit ");" ]
           (lit "-- grades per student")
           (lit "    student_id INTEGER,"));
    vm_compute; reflexivity.
Defined.

Lemma column_after_column_has_no_comment_witness :
  exists ti,
    dict_get (lit "student_details") (parse_table [] segment_students)
      = Some ti
    /\ dict_get (lit "age") (columns ti)
       = Some {| col_type := lit "INTEGER"; col_comment := None |}.
Proof.
  apply (@column_after_column_has_no_comment [] segment_students
           (lit " students enrolled") (lit "student_details") []
           [ lit "-- students enrolled";
             lit "CREATE TABLE student_details (";
             lit "    -- unique id of the student";
             lit "    student_id INTEGER PRIMARY KEY,";
             lit "    -- first name" ]
           []
           [lit ")"]
           (lit "    given_name TEXT NOT NULL,")
           (lit "    age INTEGER NOT NULL")
           (lit "given_name") (lit "TEXT"));
    vm_compute; reflexivity.
Defined.

Lemma foreign_key_line_reaches_extractor_witness :
  exists ti l,
    dict_get (lit "grade") (parse_table [] segment_grade) = Some ti
    /\ dict_get (lit "student_details")
         (extract_key_columns (constraints ti) [lit "student_details"])
       = Some l
    /\ In (lit "student_id") l.
Proof.
  destruct (@foreign_key_line_reaches_extractor [] segment_grade
              (lit " grades per student") (lit "grade") []
              (lit "    ") (lit "student_id") (lit "student_details")
              (lit " (student_id)") [lit "student_details"])
    as (ti & l & Hti & _ & Hl & Hin).
  - vm_compute. reflexivity.
  - vm_compute. tauto.
  - reflexivity.
  - discriminate.
  - reflexivity.
  - discriminate.
  - reflexivity.
  - reflexivity.
  - now left.
  - exists ti, l. repeat split; assumption.
Defined.

Lemma commented_tables_round_trip_witness :
  keys (parse_context (render_schema tables_demo))
  = [lit "student_details"; lit "grade"].
Proof.
  destruct (@commented_tables_round_trip tables_demo) as [H _].
  - vm_compute. reflexivity.
  - vm_compute. reflexivity.
  - exact H.
Defined.

Lemma get_top_k_is_prune_top_k_witness :
  get_top_k (E := lenient_encoder) question_demo
    (Some (parse_context schema_demo)) 3 = Ok context_demo.
Proof.
  apply (@get_top_k_is_prune_top_k _ lenient_encoder).
  - lia.
  - vm_compute. reflexivity.
Defined.

Lemma generate_prompt_on_file_witness :
  generate_prompt (E := lenient_encoder) (fun _ => Some schema_demo)
    (lit "context.sql") question_demo
  = ([], Ok (lit "### Question: " ++ question_demo ++ [LF]
             ++ lit "### Context: " ++ context_demo ++ [LF]
             ++ lit "### Answer: ")).
Proof.
  apply (@generate_prompt_on_file _ lenient_encoder (fun _ => Some schema_demo)
           (lit "context.sql") question_demo schema_demo context_demo).
  - reflexivity.
  - vm_compute. reflexivity.
Defined.

Lemma generate_prompt_without_comments_witness :
  generate_prompt (E := lenient_encoder) (fun _ => Some schema_plain)
    (lit "context.sql") question_demo
  = ([], Raise RuntimeError).
Proof.
  rewrite (@generate_prompt_without_comments _ lenient_encoder
             (fun _ => Some schema_plain) (lit "context.sql")
             question_demo schema_plain).
  - reflexivity.
  - reflexivity.
  - vm_compute. reflexivity.
Defined.

Lemma pruned_result_shape_witness :
  keys (inject_keys (parse_context schema_demo)
          [ (lit "student_details", [lit "given_name"]);
            (lit "grade", [lit "student_id"; lit "grade"]) ])
  = [lit "student_details"; lit "grade"].
Proof.
  destruct (@pruned_result_shape _ lenient_encoder question_demo
              (parse_context schema_demo)
              (inject_keys (parse_context schema_demo)
                 [ (lit "student_details", [lit "given_name"]);
                   (lit "grade", [lit "student_id"; lit "grade"]) ]))
    as [Hkeys _].
  - vm_compute. reflexivity.
  - vm_compute. reflexivity.
  - rewrite Hkeys. vm_compute. reflexivity.
Defined.


Lemma injector_without_links_is_identity_witness :
  inject_keys (parse_context schema_demo)
    [(lit "student_details", [lit "given_name"])]
  = [(lit "student_details", [lit "given_name"])].
Proof.
  apply injector_without_links_is_identity.
  intros t ti k c r Hin Hmem Hk Hfk.
  vm_compute in Hin. destruct Hin as [Hin|[Hin|[]]];
    injection Hin as <- <-.
  - vm_compute in Hk. destruct Hk as [<-|[]].
    vm_compute in Hfk. discriminate.
  - vm_compute in Hmem. discriminate.
Defined.

(** * How the line loop reads a line *)

Lemma startswith_app sub (p q : pystr) :
  startswith sub p = true -> startswith sub (p ++ q) = true.
Proof.
  unfold startswith. revert p.
  induction sub as [|a sub IH]; intros p; [reflexivity|].
  destruct p as [|b p]; simpl; [discriminate|].
  destruct (Ascii.eqb a b); [apply IH | discriminate].
Qed.

Lemma contains_app_l sub (p q : pystr) :
  contains sub p = true -> contains sub (p ++ q) = true.
Proof.
  induction p as [|c p IH]; intros H.
  - assert (Hs : startswith sub [] = true)
      by (simpl in H; now rewrite orb_false_r in H).
    apply (startswith_app _ _ q) in Hs. simpl in Hs.
    destruct q; simpl; now rewrite Hs.
  - cbn [contains] in H. apply orb_true_iff in H as [H|H].
    + apply (startswith_app _ _ q) in H.
      change ((c :: p) ++ q) with (c :: (p ++ q)) in *.
      cbn [contains]. now rewrite H.
    + change ((c :: p) ++ q) with (c :: (p ++ q)).
      cbn [contains]. rewrite (IH H). apply orb_true_r.
Qed.

Lemma contains_app_r sub (p q : pystr) :
  contains sub q = true -> contains sub (p ++ q) = true.
Proof.
  intros H. induction p as [|c p IH]; [exact H|].
  change ((c :: p) ++ q) with (c :: (p ++ q)).
  cbn [contains]. rewrite IH. apply orb_true_r.
Qed.

Lemma word_not_dash c : is_word c = true -> Ascii.eqb "-" c = false.
Proof.
  destruct c as [[] [] [] [] [] [] [] []]; vm_compute; congruence.
Qed.

Lemma space_not_word c : is_space c = true -> is_word c = false.
Proof.
  destruct c as [[] [] [] [] [] [] [] []]; vm_compute; congruence.
Qed.

(** The column pattern on a declaration: the name, the type and the rest
    of the line. *)
Lemma column_match name gap type tail :
  name <> [] -> forallb is_word name = true ->
  gap <> [] -> forallb is_space gap = true ->
  type <> [] -> forallb is_word type = true ->
  starts_nonword tail = true -> forallb not_newline tail = true ->
  re_match column_re (name ++ gap ++ type ++ tail)
  = Some [name; type; tail].
Proof.
  intros Hn Hnw Hg Hgs Ht Htw Htail Hnl.
  destruct name as [|n0 name]; [congruence|].
  destruct gap as [|g0 gap]; [congruence|].
  destruct type as [|t0 type]; [congruence|].
  simpl in Hnw, Hgs, Htw.
  apply andb_true_iff in Hnw as [Hn0 Hnw].
  apply andb_true_iff in Hgs as [Hg0 Hgs].
  apply andb_true_iff in Htw as [Ht0 Htw].
  set (R2 := t0 :: type ++ tail).
  set (R1 := g0 :: gap ++ R2).
  assert (Hm : match_at column_re (n0 :: name ++ R1)
               = Some ([n0 :: name; t0 :: type; tail], [])).
  { unfold match_at, column_re. cbn [exec]. rewrite Hn0.
    apply (star_greedy_max is_word _ name R1); [assumption | |].
    { unfold R1. cbn [negb]. now rewrite (space_not_word _ Hg0). }
    cbv beta. unfold R1 at 1. rewrite Hg0.
    apply (star_greedy_max is_space _ gap R2); [assumption | |].
    { unfold R2. cbn [negb]. now rewrite (word_not_space _ Ht0). }
    cbv beta. unfold R2 at 1. rewrite Ht0.
    apply (star_greedy_max is_word _ type tail); [assumption | exact Htail |].
    cbv beta.
    rewrite <- (app_nil_r tail) at 1.
    apply (star_greedy_max not_newline _ tail []);
      [assumption | reflexivity |].
    f_equal. f_equal. cbn [app]. f_equal; [|f_equal; [|f_equal]].
    - exact (firstn_app_exact (n0 :: name) R1).
    - exact (firstn_app_exact (t0 :: type) tail).
    - cbn [List.length]. rewrite Nat.sub_0_r. apply firstn_all. }
  unfold re_match.
  change ((n0 :: name) ++ (g0 :: gap) ++ (t0 :: type) ++ tail)
    with (n0 :: name ++ R1).
  now rewrite Hm.
Qed.

Lemma startswith_false_prefix sub (p q : pystr) :
  startswith sub (p ++ q) = false -> startswith sub p = false.
Proof.
  intros H. destruct (startswith sub p) eqn:Hp; [|reflexivity].
  apply (startswith_app _ _ q) in Hp. congruence.
Qed.

Lemma contains_false_prefix sub (p q : pystr) :
  contains sub (p ++ q) = false -> contains sub p = false.
Proof.
  intros H. destruct (contains sub p) eqn:Hp; [|reflexivity].
  apply (contains_app_l _ _ q) in Hp. congruence.
Qed.

(** X18: a line that reads, after its indentation, a name, white space,
    a type and a rest that does not continue the type, and that is no
    header and names no key, declares the column: the name gets the type
    and the pending comment, and the pending comment is used up. *)
Theorem plain_column_line_declares_column :
  forall (t : pystr) (d : metadata) (column_comment : option pystr)
         (indent name gap type tail : pystr),
    forallb is_space indent = true ->
    name <> [] -> forallb is_word name = true ->
    gap <> [] -> forallb is_space gap = true ->
    type <> [] -> forallb is_word type = true ->
    starts_nonword tail = true -> forallb not_newline tail = true ->
    startswith (lit "CREATE TABLE") (name ++ gap ++ type ++ tail) = false ->
    contains (lit "PRIMARY KEY") (name ++ gap ++ type ++ tail) = false ->
    contains (lit "FOREIGN KEY") (name ++ gap ++ type ++ tail) = false ->
    parse_line t (d, column_comment) (indent ++ name ++ gap ++ type ++ tail)
    = (dict_adjust t
         (set_column name
            {| col_type := type; col_comment := column_comment |}) d,
       None).
Proof.
  intros t d cc indent name gap type tail Hind Hn Hnw Hg Hgs Ht Htw Htail
    Hnl Hct Hpk Hfk.
  destruct (nonempty_last Ht) as (type' & z & Htz).
  assert (Hz : is_word z = true).
  { rewrite forallb_forall in Htw. apply Htw. rewrite Htz.
    apply in_or_app. right. now left. }
  destruct name as [|n0 name']; [congruence|].
  assert (Hn0 : is_word n0 = true)
    by (simpl in Hnw; now apply andb_true_iff in Hnw as [Hn0 _]).
  remember (n0 :: name') as name eqn:Hname.
  destruct (rstrip_chars_prefix is_space tail) as (r & Hr).
  set (tail' := rstrip_chars is_space tail) in *.
  assert (Hstrip : strip (indent ++ name ++ gap ++ type ++ tail)
                   = name ++ gap ++ type ++ tail').
  { unfold strip.
    replace (indent ++ name ++ gap ++ type ++ tail)
      with (indent ++ (n0 :: (name' ++ gap ++ type') ++ [z]) ++ tail)
      by (rewrite Hname, Htz; cbn [app]; now rewrite <- !app_assoc).
    rewrite strip_chars_core; try assumption;
      try now apply word_not_space.
    rewrite Hname, Htz. cbn [app]. now rewrite <- !app_assoc. }
  assert (Hwhole : name ++ gap ++ type ++ tail
                   = (name ++ gap ++ type ++ tail') ++ r).
  { rewrite Hr at 1. now rewrite <- !app_assoc. }
  rewrite Hwhole in Hct, Hpk, Hfk.
  apply startswith_false_prefix in Hct.
  apply contains_false_prefix in Hpk, Hfk.
  assert (Hnl' : forallb not_newline tail' = true).
  { rewrite Hr, forallb_app in Hnl. now apply andb_true_iff in Hnl as [H _]. }
  assert (Hm : re_match column_re (name ++ gap ++ type ++ tail')
               = Some [name; type; tail']).
  { apply column_match; try assumption.
    unfold tail'. now apply starts_nonword_rstrip. }
  assert (Hdash : startswith (lit "--") (name ++ gap ++ type ++ tail')
                  = false).
  { rewrite Hname. unfold startswith.
    cbn [lit list_ascii_of_string app drop_prefix].
    now rewrite (word_not_dash _ Hn0). }
  unfold parse_line, classify. rewrite Hstrip.
  rewrite Hct, Hdash, Hpk, Hfk, Hm. cbn [orb].
  rewrite Hname at 1. reflexivity.
Qed.

(** X19: a column declared with an inline [PRIMARY KEY] is taken for a
    constraint: the line is recorded among the constraints of the
    segment's table, no table gains or changes a column, and the pending
    comment stays pending. *)
Theorem inline_key_line_is_a_constraint :
  forall (t : pystr) (d : metadata) (column_comment : option pystr)
         (indent name r1 r2 : pystr),
    forallb is_space indent = true ->
    name <> [] -> forallb is_word name = true ->
    startswith (lit "CREATE TABLE")
      (name ++ r1 ++ lit "PRIMARY KEY" ++ r2) = false ->
    let line := indent ++ name ++ r1 ++ lit "PRIMARY KEY" ++ r2 in
    parse_line t (d, column_comment) line
    = (dict_adjust t
         (add_constraint (strip_chars (is_char ",") (strip line))) d,
       column_comment)
    /\ forall x ti,
        dict_get x d = Some ti ->
        exists ti',
          dict_get x (fst (parse_line t (d, column_comment) line)) = Some ti'
          /\ columns ti' = columns ti.
Proof.
  intros t d cc indent name r1 r2 Hind Hn Hnw Hct line.
  destruct name as [|n0 name']; [congruence|].
  assert (Hn0 : is_word n0 = true)
    by (simpl in Hnw; now apply andb_true_iff in Hnw as [Hn0 _]).
  remember (n0 :: name') as name eqn:Hname.
  destruct (rstrip_chars_prefix is_space r2) as (r & Hr).
  set (r2' := rstrip_chars is_space r2) in *.
  assert (Hstrip : strip line = name ++ r1 ++ lit "PRIMARY KEY" ++ r2').
  { unfold strip, line.
    replace (indent ++ name ++ r1 ++ lit "PRIMARY KEY" ++ r2)
      with (indent
            ++ (n0 :: (name' ++ r1 ++ lit "PRIMARY KE") ++ ["Y"%char])
            ++ r2)
      by (rewrite Hname; cbn [app lit list_ascii_of_string];
          rewrite <- !app_assoc; reflexivity).
    rewrite strip_chars_core; try assumption; try reflexivity.
    - rewrite Hname. cbn [app lit list_ascii_of_string].
      rewrite <- !app_assoc. reflexivity.
    - now apply word_not_space. }
  assert (Hwhole : name ++ r1 ++ lit "PRIMARY KEY" ++ r2
                   = (name ++ r1 ++ lit "PRIMARY KEY" ++ r2') ++ r).
  { rewrite Hr at 1. now rewrite <- !app_assoc. }
  rewrite Hwhole in Hct. apply startswith_false_prefix in Hct.
  assert (Hdash : startswith (lit "--")
                    (name ++ r1 ++ lit "PRIMARY KEY" ++ r2') = false).
  { rewrite Hname. unfold startswith.
    cbn [lit list_ascii_of_string app drop_prefix].
    now rewrite (word_not_dash _ Hn0). }
  assert (Hpk : contains (lit "PRIMARY KEY")
                  (name ++ r1 ++ lit "PRIMARY KEY" ++ r2') = true).
  { rewrite app_assoc. apply contains_app_r, contains_prefix. }
  assert (Heq : parse_line t (d, cc) line
                = (dict_adjust t
                     (add_constraint (strip_chars (is_char ",") (strip line)))
                     d, cc)).
  { unfold parse_line, classify. rewrite Hstrip.
    rewrite Hct, Hdash, Hpk. cbn [orb].
    rewrite Hname at 1. reflexivity. }
  split; [exact Heq|].
  intros x ti Hx. rewrite Heq. cbn [fst].
  rewrite dict_get_adjust, Hx.
  destruct (str_eqb x t); simpl; eauto.
Qed.

Lemma plain_column_line_declares_column_witness :
  parse_line (lit "grade") ([(lit "grade",
                              {| comment := lit "grades per student";
                                 columns := [];
                                 constraints := [] |})],
                            Some (lit "grade obtained"))
    (lit "    grade REAL,")
  = ([(lit "grade",
       {| comment := lit "grades per student";
          columns := [(lit "grade",
                       {| col_type := lit "REAL";
                          col_comment := Some (lit "grade obtained") |})];
          constraints := [] |})],
     None).
Proof.
  rewrite (@plain_column_line_declares_column (lit "grade") _ _
             (lit "    ") (lit "grade") (lit " ") (lit "REAL") (lit ","));
    try reflexivity; discriminate.
Defined.

Lemma inline_key_line_is_a_constraint_witness :
  fst (parse_line (lit "student_details")
         ([(lit "student_details",
            {| comment := lit "students enrolled";
               columns := [];
               constraints := [] |})], None)
         (lit "    " ++ lit "student_id" ++ lit " INTEGER "
          ++ lit "PRIMARY KEY" ++ lit ","))
  = [(lit "student_details",
      {| comment := lit "students enrolled";
         columns := [];
         constraints := [lit "student_id INTEGER PRIMARY KEY"] |})].
Proof.
  assert (Hname : lit "student_id" <> []) by discriminate.
  destruct (@inline_key_line_is_a_constraint (lit "student_details")
              [(lit "student_details",
                {| comment := lit "students enrolled";
                   columns := [];
                   constraints := [] |})] None
              (lit "    ") (lit "student_id") (lit " INTEGER ") (lit ",")
              eq_refl Hname eq_refl eq_refl)
    as [Heq _].
  apply (f_equal fst) in Heq.
  etransitivity; [exact Heq|]. vm_compute. reflexivity.
Defined.
